(** * MTG-Link: the per-gap pipeline of [mtglink.py]

    A shallow embedding of [gapfilling] (the k-mer / abundance sweep, the
    qualitative evaluation of the gap-filled sequences, the GFA fallback)
    and of the top-level scheduler of [src/mtglink.py], with the properties
    of the specification stated over it. *)

From Stdlib Require Import ZArith List String Ascii Bool Lia QArith.
From stdpp Require Import base gmap strings list fin_maps sorting.
Import ListNotations.

Local Open Scope Z_scope.
Local Open Scope string_scope.

(** ** Python strings *)

Module PyStr.

(** [sub in s] *)
Fixpoint contains (sub s : string) : bool :=
  String.prefix sub s ||
  match s with
  | EmptyString => false
  | String _ s' => contains sub s'
  end.

(** [s.split(sep)] for a one-character separator: the pieces between the
    occurrences of [sep], at least one piece. *)
Fixpoint split_aux (sep : ascii) (cur : string) (s : string) : list string :=
  match s with
  | EmptyString => [cur]
  | String c s' =>
      if Ascii.eqb c sep then cur :: split_aux sep EmptyString s'
      else split_aux sep (cur +:+ String c EmptyString) s'
  end.

Definition split (sep : ascii) (s : string) : list string :=
  split_aux sep EmptyString s.

(** [s[-1]], [None] standing for IndexError *)
Fixpoint last_char (s : string) : option ascii :=
  match s with
  | EmptyString => None
  | String c EmptyString => Some c
  | String _ s' => last_char s'
  end.

(** [min(l)] on strings: Python compares strings by code point *)
Definition min_str (a b : string) : string :=
  if String.leb a b then a else b.

Definition py_min (d : string) (l : list string) : string :=
  match l with
  | [] => d
  | x :: l' => fold_left min_str l' x
  end.

Definition of_char (c : ascii) : string := String c EmptyString.

End PyStr.

(** ** The fragment of Python's [re] the script uses *)

Module Re.

Inductive regex : Type :=
| Void
| Eps
| Chr (c : ascii)
| Dot                          (* [.] : any character but a newline *)
| Class (cs : list ascii)      (* [[AB]] *)
| Cat (r1 r2 : regex)
| Alt (r1 r2 : regex)
| Star (r : regex).

Definition newline : ascii := "010"%char.

Fixpoint nullable (r : regex) : bool :=
  match r with
  | Void => false
  | Eps => true
  | Chr _ => false
  | Dot => false
  | Class _ => false
  | Cat r1 r2 => nullable r1 && nullable r2
  | Alt r1 r2 => nullable r1 || nullable r2
  | Star _ => true
  end.

(** Brzozowski derivative *)
Fixpoint deriv (c : ascii) (r : regex) : regex :=
  match r with
  | Void => Void
  | Eps => Void
  | Chr a => if Ascii.eqb c a then Eps else Void
  | Dot => if Ascii.eqb c newline then Void else Eps
  | Class cs => if existsb (Ascii.eqb c) cs then Eps else Void
  | Cat r1 r2 =>
      if nullable r1 then Alt (Cat (deriv c r1) r2) (deriv c r2)
      else Cat (deriv c r1) r2
  | Alt r1 r2 => Alt (deriv c r1) (deriv c r2)
  | Star r1 => Cat (deriv c r1) (Star r1)
  end.

Fixpoint fullmatch (r : regex) (s : string) : bool :=
  match s with
  | EmptyString => nullable r
  | String c s' => fullmatch (deriv c r) s'
  end.

Fixpoint lit (s : string) : regex :=
  match s with
  | EmptyString => Eps
  | String c s' => Cat (Chr c) (lit s')
  end.

(** [re.match('^' + body + '$', s)]: [re.match] anchors at the start of
    [s]; without MULTILINE, [$] holds at the end of [s] and just before a
    newline that ends [s]. *)
Definition match_dollar (body : regex) (s : string) : bool :=
  fullmatch (Cat body (Alt Eps (Chr newline))) s.

Definition AB : regex := Class ["A"%char; "B"%char].

(** ['^.*Quality [AB]{2}$'] *)
Definition quality_AB2 : regex :=
  Cat (Star Dot) (Cat (lit "Quality ") (Cat AB AB)).

(** ['^.*Quality A[AB]{2}$'] *)
Definition quality_A_AB2 : regex :=
  Cat (Star Dot) (Cat (lit "Quality A") (Cat AB AB)).

(** ['^.*Quality BA[AB]$'] *)
Definition quality_BA_AB : regex :=
  Cat (Star Dot) (Cat (lit "Quality BA") AB).

End Re.

(** ** Verdict on one gap-filled sequence

    [len(seq) > 2*ext and re.match(...)], lines 422 and 467. *)

Definition accepted_ref (ext : Z) (len_seq : Z) (description : string) : bool :=
  (2 * ext <? len_seq)%Z && Re.match_dollar Re.quality_AB2 description.

Definition accepted_flank (ext : Z) (len_seq : Z) (description : string) : bool :=
  (2 * ext <? len_seq)%Z &&
  (Re.match_dollar Re.quality_A_AB2 description ||
   Re.match_dollar Re.quality_BA_AB description).

(** ** Data read and written by [gapfilling] *)

(** Exceptions the script can meet on the paths modelled here. *)
Inductive exn : Type :=
| FileNotFoundError
| UnboundLocalError
| IndexError
| ValueError.

(** A FASTA record as [SeqIO.parse] yields it. *)
Record SeqRecord : Type := mkSeqRecord {
  record_id : string;
  record_description : string;
  record_seq : string
}.

(** [<output>.insertions.fasta] as the script reads it: its size (line 293)
    and, for a file that is not empty, what [SeqIO.parse] makes of it
    (lines 298-299): its records, or ValueError for a content that is not
    FASTA. *)
Inductive InsertionsFile : Type :=
| EmptyFile
| Fasta (records : list SeqRecord)
| NotFasta.

(** A complete row of [<prefix>.ref_qry.alignment.stats]: the columns the
    script reads. *)
Record RefRow : Type := mkRefRow {
  ref_Strand : string;
  ref_Solution : string;
  ref_Ref : string;
  ref_Quality : string
}.

(** A complete row of [<prefix>.qry_qry.alignment.stats]. *)
Record QryRow : Type := mkQryRow {
  qry_Solution1 : string;
  qry_Solution2 : string;
  qry_Quality : string
}.

(** The reference handed to [stats_align]: a file of [refDir], or the merged
    flanking contigs the script has just written under [contigDir]. *)
Inductive RefPath : Type :=
| InRefDir (dir file_ : string)
| ContigsFasta.

(** The command line, as far as [gapfilling] and the scheduler read it. *)
Record Args : Type := mkArgs {
  chunk : Z;
  freq : Z;
  refDir : option string;
  line : option Z;
  rbxu : option string;
  kmer : list Z;
  force : bool;
  abundance_threshold : list Z;
  extension : Z
}.

(** What [Gap] and [Scaffold] (helpers) give for one G line. *)
Record GapInfo : Type := mkGapInfo {
  current_gap : string;          (* [str(current_gap)] *)
  gap_identity : string;
  gap_label : string;
  gap_left : string;             (* [str(gap.left)] *)
  gap_right : string;
  gap_length : Z;
  left_name : string;            (* [left_scaffold.name] *)
  left_slen : Z;
  right_name : string;
  right_slen : Z
}.

(** The external collaborators and the files they leave, for one gap. *)
Record World : Type := mkWorld {
  (* [<output>.insertions.fasta] after [mtg_fill ... k a]: [None] when the
     file is absent *)
  insertions : Z -> Z -> option InsertionsFile;
  (* [os.listdir(refDir)] *)
  listdir : list string;
  (* [os.path.isfile] on a file of [refDir] *)
  isfile_in_refDir : string -> bool;
  (* the two statistics files for prefix [<label>.k<k>.a<a>], [None] when absent *)
  ref_qry_stats : Z -> Z -> option (list RefRow);
  qry_qry_stats : Z -> Z -> option (list QryRow);
  (* helper [get_output_for_gfa record ext k ...] *)
  get_output_for_gfa : SeqRecord -> Z -> Z -> list string;
  (* what [extract_barcodes] reads in a region [scaffold, chunk] *)
  barcodes_in : string -> Z -> list string;
  (* lines of the reads file [get_reads] writes for a barcode list *)
  get_reads : list string -> list string;
  (* lines of the file given with [-rbxu], a path taken from [unionDir]
     (lines 192 and 218): [None] when there is no such file *)
  rbxu_lines : option (list string)
}.

(** ** Qualitative evaluation of one gap-filled sequence (lines 385-475) *)

Section Scoring.

Variable args : Args.
Variable gap : GapInfo.
Variable w : World.

(** Lines 298-305: the solution number is moved into the id. *)
Definition correct_record (record : SeqRecord) : SeqRecord :=
  let suffix :=
    if PyStr.contains "solution" (record_description record)
    then List.last (PyStr.split " " (record_description record)) EmptyString
    else "1/1" in
  mkSeqRecord (record_id record +:+ "_sol_" +:+ suffix)
              (record_description record) (record_seq record).

(** [str(record.id).split('_')[0][-1]] *)
Definition strand_of (id : string) : option ascii :=
  PyStr.last_char (hd EmptyString (PyStr.split "_" id)).

(** [("bkpt1" in record.id and row["Strand"] == "fwd") or
     ("bkpt2" in record.id and row["Strand"] == "rev")] *)
Definition strand_agrees (id strand : string) : bool :=
  (PyStr.contains "bkpt1" id && String.eqb strand "fwd") ||
  (PyStr.contains "bkpt2" id && String.eqb strand "rev").

Definition ref_row_selected (id : string) (row : RefRow) : bool :=
  PyStr.contains (ref_Solution row) id && strand_agrees id (ref_Strand row).

(** One side of the [or] of lines 408-409. *)
Definition slot_selected (id slot : string) : bool :=
  PyStr.contains (List.last (PyStr.split "_" id) EmptyString) slot &&
  ((PyStr.contains "bkpt1" id && PyStr.contains "fwd" slot) ||
   (PyStr.contains "bkpt2" id && PyStr.contains "rev" slot)).

Definition qry_row_selected (id : string) (row : QryRow) : bool :=
  slot_selected id (qry_Solution1 row) || slot_selected id (qry_Solution2 row).

(** [min(q)] after [if q == []: q.append('D')] *)
Definition best_grade (q : list string) : string :=
  match q with
  | [] => "D"
  | _ => PyStr.py_min "D" q
  end.

Definition quality_ref (id : string) (rows : list RefRow) : list string :=
  map ref_Quality (List.filter (ref_row_selected id) rows).

(** Lines 438-442: the [if] takes the rows of the left flank, the [elif]
    the rows of the right flank among those the [if] left. *)
Definition quality_ext_left (id : string) (rows : list RefRow) : list string :=
  map ref_Quality
    (List.filter (fun row =>
       ref_row_selected id row && String.eqb (ref_Ref row) (left_name gap)) rows).

Definition quality_ext_right (id : string) (rows : list RefRow) : list string :=
  map ref_Quality
    (List.filter (fun row =>
       negb (ref_row_selected id row && String.eqb (ref_Ref row) (left_name gap)) &&
       (ref_row_selected id row && String.eqb (ref_Ref row) (right_name gap))) rows).

Definition quality_revcomp (id : string) (rows : list QryRow) : list string :=
  map qry_Quality (List.filter (qry_row_selected id) rows).

(** [quality_gapfilled_seq], lines 416 and 461. *)
Definition quality_gapfilled_seq (id : string) (rr : list RefRow) (qq : list QryRow) : string :=
  match refDir args with
  | Some _ => best_grade (quality_ref id rr) +:+ best_grade (quality_revcomp id qq)
  | None =>
      best_grade (quality_ext_left id rr) +:+ best_grade (quality_ext_right id rr) +:+
      best_grade (quality_revcomp id qq)
  end.

Definition len (s : string) : Z := Z.of_nat (String.length s).

(** The test of lines 422 and 467 on the relabelled record. *)
Definition good_solution (seq description : string) : bool :=
  match refDir args with
  | Some _ => accepted_ref (extension args) (len seq) description
  | None => accepted_flank (extension args) (len seq) description
  end.

(** One turn of the loop of line 385: the entry appended to [solutions]
    and, for a good solution, the entry appended to [output_for_gfa]. *)
Definition score_record (k : Z) (rr : list RefRow) (qq : list QryRow)
    (record : SeqRecord) : exn + (string * option (list string)) :=
  match strand_of (record_id record) with
  | None => inl IndexError
  | Some strand =>
      let description :=
        "Quality " +:+ quality_gapfilled_seq (record_id record) rr qq in
      let qualified :=
        mkSeqRecord (record_id record) description (record_seq record) in
      if good_solution (record_seq record) description
      then inr ("True_" +:+ PyStr.of_char strand,
                Some (get_output_for_gfa w qualified (extension args) k))
      else inr ("False_" +:+ PyStr.of_char strand, None)
  end.

(** The whole loop: [solutions] and [output_for_gfa], both started empty
    at lines 381-382. *)
Fixpoint score_records (k : Z) (rr : list RefRow) (qq : list QryRow)
    (records : list SeqRecord) (solutions : list string)
    (output_for_gfa : list (list string))
  : exn + (list string * list (list string)) :=
  match records with
  | [] => inr (solutions, output_for_gfa)
  | record :: records' =>
      match score_record k rr qq record with
      | inl e => inl e
      | inr (check, None) =>
          score_records k rr qq records' (solutions ++ [check]) output_for_gfa
      | inr (check, Some gfa_output) =>
          score_records k rr qq records' (solutions ++ [check])
                        (output_for_gfa ++ [gfa_output])
      end
  end.

End Scoring.

(** ** The sweep over k and a (lines 239-518) *)

(** The local variables of [gapfilling] that outlive one turn of the loops.
    [None] is an unbound name: reading it raises UnboundLocalError.
    [trace] records the calls of [mtg_fill], in order. *)
Record Locals : Type := mkLocals {
  ref_file : option RefPath;
  prefix : option (Z * Z);
  solutions : list string;
  output_for_gfa : option (list (list string));
  solution : option bool;
  a_var : option Z;
  trace : list (Z * Z)
}.

Definition initial_locals : Locals :=
  mkLocals None None [] None None None [].

Definition set_ref_file (v : option RefPath) (st : Locals) : Locals :=
  mkLocals v (prefix st) (solutions st) (output_for_gfa st) (solution st) (a_var st) (trace st).
Definition set_prefix (v : option (Z * Z)) (st : Locals) : Locals :=
  mkLocals (ref_file st) v (solutions st) (output_for_gfa st) (solution st) (a_var st) (trace st).
Definition set_solutions (v : list string) (st : Locals) : Locals :=
  mkLocals (ref_file st) (prefix st) v (output_for_gfa st) (solution st) (a_var st) (trace st).
Definition set_output_for_gfa (v : option (list (list string))) (st : Locals) : Locals :=
  mkLocals (ref_file st) (prefix st) (solutions st) v (solution st) (a_var st) (trace st).
Definition set_solution (v : option bool) (st : Locals) : Locals :=
  mkLocals (ref_file st) (prefix st) (solutions st) (output_for_gfa st) v (a_var st) (trace st).
Definition call_mtg_fill (k a : Z) (st : Locals) : Locals :=
  mkLocals (ref_file st) (prefix st) (solutions st) (output_for_gfa st) (solution st)
           (Some a) (trace st ++ [(k, a)]).

(** How a loop body ends. *)
Inductive ctl : Type :=
| Normal
| Break
| Raise (e : exn).

(** [min(l)] on integers; Python raises ValueError on an empty list. *)
Definition list_min (l : list Z) : option Z :=
  match l with
  | [] => None
  | x :: l' => Some (fold_left Z.min l' x)
  end.

(** [x in l] for a list of strings *)
Definition str_in (x : string) (l : list string) : bool :=
  existsb (String.eqb x) l.

(** Python's [x and y] on a string and a boolean, as a truth value: a
    non-empty string is true, and then the value is [y]. *)
Definition str_and (x : string) (y : bool) : bool :=
  negb (String.eqb x EmptyString) && y.

(** What the sweep hands back. *)
Inductive outcome : Type :=
| Returned (output : list (list string))
| Raised (e : exn).

Section Sweep.

Variable args : Args.
Variable gap : GapInfo.
Variable w : World.

Definition isfile (p : RefPath) : bool :=
  match p with
  | InRefDir _ file_ => isfile_in_refDir w file_
  | ContigsFasta => true
  end.

(** Lines 311-322. With [refDir]: the last entry of the directory whose
    name contains the gap label, or the former value of [ref_file]; the
    [elif] is reached only without [refDir]. *)
Definition locate_ref_file (st : Locals) : option RefPath :=
  match refDir args with
  | Some dir =>
      fold_left
        (fun found file_ =>
           if PyStr.contains (gap_label gap) file_ then Some (InRefDir dir file_)
           else found)
        (listdir w) (ref_file st)
  | None => Some ContigsFasta
  end.

(** Body of the loop of line 274, for one pair (k, a). *)
Definition pair_step (k a : Z) (st0 : Locals) : Locals * ctl :=
  let st := call_mtg_fill k a st0 in                            (* 290 *)
  match insertions w k a with
  | None => (st, Raise FileNotFoundError)                        (* 293 *)
  | Some EmptyFile =>                                            (* 498-504 *)
      (set_solution (Some false) (set_output_for_gfa (Some []) st), Normal)
  | Some NotFasta => (st, Raise ValueError)                      (* 299 *)
  | Some (Fasta records) =>
      let input_file := map correct_record records in            (* 297-305 *)
      match locate_ref_file st with                              (* 311-341 *)
      | None => (st, Raise UnboundLocalError)                    (* 315 *)
      | Some p =>
          let st := set_ref_file (Some p) st in
          let st := if isfile p then set_prefix (Some (k, a)) st else st in  (* 343-349 *)
          match prefix st with
          | None => (st, Raise UnboundLocalError)                (* 355 *)
          | Some (pk, pa) =>
              match ref_qry_stats w pk pa, qry_qry_stats w pk pa with
              | Some rr, Some qq =>                              (* 365-484 *)
                  match score_records args gap w k rr qq input_file [] [] with
                  | inl e => (st, Raise e)
                  | inr (sols, outs) =>
                      let st := set_output_for_gfa (Some outs) (set_solutions sols st) in
                      if str_and "True_1" (str_in "True_2" sols)  (* 488 *)
                      then (set_solution (Some true) st, Break)
                      else (set_solution (Some false) st, Normal)
                  end
              | _, _ =>                                          (* 358-363, 492-494 *)
                  (set_solution (Some false) st, Normal)
              end
          end
      end
  end.

(** The loop of line 274. *)
Fixpoint a_loop (k : Z) (l : list Z) (st : Locals) : Locals * ctl :=
  match l with
  | [] => (st, Normal)
  | a :: l' =>
      match pair_step k a st with
      | (st', Normal) => a_loop k l' st'
      | r => r
      end
  end.

(** [k == min(args.kmer) and a == min(args.abundance_threshold)], line 513 *)
Definition last_pair_test (k : Z) (st : Locals) : exn + bool :=
  match list_min (kmer args) with
  | None => inl ValueError
  | Some mk =>
      if negb (k =? mk)%Z then inr false
      else match a_var st with
           | None => inl UnboundLocalError
           | Some a =>
               match list_min (abundance_threshold args) with
               | None => inl ValueError
               | Some ma => inr (a =? ma)%Z
               end
           end
  end.

(** Lines 507-517, after the loop over a. *)
Definition after_a_loop (k : Z) (st : Locals) : Locals * ctl :=
  match solution st with
  | None => (st, Raise UnboundLocalError)
  | Some sol =>
      if sol && negb (force args) then (st, Break)
      else
        match last_pair_test k st with
        | inl e => (st, Raise e)
        | inr false => (st, Normal)
        | inr true =>
            match output_for_gfa st with
            | None => (st, Raise UnboundLocalError)
            | Some [] => (set_output_for_gfa (Some [[current_gap gap]]) st, Normal)
            | Some _ => (st, Normal)
            end
        end
  end.

(** Body of the loop of line 245. *)
Definition k_step (k : Z) (st : Locals) : Locals * ctl :=
  match a_loop k (abundance_threshold args) st with
  | (st', Raise e) => (st', Raise e)
  | (st', _) => after_a_loop k st'
  end.

(** The loop of line 245. *)
Fixpoint k_loop (l : list Z) (st : Locals) : Locals * ctl :=
  match l with
  | [] => (st, Normal)
  | k :: l' =>
      match k_step k st with
      | (st', Normal) => k_loop l' st'
      | r => r
      end
  end.

(** Lines 239-527: the second component of the value of [gapfilling]. *)
Definition sweep : Locals * outcome :=
  match k_loop (kmer args) initial_locals with
  | (st, Raise e) => (st, Raised e)
  | (st, _) =>
      match output_for_gfa st with
      | None => (st, Raised UnboundLocalError)
      | Some out => (st, Returned out)
      end
  end.

End Sweep.

(** ** The union of the barcodes and its summary (lines 174-231) *)

(** Modelled from the spec: [extract_barcodes] (helpers.py) is not in the
    sources at hand. The spec has it accumulate, in the one mapping it is
    handed, the occurrence count of each barcode over the calls: every
    barcode read in the region adds one to its count. *)
Definition extract_barcodes (observed : list string) (barcodes_occ : gmap string Z)
  : gmap string Z :=
  fold_left (fun occ barcode => <[barcode := default 0 (occ !! barcode) + 1]> occ)
            observed barcodes_occ.

(** Lines 207-211: the barcodes written to the [.bxu] file. A [gmap] lists
    its items in its own order, not in the dict's insertion order: only the
    content of the file is modelled. *)
Definition filter_by_freq (freq : Z) (barcodes_occ : gmap string Z) : list string :=
  map fst (List.filter (fun item => (freq <=? snd item)%Z) (map_to_list barcodes_occ)).

(** [union_summary], line 231. [rbxu] is [n / 4] in Python 3, a float:
    dividing an integer below 2^53 by 4 is exact in binary64, so the value
    is the rational n/4. *)
Record UnionSummary : Type := mkUnionSummary {
  Gap_ID : string;
  Left_scaffold : string;
  Right_scaffold : string;
  Gap_size : Z;
  Chunk_size : Z;
  Nb_barcodes : Z;
  Nb_reads : Q
}.

Definition nb_reads (union_reads_lines : list string) : Q :=
  Qmake (Z.of_nat (length union_reads_lines)) 4.

Section Union.

Variable args : Args.
Variable gap : GapInfo.
Variable w : World.

(** Lines 176-186 *)
Definition chunk_L : Z :=
  if (left_slen gap <? chunk args)%Z then left_slen gap else chunk args.

Definition chunk_R : Z :=
  if (right_slen gap <? chunk args)%Z then right_slen gap else chunk args.

(** Lines 195-203: one dict, filled by the two calls. *)
Definition barcodes_occ : gmap string Z :=
  extract_barcodes (barcodes_in w (right_name gap) chunk_R)
    (extract_barcodes (barcodes_in w (left_name gap) chunk_L) ∅).

Definition union_barcodes : list string :=
  filter_by_freq (freq args) barcodes_occ.

(** Lines 217-224 and 230: the lines of the reads file as line 230 reads
    them; [None] when [open] finds no file, which only the path given with
    [-rbxu] allows. *)
Definition union_reads : option (list string) :=
  match rbxu args with
  | Some _ => rbxu_lines w
  | None => Some (get_reads w union_barcodes)
  end.

(** Lines 229-231; [None] stands for the FileNotFoundError of line 230. *)
Definition union_summary : option UnionSummary :=
  (fun lines =>
     mkUnionSummary (gap_identity gap) (gap_left gap) (gap_right gap) (gap_length gap)
                    (chunk args) (Z.of_nat (length union_barcodes)) (nb_reads lines))
  <$> union_reads.

(** [gapfilling], line 154: its value, or the exception it ends with,
    together with the calls of [mtg_fill] it made. *)
Definition gapfilling : list (Z * Z) * (exn + (UnionSummary * list (list string))) :=
  match union_summary with
  | None => ([], inl FileNotFoundError)                          (* 230 *)
  | Some summary =>
      match sweep args gap w with
      | (st, Raised e) => (trace st, inl e)
      | (st, Returned out) => (trace st, inr (summary, out))
      end
  end.

End Union.

(** ** The scheduler (lines 533-612) *)

Definition record_type (gfa_line : string) : string :=
  match gfa_line with
  | EmptyString => EmptyString
  | String c _ => PyStr.of_char c
  end.

(** [gfa.segments] and [gfa.gaps], on the lines of the graph as strings. *)
Definition segments (gfa : list string) : list string :=
  List.filter (fun l => String.eqb (record_type l) "S") gfa.

Definition gaps_of (gfa : list string) : list string :=
  List.filter (fun l => String.eqb (record_type l) "G") gfa.

(** [l[n:]] *)
Definition slice_from {A : Type} (n : Z) (l : list A) : list A :=
  let size := Z.of_nat (length l) in
  drop (Z.to_nat (if (n <? 0)%Z then Z.max (size + n) 0 else n)) l.

Definition tab : string := PyStr.of_char "009"%char.

Definition header_line : string := "H" +:+ tab +:+ "VN:Z:2.0".

(** How the [try] block ends: at line 612 with [sys.exit(1)], or at its
    last line with the output graph and the summary table written. *)
Inductive run_end : Type :=
| Exit1 (e : exn)
| Done (out_gfa : option (list string)) (union_sum : list UnionSummary).

Record Run : Type := mkRun {
  dispatched : list string;      (* the gaps handed to [p.map] *)
  run_result : run_end
}.

Section Scheduler.

Variable args : Args.
(** [gfa.lines], as strings *)
Variable gfa : list string.
Variable gap_info : string -> GapInfo.
Variable world : string -> World.
(** helper [update_gfa_with_solution], as its effect on the output graph *)
Variable update_gfa_with_solution :
  list string -> option (list string) -> option (list string).
(** the output graph before the run ([None]: no such file) *)
Variable out_gfa_before : option (list string).

(** Lines 543-560: the output graph before the gaps are filled. *)
Definition initial_out_gfa : option (list string) :=
  let out1 :=
    if (length (gaps_of gfa) =? 0)%nat then Some gfa else out_gfa_before in
  match line args with
  | None => Some (header_line :: segments gfa)
  | Some _ => out1
  end.

(** Lines 562-573 *)
Definition gaps : list string :=
  match line args with
  | Some n => slice_from (n - (Z.of_nat (length (segments gfa)) + 2)) (gaps_of gfa)
  | None => gaps_of gfa
  end.

(** Lines 587-595 for the value of one task. *)
Definition write_gap (output_for_gfa : list (list string)) (out : option (list string))
  : exn + option (list string) :=
  match output_for_gfa with
  | [] => inl IndexError
  | first :: _ =>
      if (1 <? length first)%nat
      then inr (fold_left (fun f output => update_gfa_with_solution output f)
                          output_for_gfa out)
      else match first, out with
           | [], _ => inl IndexError
           | _, None => inl FileNotFoundError
           | gap_line :: _, Some f => inr (Some (f ++ [gap_line])%list)
           end
  end.

(** Lines 581-595: the values of the tasks, in the order of the gaps;
    [p.map] raises what a task raised. *)
Fixpoint collect (results : list (exn + (UnionSummary * list (list string))))
    (out : option (list string)) (union_sum : list UnionSummary) : run_end :=
  match results with
  | [] => Done out union_sum
  | inl e :: _ => Exit1 e
  | inr (summary, output_for_gfa) :: results' =>
      match write_gap output_for_gfa out with
      | inl e => Exit1 e
      | inr out' => collect results' out' (union_sum ++ [summary])
      end
  end.

Definition first_raised (results : list (exn + (UnionSummary * list (list string))))
  : option exn :=
  List.find (fun r => match r with inl _ => true | inr _ => false end) results
  ≫= (fun r => match r with inl e => Some e | inr _ => None end).

Definition main : Run :=
  let results := map (fun g => snd (gapfilling args (gap_info g) (world g))) gaps in
  mkRun gaps
        match first_raised results with
        | Some e => Exit1 e
        | None => collect results initial_out_gfa []
        end.

End Scheduler.

(** ** The cap on the length of a gap-filled sequence (lines 282-284) *)

(** [max_length] as handed to [mtg_fill]: the default cap, 10000, is
    raised above a gap that reaches it. *)
Definition effective_max_length (max_length gap_length : Z) : Z :=
  if ((max_length =? 10000) && (10000 <=? gap_length))%Z
  then gap_length + 1000
  else max_length.

(** ** The suffix tests on the command line (lines 70-74) *)

(** ['^.*.gfa$'] and ['^.*.bam$']: the dot before the extension is not
    escaped, it stands for any character but a newline. *)
Definition suffix_pattern (extension_ : string) : Re.regex :=
  Re.Cat (Re.Star Re.Dot) (Re.Cat Re.Dot (Re.lit extension_)).

(** [re.match('^.*.gfa$', args.input_gfa) is None] leads to [parser.error]. *)
Definition gfa_suffix_ok (input_gfa : string) : bool :=
  Re.match_dollar (suffix_pattern "gfa") input_gfa.

Definition bam_suffix_ok (bam : string) : bool :=
  Re.match_dollar (suffix_pattern "bam") bam.

(** ** The names of the graph files (lines 83 and 537) *)

(** [s.split(sep)[0]] for a separator that is not empty: what stands before
    the first occurrence of [sep], the whole of [s] when there is none. *)
Fixpoint before_first (sep s : string) : string :=
  if String.prefix sep s then EmptyString
  else match s with
       | EmptyString => EmptyString
       | String c s' => String c (before_first sep s')
       end.

(** Line 83: [gfa_file.split('/')[-1]] *)
Definition gfa_name (gfa_file : string) : string :=
  List.last (PyStr.split "/" gfa_file) EmptyString.

(** Line 537: [str(gfa_name).split('.gfa')[0] + "_mtglink.gfa"] *)
Definition out_gfa_file (gfa_file : string) : string :=
  before_first ".gfa" (gfa_name gfa_file) +:+ "_mtglink.gfa".

(** ** The k-mers of the breakpoint file (lines 257-266) *)

(** An index of a slice, brought into the bounds of a sequence of [size]
    items: a negative index counts from the end. *)
Definition slice_index (size i : Z) : Z :=
  if (i <? 0)%Z then Z.max (size + i) 0 else Z.min i size.

(** [s[i:j]] *)
Definition py_slice (s : string) (i j : Z) : string :=
  let size := Z.of_nat (String.length s) in
  let lo := slice_index size i in
  let hi := slice_index size j in
  String.substring (Z.to_nat lo) (Z.to_nat (hi - lo)) s.

(** Line 258: [seq_L[(left_scaffold.slen - ext - k):(left_scaffold.slen - ext)]] *)
Definition line2 (seq_L : string) (slen ext k : Z) : string :=
  py_slice seq_L (slen - ext - k) (slen - ext).

(** Line 264: [seq_R[ext:(ext + k)]] *)
Definition line4 (seq_R : string) (ext k : Z) : string :=
  py_slice seq_R ext (ext + k).

(** ** After the [try] block (lines 587-595 and 615-649) *)

(** The two names that are bound nowhere but in the loop over the values of
    the tasks ([None]: not bound). [gapfill_file] is the value of the helper
    [update_gfa_with_solution]. *)
Record Flags : Type := mkFlags {
  success : option bool;
  gapfill_file : option string
}.

(** Where the script stands after line 649. *)
Inductive script_end : Type :=
| SysExit1 (e : exn)                   (* line 612 *)
| NameError (name : string)            (* lines 620 and 649 *)
| OpensFasta (out_fasta_file : string) (* line 652 *).

Section Epilogue.

Variable args : Args.
Variable gfa : list string.
Variable gap_info : string -> GapInfo.
Variable world : string -> World.
Variable update_gfa_with_solution :
  list string -> option (list string) -> option (list string).
Variable out_gfa_before : option (list string).
Variable outDir : string.
(** the file name the helper [update_gfa_with_solution] returns *)
Variable gapfill_file_of : list string -> string.

(** Lines 587-595, for the two names. *)
Definition flag_step (fl : Flags) (output_for_gfa : list (list string)) : Flags :=
  match output_for_gfa with
  | [] => fl
  | first :: _ =>
      if (1 <? length first)%nat
      then fold_left (fun fl' output => mkFlags (Some true) (Some (gapfill_file_of output)))
                     output_for_gfa fl
      else mkFlags (Some false) (gapfill_file fl)
  end.

(** The values the tasks returned. *)
Definition task_outputs : list (list (list string)) :=
  omap (fun g => match snd (gapfilling args (gap_info g) (world g)) with
                 | inr (_, output_for_gfa) => Some output_for_gfa
                 | inl _ => None
                 end)
       (gaps args gfa).

(** Lines 620 and 649 *)
Definition epilogue (fl : Flags) : script_end :=
  match success fl with
  | None => NameError "success"
  | Some _ =>
      match gapfill_file fl with
      | None => NameError "gapfill_file"
      | Some file_ => OpensFasta (outDir +:+ "/" +:+ file_)
      end
  end.

Definition script : script_end :=
  match run_result (main args gfa gap_info world update_gfa_with_solution out_gfa_before) with
  | Exit1 e => SysExit1 e
  | Done _ _ => epilogue (fold_left flag_step task_outputs (mkFlags None None))
  end.

End Epilogue.

(** ** The directories of the results (lines 129-139) *)

(** [os.mkdir(path)] on the set of the paths that exist; [None] stands for
    FileExistsError. *)
Definition mkdir (path : string) (fs : gset string) : option (gset string) :=
  if decide (path ∈ fs) then None else Some ({[path]} ∪ fs).

Definition unionDir (outDir : string) : string := outDir +:+ "/union".
Definition mtgDir (outDir : string) : string := outDir +:+ "/mtg_results".
Definition contigDir (outDir : string) : string := outDir +:+ "/contigs".

(** Lines 129-139, once [outDir] is the working directory. *)
Definition make_dirs (outDir : string) (fs : gset string) : option (gset string) :=
  match mkdir (unionDir outDir) fs with
  | None => None
  | Some fs1 =>
      match mkdir (mtgDir outDir) fs1 with
      | None => None
      | Some fs2 => mkdir (contigDir outDir) fs2
      end
  end.

(** ** Sample inputs *)

Module Sample.

(** The defaults of the argument parser. *)
Definition args : Args :=
  mkArgs 5000 2 None None None [51; 41; 31; 21] false [3; 2] 500.

Definition with_lists (ks abundances : list Z) (a : Args) : Args :=
  mkArgs (chunk a) (freq a) (refDir a) (line a) (rbxu a) ks (force a) abundances (extension a).

Definition with_force (a : Args) : Args :=
  mkArgs (chunk a) (freq a) (refDir a) (line a) (rbxu a) (kmer a) true
         (abundance_threshold a) (extension a).

Definition with_refDir (dir : string) (a : Args) : Args :=
  mkArgs (chunk a) (freq a) (Some dir) (line a) (rbxu a) (kmer a) (force a)
         (abundance_threshold a) (extension a).

Definition with_line (n : Z) (a : Args) : Args :=
  mkArgs (chunk a) (freq a) (refDir a) (Some n) (rbxu a) (kmer a) (force a)
         (abundance_threshold a) (extension a).

Definition with_rbxu (path : string) (a : Args) : Args :=
  mkArgs (chunk a) (freq a) (refDir a) (line a) (Some path) (kmer a) (force a)
         (abundance_threshold a) (extension a).

Definition gap_line : string :=
  "G" +:+ tab +:+ "*" +:+ tab +:+ "s1+" +:+ tab +:+ "s2+" +:+ tab +:+ "1000" +:+ tab +:+ "*".

Definition gap : GapInfo :=
  mkGapInfo gap_line "*" "s1+_s2+" "s1+" "s2+" 1000 "s1" 20000 "s2" 30000.

Definition dna (n : nat) : string := string_of_list_ascii (repeat "A"%char n).

(** Two sequences of MindTheGap, 1200 bp each, one per breakpoint. *)
Definition fwd_record : SeqRecord :=
  mkSeqRecord "bkpt1_GapID.s1+_s2+_Gaplen.1000"
              "bkpt1_GapID.s1+_s2+_Gaplen.1000 len_1200_qual_50" (dna 1200).

Definition rev_record : SeqRecord :=
  mkSeqRecord "bkpt2_GapID.s1+_s2+_Gaplen.1000"
              "bkpt2_GapID.s1+_s2+_Gaplen.1000 len_1200_qual_50" (dna 1200).

(** Statistics that grade both sequences A on the two flanks and on the
    reverse complement. *)
Definition ref_rows : list RefRow :=
  [ mkRefRow "fwd" "1/1" "s1" "A"; mkRefRow "fwd" "1/1" "s2" "A";
    mkRefRow "rev" "1/1" "s1" "A"; mkRefRow "rev" "1/1" "s2" "A" ].

Definition qry_rows : list QryRow :=
  [ mkQryRow "fwd_1/1" "rev_1/1" "A" ].

(** Statistics that grade every sequence C on the left flank. *)
Definition poor_ref_rows : list RefRow :=
  [ mkRefRow "fwd" "1/1" "s1" "C"; mkRefRow "fwd" "1/1" "s2" "A";
    mkRefRow "rev" "1/1" "s1" "C"; mkRefRow "rev" "1/1" "s2" "A" ].

Definition output_fields (record : SeqRecord) (ext k : Z) : list string :=
  [record_id record; record_description record; record_seq record].

(** The insertions file that holds the given sequences: an empty file when
    there is none. *)
Definition file_of (records : list SeqRecord) : InsertionsFile :=
  match records with
  | [] => EmptyFile
  | _ => Fasta records
  end.

(** A world given by the sequences MindTheGap finds for each pair and the
    reference rows of each pair; nothing is missing. *)
Definition world (found : Z -> Z -> option (list SeqRecord))
    (rows : Z -> Z -> list RefRow) : World :=
  mkWorld (fun k a => file_of <$> found k a) [] (fun _ => false)
          (fun k a => Some (rows k a)) (fun _ _ => Some qry_rows)
          output_fields (fun _ _ => []) (fun _ => []) None.

Definition at_pair {A : Type} (k a : Z) (x d : A) (k' a' : Z) : A :=
  if ((k' =? k) && (a' =? a))%Z then x else d.

(** Nothing found, whatever k and a. *)
Definition nothing : World :=
  world (fun _ _ => Some []) (fun _ _ => ref_rows).

(** Only the reverse sequence, at (51, 3). *)
Definition rev_only : World :=
  world (at_pair 51 3 (Some [rev_record]) (Some [])) (fun _ _ => ref_rows).

(** Only the forward sequence, at (51, 3). *)
Definition fwd_only : World :=
  world (at_pair 51 3 (Some [fwd_record]) (Some [])) (fun _ _ => ref_rows).

(** The forward sequence at (51, 3) and at (51, 2), good at (51, 3) only. *)
Definition fwd_then_poor : World :=
  world (fun k a => if (k =? 51)%Z then Some [fwd_record] else Some [])
        (at_pair 51 3 ref_rows poor_ref_rows).

(** Both sequences, at (41, 3). *)
Definition both_at_41_3 : World :=
  world (at_pair 41 3 (Some [fwd_record; rev_record]) (Some [])) (fun _ _ => ref_rows).

(** The insertions file of (51, 3) is missing. *)
Definition missing_51_3 : World :=
  world (at_pair 51 3 None (Some [])) (fun _ _ => ref_rows).

(** Barcode BX1 is read three times on the left and once on the right,
    BX2 once on the left only. *)
Definition barcoded : World :=
  mkWorld (fun _ _ => Some EmptyFile) [] (fun _ => false)
          (fun _ _ => Some ref_rows) (fun _ _ => Some qry_rows) output_fields
          (fun name _ => if String.eqb name "s1" then ["BX1"; "BX2"; "BX1"; "BX1"] else ["BX1"])
          (fun barcodes => flat_map (fun b => [b; "ACGT"; "+"; "FFFF"; b; "TTGA"]) barcodes) None.

(** A directory of references in which no name contains the gap label;
    MindTheGap finds both sequences at (51, 3). *)
Definition no_reference : World :=
  mkWorld (at_pair 51 3 (Some (Fasta [fwd_record; rev_record])) (Some EmptyFile))
          ["chr1_10-20.fasta"; "notes.txt"] (fun _ => true)
          (fun _ _ => Some ref_rows) (fun _ _ => Some qry_rows) output_fields
          (fun _ _ => []) (fun _ => []) None.

(** A graph without gap: a header, two segments and an edge. *)
Definition segment1 : string := "S" +:+ tab +:+ "s1" +:+ tab +:+ "20000" +:+ tab +:+ "*".
Definition segment2 : string := "S" +:+ tab +:+ "s2" +:+ tab +:+ "30000" +:+ tab +:+ "*".
Definition edge : string :=
  "E" +:+ tab +:+ "*" +:+ tab +:+ "s1+" +:+ tab +:+ "s2+" +:+ tab +:+ "19900" +:+ tab +:+
  "20000$" +:+ tab +:+ "0" +:+ tab +:+ "100" +:+ tab +:+ "*".

Definition graph_without_gap : list string :=
  [header_line; segment1; segment2; edge].

(** The same segments with one gap between them. *)
Definition graph_with_gap : list string :=
  [header_line; segment1; segment2; gap_line].

(** Four segments and three gaps, on lines 6, 7 and 8 of the file. *)
Definition segment3 : string := "S" +:+ tab +:+ "s3" +:+ tab +:+ "25000" +:+ tab +:+ "*".
Definition segment4 : string := "S" +:+ tab +:+ "s4" +:+ tab +:+ "18000" +:+ tab +:+ "*".
Definition gap_line2 : string :=
  "G" +:+ tab +:+ "*" +:+ tab +:+ "s2+" +:+ tab +:+ "s3+" +:+ tab +:+ "500" +:+ tab +:+ "*".
Definition gap_line3 : string :=
  "G" +:+ tab +:+ "*" +:+ tab +:+ "s3+" +:+ tab +:+ "s4+" +:+ tab +:+ "700" +:+ tab +:+ "*".

Definition graph_with_three_gaps : list string :=
  [header_line; segment1; segment2; segment3; segment4; gap_line; gap_line2; gap_line3].

Definition update_gfa (output : list string) (out : option (list string))
  : option (list string) :=
  (fun f => f ++ [hd EmptyString output])%list <$> out.

(** What [output_fields] gives for the reverse sequence graded AAA at k = 51. *)
Definition rev_entry : list string :=
  output_fields (mkSeqRecord "bkpt2_GapID.s1+_s2+_Gaplen.1000_sol_1/1" "Quality AAA" (dna 1200))
                500 51.

(** The insertions file of (41, 3) is not empty and is not FASTA; the
    others are empty. *)
Definition not_fasta_41_3 : World :=
  mkWorld (at_pair 41 3 (Some NotFasta) (Some EmptyFile)) [] (fun _ => false)
          (fun _ _ => Some ref_rows) (fun _ _ => Some qry_rows)
          output_fields (fun _ _ => []) (fun _ => []) None.

(** Both sequences at every pair, and no statistics file at all. *)
Definition no_stats : World :=
  mkWorld (fun _ _ => Some (Fasta [fwd_record; rev_record])) [] (fun _ => false)
          (fun _ _ => None) (fun _ _ => None)
          output_fields (fun _ _ => []) (fun _ => []) None.

End Sample.

(** * Vocabulary of the properties *)

(** The three grades of flank mode, as one string. *)
Definition composite (l r s : ascii) : string :=
  String l (String r (String s EmptyString)).

(** Grade A or B. *)
Definition is_AB (c : ascii) : bool :=
  Ascii.eqb c "A" || Ascii.eqb c "B".

(** Number of times a barcode is read in a region. *)
Definition occurrences (barcode : string) (observed : list string) : Z :=
  Z.of_nat (count_occ string_dec observed barcode).

(** [p] is tried before [q] in a descending sweep: a larger k, or the same
    k and a larger a. *)
Definition tried_before (p q : Z * Z) : Prop :=
  fst p > fst q \/ (fst p = fst q /\ snd p > snd q).

(** In the calls [t] made by a loop that ended with [c]: a call whose
    insertions file is missing is the last one, and the loop ended with the
    FileNotFoundError of line 293. *)
Definition stops_at_missing (w : World) (t : list (Z * Z)) (c : ctl) : Prop :=
  forall k a, In (k, a) t -> insertions w k a = None ->
    c = Raise FileNotFoundError /\ last t = Some (k, a).

(** The state after a pair whose sequences are scored. *)
Definition scored_state (k a : Z) (p : RefPath) (sols : list string)
    (outs : list (list string)) (st : Locals) : Locals :=
  set_output_for_gfa (Some outs)
    (set_solutions sols
       (set_prefix (Some (k, a)) (set_ref_file (Some p) (call_mtg_fill k a st)))).

(** The id of the record starts with a tag such as [bkpt1]: its first
    piece before an underscore is not empty. *)
Definition tagged (record : SeqRecord) : Prop :=
  strand_of (record_id record) <> None.

(** The external steps leave what the sweep reads: a reference that is a
    file, an insertions file for every pair, empty or in FASTA, and in the
    latter case tagged ids and the two statistics files. *)
Definition delivered (args : Args) (gap : GapInfo) (w : World) : Prop :=
  (exists p, locate_ref_file args gap w initial_locals = Some p /\ isfile w p = true) /\
  forall k a, In k (kmer args) -> In a (abundance_threshold args) ->
    insertions w k a = Some EmptyFile \/
    exists records,
      insertions w k a = Some (Fasta records) /\
      List.Forall tagged (map correct_record records) /\
      ref_qry_stats w k a <> None /\ qry_qry_stats w k a <> None.

(** The scheduler takes an entry with more than one field for a solution
    (line 587). *)
Definition solution_entry (output : list string) : Prop :=
  (1 < length output)%nat.

(** After the body of the loop over a. *)
Definition after_pair (a : Z) (st : Locals) (c : ctl) : Prop :=
  a_var st = Some a /\
  exists out,
    output_for_gfa st = Some out /\ List.Forall solution_entry out /\
    ((c = Normal /\ solution st = Some false) \/
     (c = Break /\ solution st = Some true /\ out <> [])).

(** After the loop over a. *)
Definition after_pairs (l : list Z) (st : Locals) (c : ctl) : Prop :=
  exists a out,
    a_var st = Some a /\ output_for_gfa st = Some out /\ List.Forall solution_entry out /\
    ((c = Normal /\ solution st = Some false /\ last l = Some a) \/
     (c = Break /\ solution st = Some true /\ out <> [])).

(** After the body of the loop over k. *)
Definition after_k (args : Args) (gap : GapInfo) (k : Z) (st : Locals) (c : ctl) : Prop :=
  exists out,
    output_for_gfa st = Some out /\
    ((c = Break /\ out <> [] /\ List.Forall solution_entry out) \/
     (c = Normal /\
      (List.Forall solution_entry out \/ out = [[current_gap gap]]) /\
      (list_min (kmer args) = Some k -> out <> []))).

(** What the world holds for one pair, as the body of the loop over a
    reads it: no insertions file, an empty one, one that is not FASTA,
    sequences without both statistics files, sequences whose scoring raises,
    or sequences scored. *)
Inductive pair_kind : Type :=
| NoFile
| NothingFound
| NotRead
| Unscored
| ScoreError (e : exn)
| Scored (sols : list string) (outs : list (list string)).

Definition classify (args : Args) (gap : GapInfo) (w : World) (k a : Z) : pair_kind :=
  match insertions w k a with
  | None => NoFile
  | Some EmptyFile => NothingFound
  | Some NotFasta => NotRead
  | Some (Fasta records) =>
      match ref_qry_stats w k a, qry_qry_stats w k a with
      | Some rr, Some qq =>
          match score_records args gap w k rr qq (map correct_record records) [] [] with
          | inl e => ScoreError e
          | inr (sols, outs) => Scored sols outs
          end
      | _, _ => Unscored
      end
  end.

(** The reference of the gap is found, and is a file. *)
Definition reference_ready (args : Args) (gap : GapInfo) (w : World) (p : RefPath) : Prop :=
  locate_ref_file args gap w initial_locals = Some p /\ isfile w p = true.

(** In the calls [t] of a loop that ended with [c] in state [st]: a call
    whose reverse sequence is good is the last one, the loop ended on its
    [break], and [output_for_gfa] holds the good sequences of that call. *)
Definition stops_at_good (args : Args) (gap : GapInfo) (w : World)
    (t : list (Z * Z)) (c : ctl) (st : Locals) : Prop :=
  forall k a sols outs,
    In (k, a) t -> classify args gap w k a = Scored sols outs ->
    str_in "True_2" sols = true ->
    c = Break /\ last t = Some (k, a) /\
    output_for_gfa st = Some outs /\ solution st = Some true.

(** The good sequences of a pair, as [get_output_for_gfa] lays them out. *)
Definition pair_entries (args : Args) (gap : GapInfo) (w : World) (k a : Z)
  : list (list string) :=
  match classify args gap w k a with
  | Scored _ outs => outs
  | _ => []
  end.

(** After the body of the loop over a for the pair (k, a), with what the
    pair left in [output_for_gfa]. *)
Definition after_pair_last (args : Args) (gap : GapInfo) (w : World) (k a : Z)
    (st : Locals) (c : ctl) : Prop :=
  last (trace st) = Some (k, a) /\ a_var st = Some a /\
  output_for_gfa st = Some (pair_entries args gap w k a) /\
  ((c = Normal /\ solution st = Some false) \/
   (c = Break /\ solution st = Some true /\ pair_entries args gap w k a <> [])).

(** The value returned is that of the pair (k, a): its good sequences, or
    the gap line when it has none and the fallback ran. *)
Definition value_of_pair (args : Args) (gap : GapInfo) (w : World) (k a : Z)
    (out : list (list string)) : Prop :=
  out = pair_entries args gap w k a \/
  (pair_entries args gap w k a = [] /\ out = [[current_gap gap]]).

(** Sequences are found at every pair, and one of the two statistics files
    is missing each time. *)
Definition never_scored (args : Args) (w : World) : Prop :=
  forall k a, In k (kmer args) -> In a (abundance_threshold args) ->
    exists records,
      records <> [] /\ insertions w k a = Some (Fasta records) /\
      (ref_qry_stats w k a = None \/ qry_qry_stats w k a = None).

(** What holds of the locals as long as [output_for_gfa] was never bound. *)
Definition nothing_bound (args : Args) (st : Locals) : Prop :=
  output_for_gfa st = None /\ solution st <> Some true /\
  (forall pk pa, prefix st = Some (pk, pa) ->
     In pk (kmer args) /\ In pa (abundance_threshold args)) /\
  (forall a, a_var st = Some a -> In a (abundance_threshold args)).

(** A loop body that ends normally or on an unbound name. *)
Definition quiet (c : ctl) : Prop :=
  c = Normal \/ c = Raise UnboundLocalError.

(** [a] is bound only to values of the list of abundance thresholds. *)
Definition a_from_list (args : Args) (st : Locals) : Prop :=
  forall a, a_var st = Some a -> In a (abundance_threshold args).

(** A loop body that ends on ValueError only where [SeqIO.parse] raised it:
    the insertions file of a pair of the two lists is not FASTA. *)
Definition ValueError_from_parse (args : Args) (w : World) (c : ctl) : Prop :=
  c = Raise ValueError ->
  exists k a,
    In k (kmer args) /\ In a (abundance_threshold args) /\
    insertions w k a = Some NotFasta.

(** A grade of one letter. *)
Definition one_letter (s : string) : Prop :=
  exists c, s = String c EmptyString.

(** Every Quality cell of the two statistics files is one letter. *)
Definition one_letter_grades (rr : list RefRow) (qq : list QryRow) : Prop :=
  (forall row, In row rr -> one_letter (ref_Quality row)) /\
  (forall row, In row qq -> one_letter (qry_Quality row)).

(** On one of the axes of its mode, no row of the statistics is selected
    for the sequence. *)
Definition axis_without_row (args : Args) (gap : GapInfo) (id : string)
    (rr : list RefRow) (qq : list QryRow) : Prop :=
  match refDir args with
  | Some _ => quality_ref id rr = [] \/ quality_revcomp id qq = []
  | None =>
      quality_ext_left gap id rr = [] \/ quality_ext_right gap id rr = [] \/
      quality_revcomp id qq = []
  end.

(** The strings a regular expression stands for. *)
Inductive matches : Re.regex -> string -> Prop :=
| MEps : matches Re.Eps EmptyString
| MChr (c : ascii) : matches (Re.Chr c) (String c EmptyString)
| MDot (c : ascii) : c <> Re.newline -> matches Re.Dot (String c EmptyString)
| MClass (c : ascii) (cs : list ascii) :
    In c cs -> matches (Re.Class cs) (String c EmptyString)
| MCat (r1 r2 : Re.regex) (s1 s2 : string) :
    matches r1 s1 -> matches r2 s2 -> matches (Re.Cat r1 r2) (s1 +:+ s2)
| MAltL (r1 r2 : Re.regex) (s : string) : matches r1 s -> matches (Re.Alt r1 r2) s
| MAltR (r1 r2 : Re.regex) (s : string) : matches r2 s -> matches (Re.Alt r1 r2) s
| MStar0 (r : Re.regex) : matches (Re.Star r) EmptyString
| MStarS (r : Re.regex) (s1 s2 : string) :
    matches r s1 -> matches (Re.Star r) s2 -> matches (Re.Star r) (s1 +:+ s2).

(** A string without a newline. *)
Definition one_line (s : string) : Prop :=
  ~ In Re.newline (list_ascii_of_string s).

(** The value of a task holds a solution (line 587). *)
Definition filled (output_for_gfa : list (list string)) : bool :=
  match output_for_gfa with
  | first :: _ => (1 <? length first)%nat
  | [] => false
  end.

(** A file name is bound only together with [success]. *)
Definition file_with_success (fl : Flags) : Prop :=
  gapfill_file fl <> None -> success fl <> None.

(** * Properties *)

(** ** Tactics *)

Ltac ascii_cases :=
  repeat match goal with
  | |- context [Ascii.eqb ?x ?y] => destruct (Ascii.eqb_spec x y); subst; cbn
  end.

Ltac break_match :=
  match goal with
  | |- context [match ?x with _ => _ end] => destruct x eqn:?
  end.

(** ** Sample runs *)

Example split_id :
  PyStr.split "_" "bkpt1_GapID.1_sol_1/1" = ["bkpt1"; "GapID.1"; "sol"; "1/1"].
Proof. reflexivity. Qed.

Example corrected_id :
  record_id (correct_record Sample.fwd_record) = "bkpt1_GapID.s1+_s2+_Gaplen.1000_sol_1/1" /\
  strand_of (record_id (correct_record Sample.rev_record)) = Some "2"%char.
Proof. split; reflexivity. Qed.

(** The truth table of reference mode: AA, AB, BA, BB are kept, AC and CD
    are not. *)
Example reference_mode_table :
  map (fun q => accepted_ref 500 1200 ("Quality " +:+ q)) ["AA"; "AB"; "BA"; "BB"; "AC"; "CD"]
  = [true; true; true; true; false; false].
Proof. reflexivity. Qed.

(** A sequence no longer than twice the extension is not kept. *)
Example short_sequence : accepted_flank 500 1000 "Quality AAA" = false.
Proof. reflexivity. Qed.

(** One gap, [-k 51 41], [-a 3 2], nothing found for k = 51 and both
    strands found and graded AAA at (41, 3): the sweep stops after (41, 3)
    and returns the two sequences, not the gap line. *)
Example both_strands_at_41_3 :
  let r := sweep (Sample.with_lists [51; 41] [3; 2] Sample.args) Sample.gap
                 Sample.both_at_41_3 in
  trace (fst r) = [(51, 3); (51, 2); (41, 3)] /\
  solutions (fst r) = ["True_1"; "True_2"] /\
  exists fwd rev, snd r = Returned [fwd :: "Quality AAA" :: [Sample.dna 1200];
                                    rev :: "Quality AAA" :: [Sample.dna 1200]].
Proof. vm_compute. repeat split. do 2 eexists. reflexivity. Qed.

(** With [--force] the loop over a is still left at the first pair where the
    reverse sequence is good; the sweep goes on with the next k, and what
    was found is gone by the end. *)
Example forced_sweep :
  let r := sweep (Sample.with_force Sample.args) Sample.gap Sample.rev_only in
  trace (fst r) = [(51, 3); (41, 3); (41, 2); (31, 3); (31, 2); (21, 3); (21, 2)] /\
  snd r = Returned [[Sample.gap_line]].
Proof. vm_compute. split; reflexivity. Qed.

(** ** The verdict in flank mode *)

Lemma match_quality_A_AB2 (l r s : ascii) :
  Re.match_dollar Re.quality_A_AB2 ("Quality " +:+ composite l r s) =
  Ascii.eqb l "A" && is_AB r && is_AB s.
Proof.
  unfold Re.match_dollar, Re.quality_A_AB2, Re.AB, composite, is_AB.
  cbv [String.append]. cbn. ascii_cases; reflexivity || congruence.
Qed.

Lemma match_quality_BA_AB (l r s : ascii) :
  Re.match_dollar Re.quality_BA_AB ("Quality " +:+ composite l r s) =
  Ascii.eqb l "B" && Ascii.eqb r "A" && is_AB s.
Proof.
  unfold Re.match_dollar, Re.quality_BA_AB, Re.AB, composite, is_AB.
  cbv [String.append]. cbn. ascii_cases; reflexivity || congruence.
Qed.

Lemma is_AB_true (c : ascii) : is_AB c = true <-> c = "A"%char \/ c = "B"%char.
Proof.
  unfold is_AB. rewrite orb_true_iff, !Ascii.eqb_eq. reflexivity.
Qed.

Lemma accepted_flank_spec (ext len_seq : Z) (l r s : ascii) :
  accepted_flank ext len_seq ("Quality " +:+ composite l r s) = true <->
  2 * ext < len_seq /\
  ((l = "A"%char /\ (r = "A"%char \/ r = "B"%char) /\ (s = "A"%char \/ s = "B"%char)) \/
   (l = "B"%char /\ r = "A"%char /\ (s = "A"%char \/ s = "B"%char))).
Proof.
  unfold accepted_flank.
  rewrite match_quality_A_AB2, match_quality_BA_AB.
  rewrite andb_true_iff, orb_true_iff, !andb_true_iff, Z.ltb_lt.
  rewrite !is_AB_true, !Ascii.eqb_eq. tauto.
Qed.

(** C3. In flank mode (no [refDir]) a gap-filled sequence is a good
    solution if and only if it is longer than twice the extension and its
    three grades (left flank, right flank, reverse complement) are A, then
    A or B, then A or B, or else B, then A, then A or B. So AAA, ABA, BAA
    and BAB are kept, BBA and ACA are not. *)
Theorem flank_mode_acceptance (args : Args) (seq : string) (l r s : ascii) :
  refDir args = None ->
  (good_solution args seq ("Quality " +:+ composite l r s) = true <->
   2 * extension args < len seq /\
   ((l = "A"%char /\ (r = "A"%char \/ r = "B"%char) /\ (s = "A"%char \/ s = "B"%char)) \/
    (l = "B"%char /\ r = "A"%char /\ (s = "A"%char \/ s = "B"%char)))) /\
  (2 * extension args < len seq ->
   good_solution args seq "Quality AAA" = true /\
   good_solution args seq "Quality ABA" = true /\
   good_solution args seq "Quality BAA" = true /\
   good_solution args seq "Quality BAB" = true /\
   good_solution args seq "Quality BBA" = false /\
   good_solution args seq "Quality ACA" = false).
Proof.
  intros Hmode. unfold good_solution. rewrite Hmode. split.
  - apply accepted_flank_spec.
  - intros Hlen. apply Z.ltb_lt in Hlen. unfold accepted_flank. rewrite Hlen.
    repeat split; reflexivity.
Qed.

Lemma flank_mode_acceptance_witness :
  refDir Sample.args = None /\
  (good_solution Sample.args (Sample.dna 1200) ("Quality " +:+ composite "A" "B" "A") = true <->
   2 * extension Sample.args < len (Sample.dna 1200) /\
   (("A"%char = "A"%char /\ ("B"%char = "A"%char \/ "B"%char = "B"%char) /\
     ("A"%char = "A"%char \/ "A"%char = "B"%char)) \/
    ("A"%char = "B"%char /\ "B"%char = "A"%char /\
     ("A"%char = "A"%char \/ "A"%char = "B"%char)))).
Proof.
  split; [reflexivity |].
  apply (proj1 (flank_mode_acceptance Sample.args (Sample.dna 1200) "A" "B" "A" eq_refl)).
Defined.

(** ** The union of the barcodes *)

Lemma occurrences_cons (b x : string) (l : list string) :
  occurrences b (x :: l) = (if decide (x = b) then 1 else 0) + occurrences b l.
Proof.
  unfold occurrences. cbn [count_occ].
  destruct (string_dec x b); destruct (decide (x = b)); try congruence; lia.
Qed.

Lemma occurrences_pos (b : string) (l : list string) :
  In b l <-> 0 < occurrences b l.
Proof.
  unfold occurrences. rewrite (count_occ_In string_dec). lia.
Qed.

Lemma extract_barcodes_lookup (observed : list string) :
  forall (occ : gmap string Z) (b : string),
    extract_barcodes observed occ !! b =
    if decide (0 < occurrences b observed)
    then Some (default 0 (occ !! b) + occurrences b observed)
    else occ !! b.
Proof.
  induction observed as [|x l IH]; intros occ b.
  - cbn. destruct (decide (0 < occurrences b [])) as [H|H]; [|reflexivity].
    unfold occurrences in H. cbn in H. lia.
  - change (extract_barcodes (x :: l) occ)
      with (extract_barcodes l (<[x := default 0 (occ !! x) + 1]> occ)).
    rewrite IH, occurrences_cons.
    assert (Hnn : 0 <= occurrences b l) by (unfold occurrences; lia).
    destruct (decide (x = b)) as [->|Hne].
    + rewrite lookup_insert_eq. cbn [default from_option]. unfold id.
      destruct (decide (0 < occurrences b l)); destruct (decide (0 < 1 + occurrences b l));
        try lia; f_equal; lia.
    + rewrite lookup_insert_ne by assumption.
      destruct (decide (0 < occurrences b l)); destruct (decide (0 < 0 + occurrences b l));
        try lia; reflexivity.
Qed.

Lemma filter_by_freq_In (freq : Z) (occ : gmap string Z) (b : string) :
  In b (filter_by_freq freq occ) <-> exists n, occ !! b = Some n /\ freq <= n.
Proof.
  unfold filter_by_freq. rewrite in_map_iff. split.
  - intros [[b' n] [Hb Hin]]. cbn in Hb. subst b'.
    apply filter_In in Hin. destruct Hin as [Hin Hle]. cbn in Hle.
    exists n. split; [|lia].
    apply elem_of_map_to_list. apply list_elem_of_In. exact Hin.
  - intros [n [Hn Hle]]. exists (b, n). split; [reflexivity|].
    apply filter_In. split.
    + apply list_elem_of_In. apply elem_of_map_to_list. exact Hn.
    + cbn. lia.
Qed.

(** C9. A barcode read in the left or in the right region is written to
    the union file if and only if the number of times it was read, the two
    regions together, reaches the frequency threshold. *)
Theorem union_barcodes_by_freq (args : Args) (gap : GapInfo) (w : World) (b : string) :
  let left_region := barcodes_in w (left_name gap) (chunk_L args gap) in
  let right_region := barcodes_in w (right_name gap) (chunk_R args gap) in
  In b left_region \/ In b right_region ->
  (In b (union_barcodes args gap w) <->
   freq args <= occurrences b left_region + occurrences b right_region).
Proof.
  intros left_region right_region Hobs.
  unfold union_barcodes. rewrite filter_by_freq_In.
  unfold barcodes_occ. fold left_region right_region.
  rewrite !extract_barcodes_lookup, lookup_empty.
  assert (Hl : 0 <= occurrences b left_region) by (unfold occurrences; lia).
  assert (Hr : 0 <= occurrences b right_region) by (unfold occurrences; lia).
  rewrite !occurrences_pos in Hobs.
  destruct (decide (0 < occurrences b right_region)) as [Hr'|Hr'];
    destruct (decide (0 < occurrences b left_region)) as [Hl'|Hl'];
    cbn [default from_option]; unfold id.
  - split; [intros [n [[= <-] Hle]]; lia | intros H; eexists; split; [reflexivity | lia]].
  - split; [intros [n [[= <-] Hle]]; lia | intros H; eexists; split; [reflexivity | lia]].
  - split; [intros [n [[= <-] Hle]]; lia | intros H; eexists; split; [reflexivity | lia]].
  - lia.
Qed.

Lemma union_barcodes_by_freq_witness :
  In "BX1" (union_barcodes Sample.args Sample.gap Sample.barcoded) /\
  ~ In "BX2" (union_barcodes Sample.args Sample.gap Sample.barcoded).
Proof.
  assert (Hobs1 : In "BX1" (barcodes_in Sample.barcoded (left_name Sample.gap)
                              (chunk_L Sample.args Sample.gap)))
    by (vm_compute; left; reflexivity).
  assert (Hobs2 : In "BX2" (barcodes_in Sample.barcoded (left_name Sample.gap)
                              (chunk_L Sample.args Sample.gap)))
    by (vm_compute; right; left; reflexivity).
  split.
  - refine (proj2 (union_barcodes_by_freq Sample.args Sample.gap Sample.barcoded "BX1"
                     (or_introl Hobs1)) _).
    vm_compute. intros H. discriminate H.
  - intros Hin.
    pose proof (proj1 (union_barcodes_by_freq Sample.args Sample.gap Sample.barcoded "BX2"
                         (or_introl Hobs2)) Hin) as Hle.
    vm_compute in Hle. apply Hle. reflexivity.
Defined.

(** ** The number of reads of the summary *)

(** C10. [Nb_reads] is the number of lines of the union reads file divided
    by 4 without rounding: once line 230 has read the file, the summary is
    there, and when the number of lines is not a multiple of 4, four times
    [Nb_reads] is still the number of lines and [Nb_reads] is not an
    integer. *)
Theorem nb_reads_not_integral (args : Args) (gap : GapInfo) (w : World)
    (reads : list string) :
  union_reads args gap w = Some reads ->
  let lines := Z.of_nat (length reads) in
  lines mod 4 <> 0 ->
  exists summary,
    union_summary args gap w = Some summary /\
    (Nb_reads summary * 4 == inject_Z lines)%Q /\
    forall z : Z, ~ (Nb_reads summary == inject_Z z)%Q.
Proof.
  intros Hreads lines Hmod. unfold union_summary. rewrite Hreads.
  eexists. split; [reflexivity |]. cbn [Nb_reads]. unfold nb_reads. fold lines.
  clearbody lines. split.
  - unfold Qeq, Qmult, inject_Z. cbn [Qnum Qden]. lia.
  - intros z Heq. unfold Qeq, inject_Z in Heq. cbn [Qnum Qden] in Heq.
    apply Hmod. replace lines with (z * 4) by lia. apply Z_mod_mult.
Qed.

Lemma nb_reads_not_integral_witness :
  exists summary,
    union_summary Sample.args Sample.gap Sample.barcoded = Some summary /\
    (Nb_reads summary * 4 == inject_Z 6)%Q /\
    forall z : Z, ~ (Nb_reads summary == inject_Z z)%Q.
Proof.
  assert (Hreads : union_reads Sample.args Sample.gap Sample.barcoded
                   = Some ["BX1"; "ACGT"; "+"; "FFFF"; "BX1"; "TTGA"])
    by (vm_compute; reflexivity).
  assert (Hmod : 6 mod 4 <> 0) by (vm_compute; discriminate).
  exact (nb_reads_not_integral Sample.args Sample.gap Sample.barcoded _ Hreads Hmod).
Defined.

(** ** The stop test of the sweep *)

(** The test of line 488 reads ["True_1" and "True_2" in solutions]: the
    string on the left is not empty, so the test is ["True_2" in solutions]. *)
Lemma stop_test_is_reverse_only (sols : list string) :
  str_and "True_1" (str_in "True_2" sols) = str_in "True_2" sols.
Proof. reflexivity. Qed.

(** C1, on the sample gap where MindTheGap finds the reverse sequence alone
    at (51, 3), [--force] unset: the reverse sequence is a good solution,
    no forward one exists, and yet the sweep stops there; (51, 2) and the
    smaller k are never tried, and the value returned holds that one
    sequence. *)
Theorem sweep_stops_on_reverse_alone :
  let r := sweep Sample.args Sample.gap Sample.rev_only in
  force Sample.args = false /\
  solutions (fst r) = ["True_2"] /\
  str_in "True_1" (solutions (fst r)) = false /\
  trace (fst r) = [(51, 3)] /\
  exists out, snd r = Returned [out].
Proof.
  vm_compute. repeat split. eexists. reflexivity.
Qed.

(** ** A graph without gap *)

(** C4, on the sample graph without gap (a header, two segments, an edge)
    and without [-line]: no task is handed to the pool, and the output graph
    is the header and the two segments; the edge of the input is not in it. *)
Theorem graph_without_gap_loses_edge :
  let r := main Sample.args Sample.graph_without_gap
                (fun _ => Sample.gap) (fun _ => Sample.nothing) Sample.update_gfa None in
  gaps_of Sample.graph_without_gap = [] /\
  In Sample.edge Sample.graph_without_gap /\
  dispatched r = [] /\
  run_result r = Done (Some [header_line; Sample.segment1; Sample.segment2]) [] /\
  ~ In Sample.edge [header_line; Sample.segment1; Sample.segment2].
Proof.
  vm_compute. repeat split.
  - right. right. right. left. reflexivity.
  - intros [H | [H | [H | []]]]; discriminate H.
Qed.

(** ** A reference directory without a file for the gap *)

(** C8, on the sample gap with a reference directory in which no name
    contains the gap label: at the first pair where MindTheGap finds
    sequences, [ref_file] is read unbound at line 315; the sweep ends there
    with UnboundLocalError and the run with [sys.exit(1)]. The flanking
    contigs are not used. *)
Theorem missing_reference_aborts :
  let args := Sample.with_refDir "refs" Sample.args in
  let r := sweep args Sample.gap Sample.no_reference in
  locate_ref_file args Sample.gap Sample.no_reference initial_locals = None /\
  trace (fst r) = [(51, 3)] /\
  snd r = Raised UnboundLocalError /\
  run_result (main args Sample.graph_with_gap (fun _ => Sample.gap)
                   (fun _ => Sample.no_reference) Sample.update_gfa None)
  = Exit1 UnboundLocalError.
Proof.
  vm_compute. repeat split.
Qed.

(** ** The calls of MindTheGap, in order *)

Lemma sublist_map {A B : Type} (f : A -> B) (l1 l2 : list A) :
  l1 `sublist_of` l2 -> map f l1 `sublist_of` map f l2.
Proof. induction 1; cbn; constructor; assumption. Qed.

Section SweepFacts.

Variable args : Args.
Variable gap : GapInfo.
Variable w : World.

Lemma pair_step_trace (k a : Z) (st : Locals) :
  trace (fst (pair_step args gap w k a st)) = (trace st ++ [(k, a)])%list.
Proof.
  unfold pair_step. repeat break_match; reflexivity.
Qed.

Lemma pair_step_missing (k a : Z) (st : Locals) :
  insertions w k a = None ->
  pair_step args gap w k a st = (call_mtg_fill k a st, Raise FileNotFoundError).
Proof.
  intros H. unfold pair_step. rewrite H. reflexivity.
Qed.

Lemma pair_step_empty (k a : Z) (st : Locals) :
  insertions w k a = Some EmptyFile ->
  pair_step args gap w k a st =
  (set_solution (Some false) (set_output_for_gfa (Some []) (call_mtg_fill k a st)), Normal).
Proof.
  intros H. unfold pair_step. rewrite H. reflexivity.
Qed.

Lemma after_a_loop_trace (k : Z) (st : Locals) :
  trace (fst (after_a_loop args gap k st)) = trace st.
Proof.
  unfold after_a_loop. repeat break_match; reflexivity.
Qed.

(** The pairs of one k are tried in the order of the list of a. *)
Lemma a_loop_visits (k : Z) (l : list Z) :
  forall st, exists t,
    trace (fst (a_loop args gap w k l st)) = (trace st ++ map (pair k) t)%list /\
    t `sublist_of` l.
Proof.
  induction l as [|a l IH]; intros st.
  - exists []. cbn. rewrite app_nil_r. split; [reflexivity | constructor].
  - cbn [a_loop]. pose proof (pair_step_trace k a st) as Ht.
    destruct (pair_step args gap w k a st) as [st1 c]. cbn [fst] in Ht.
    destruct c.
    + destruct (IH st1) as [t [Heq Hsub]]. exists (a :: t). split.
      * rewrite Heq, Ht, <- app_assoc. reflexivity.
      * constructor. exact Hsub.
    + exists [a]. split; [exact Ht |]. constructor. apply sublist_nil_l.
    + exists [a]. split; [exact Ht |]. constructor. apply sublist_nil_l.
Qed.

Lemma k_step_visits (k : Z) (st : Locals) :
  exists t,
    trace (fst (k_step args gap w k st)) = (trace st ++ map (pair k) t)%list /\
    t `sublist_of` abundance_threshold args.
Proof.
  unfold k_step.
  destruct (a_loop_visits k (abundance_threshold args) st) as [t [Heq Hsub]].
  exists t. split; [| exact Hsub].
  destruct (a_loop args gap w k (abundance_threshold args) st) as [st1 c].
  cbn [fst] in Heq. destruct c; cbn [fst]; try rewrite after_a_loop_trace; exact Heq.
Qed.

Lemma k_loop_visits (l : list Z) :
  forall st, exists t,
    trace (fst (k_loop args gap w l st)) = (trace st ++ t)%list /\
    t `sublist_of` list_prod l (abundance_threshold args).
Proof.
  induction l as [|k l IH]; intros st.
  - exists []. cbn. rewrite app_nil_r. split; [reflexivity | constructor].
  - cbn [k_loop list_prod].
    destruct (k_step_visits k st) as [t1 [Heq1 Hsub1]].
    destruct (k_step args gap w k st) as [st1 c]. cbn [fst] in Heq1.
    assert (Hmap : map (pair k) t1 `sublist_of` map (pair k) (abundance_threshold args))
      by (apply sublist_map; exact Hsub1).
    destruct c.
    + destruct (IH st1) as [t2 [Heq2 Hsub2]].
      exists (map (pair k) t1 ++ t2)%list. split.
      * rewrite Heq2, Heq1, <- app_assoc. reflexivity.
      * apply sublist_app; assumption.
    + exists (map (pair k) t1). split; [exact Heq1 |].
      apply sublist_inserts_r. exact Hmap.
    + exists (map (pair k) t1). split; [exact Heq1 |].
      apply sublist_inserts_r. exact Hmap.
Qed.

Lemma sweep_trace :
  trace (fst (sweep args gap w)) = trace (fst (k_loop args gap w (kmer args) initial_locals)).
Proof.
  unfold sweep. repeat break_match; reflexivity.
Qed.

Lemma sweep_visits :
  trace (fst (sweep args gap w)) `sublist_of` list_prod (kmer args) (abundance_threshold args).
Proof.
  rewrite sweep_trace.
  destruct (k_loop_visits (kmer args) initial_locals) as [t [Heq Hsub]].
  rewrite Heq. exact Hsub.
Qed.

End SweepFacts.

Lemma StronglySorted_sublist {A : Type} (R : A -> A -> Prop) (l1 l2 : list A) :
  l1 `sublist_of` l2 -> StronglySorted R l2 -> StronglySorted R l1.
Proof.
  induction 1 as [|x l1 l2 Hsub IH|x l1 l2 Hsub IH]; intros Hs.
  - constructor.
  - apply StronglySorted_inv in Hs. destruct Hs as [Hs Hall]. constructor.
    + apply IH. exact Hs.
    + rewrite List.Forall_forall in *. intros y Hy. apply Hall.
      apply list_elem_of_In. eapply elem_of_sublist; [| exact Hsub].
      apply list_elem_of_In. exact Hy.
  - apply StronglySorted_inv in Hs. apply IH. apply Hs.
Qed.

Lemma StronglySorted_NoDup {A : Type} (R : A -> A -> Prop) (l : list A) :
  (forall x, ~ R x x) -> StronglySorted R l -> List.NoDup l.
Proof.
  intros Hirr. induction 1 as [|x l Hs IH Hall]; constructor.
  - intros Hin. rewrite List.Forall_forall in Hall. exact (Hirr x (Hall x Hin)).
  - exact IH.
Qed.

Lemma pairs_of_k_descending (k : Z) (l : list Z) :
  StronglySorted Z.gt l -> StronglySorted tried_before (map (pair k) l).
Proof.
  induction 1 as [|a l Hs IH Hall]; cbn; constructor.
  - exact IH.
  - rewrite List.Forall_forall in *. intros q Hq.
    apply in_map_iff in Hq. destruct Hq as [a' [<- Ha']].
    right. cbn. split; [reflexivity | apply Hall; exact Ha'].
Qed.

Lemma list_prod_descending (ks l : list Z) :
  StronglySorted Z.gt ks -> StronglySorted Z.gt l ->
  StronglySorted tried_before (list_prod ks l).
Proof.
  intros Hks Hl. induction Hks as [|k ks Hs IH Hall]; cbn [list_prod].
  - constructor.
  - apply StronglySorted_app_2.
    + intros p q Hp Hq. apply list_elem_of_In in Hp, Hq.
      apply in_map_iff in Hp. destruct Hp as [a [<- _]].
      destruct q as [k' a']. apply in_prod_iff in Hq. destruct Hq as [Hk' _].
      left. cbn. rewrite List.Forall_forall in Hall. apply Hall. exact Hk'.
    + apply pairs_of_k_descending. exact Hl.
    + exact IH.
Qed.

Lemma tried_before_irrefl (p : Z * Z) : ~ tried_before p p.
Proof. unfold tried_before. lia. Qed.

Lemma Zgt_transitive : Relations_1.Transitive Z.gt.
Proof. intros x y z. lia. Qed.

(** C6, as the code has it. The pairs are tried in the order of the two
    lists as they were given, k first. When both lists are strictly
    descending, as the defaults are, every pair tried has a larger k than
    the pairs tried after it, or the same k and a larger a, and no pair is
    tried twice. *)
Theorem sweep_descending (args : Args) (gap : GapInfo) (w : World) :
  Sorted Z.gt (kmer args) ->
  Sorted Z.gt (abundance_threshold args) ->
  trace (fst (sweep args gap w))
    `sublist_of` list_prod (kmer args) (abundance_threshold args) /\
  StronglySorted tried_before (trace (fst (sweep args gap w))) /\
  List.NoDup (trace (fst (sweep args gap w))).
Proof.
  intros Hk Ha.
  apply (Sorted.Sorted_StronglySorted Zgt_transitive) in Hk, Ha.
  pose proof (sweep_visits args gap w) as Hsub.
  assert (Hs : StronglySorted tried_before (trace (fst (sweep args gap w)))).
  { eapply StronglySorted_sublist; [exact Hsub |].
    apply list_prod_descending; assumption. }
  split; [exact Hsub |]. split; [exact Hs |].
  eapply StronglySorted_NoDup; [exact tried_before_irrefl | exact Hs].
Qed.

Lemma sweep_descending_witness :
  StronglySorted tried_before (trace (fst (sweep Sample.args Sample.gap Sample.fwd_only))).
Proof.
  apply (sweep_descending Sample.args Sample.gap Sample.fwd_only).
  - repeat constructor.
  - repeat constructor.
Defined.

(** Counterexample to C6 as stated: with [-k 21 51] the pairs of k = 21
    are tried before those of k = 51, and with [-k 31 31] every pair is
    tried twice. *)
Lemma sweep_order_follows_the_lists :
  let ascending := sweep (Sample.with_lists [21; 51] [3; 2] Sample.args)
                         Sample.gap Sample.nothing in
  let repeated := sweep (Sample.with_lists [31; 31] [3; 2] Sample.args)
                        Sample.gap Sample.nothing in
  trace (fst ascending) = [(21, 3); (21, 2); (51, 3); (51, 2)] /\
  ~ StronglySorted tried_before (trace (fst ascending)) /\
  trace (fst repeated) = [(31, 3); (31, 2); (31, 3); (31, 2)] /\
  ~ List.NoDup (trace (fst repeated)).
Proof.
  cbv zeta.
  assert (H1 : trace (fst (sweep (Sample.with_lists [21; 51] [3; 2] Sample.args)
                                  Sample.gap Sample.nothing))
               = [(21, 3); (21, 2); (51, 3); (51, 2)]) by (vm_compute; reflexivity).
  assert (H2 : trace (fst (sweep (Sample.with_lists [31; 31] [3; 2] Sample.args)
                                  Sample.gap Sample.nothing))
               = [(31, 3); (31, 2); (31, 3); (31, 2)]) by (vm_compute; reflexivity).
  rewrite H1, H2. repeat split.
  - intros Hs. apply StronglySorted_inv in Hs. destruct Hs as [_ Hall].
    rewrite List.Forall_forall in Hall.
    specialize (Hall (51, 3)). unfold tried_before in Hall. cbn in Hall.
    assert (Hin : (21, 2) = (51, 3) \/ (51, 3) = (51, 3) \/ (51, 2) = (51, 3) \/ False)
      by (right; left; reflexivity).
    specialize (Hall Hin). lia.
  - intros Hnd. apply List.NoDup_cons_iff in Hnd. destruct Hnd as [Hnin _].
    apply Hnin. right. left. reflexivity.
Qed.

(** ** A missing insertions file *)

Section Missing.

Variable args : Args.
Variable gap : GapInfo.
Variable w : World.

Lemma stops_at_missing_not_raised (t : list (Z * Z)) (c c' : ctl) :
  stops_at_missing w t c -> (forall e, c <> Raise e) -> stops_at_missing w t c'.
Proof.
  intros Hstop Hc k a Hin Hnone.
  destruct (Hstop k a Hin Hnone) as [Heq _]. destruct (Hc _ Heq).
Qed.

Lemma stops_at_missing_app (t1 t2 : list (Z * Z)) (c1 c : ctl) :
  stops_at_missing w t1 c1 -> (forall e, c1 <> Raise e) ->
  stops_at_missing w t2 c -> stops_at_missing w (t1 ++ t2) c.
Proof.
  intros H1 Hc1 H2 k a Hin Hnone. apply in_app_or in Hin. destruct Hin as [Hin | Hin].
  - destruct (H1 k a Hin Hnone) as [Heq _]. destruct (Hc1 _ Heq).
  - destruct (H2 k a Hin Hnone) as [Heq Hlast]. split; [exact Heq |].
    rewrite last_app, Hlast. reflexivity.
Qed.

Lemma pair_step_stops (k a : Z) (st : Locals) :
  stops_at_missing w [(k, a)] (snd (pair_step args gap w k a st)).
Proof.
  intros k' a' [Hp | []] Hnone. injection Hp as <- <-.
  rewrite (pair_step_missing args gap w k a st Hnone). split; reflexivity.
Qed.

Lemma a_loop_missing (k : Z) (l : list Z) :
  forall st, exists t,
    trace (fst (a_loop args gap w k l st)) = (trace st ++ t)%list /\
    stops_at_missing w t (snd (a_loop args gap w k l st)).
Proof.
  induction l as [|a l IH]; intros st.
  - exists []. split; [cbn; rewrite app_nil_r; reflexivity |]. intros k' a' [].
  - cbn [a_loop]. pose proof (pair_step_trace args gap w k a st) as Ht.
    pose proof (pair_step_stops k a st) as Hs.
    destruct (pair_step args gap w k a st) as [st1 c]. cbn [fst snd] in Ht, Hs.
    destruct c.
    + destruct (IH st1) as [t [Heq Hstop]]. exists ([(k, a)] ++ t)%list. split.
      * rewrite Heq, Ht, <- app_assoc. reflexivity.
      * eapply stops_at_missing_app; [exact Hs | discriminate | exact Hstop].
    + exists [(k, a)]. split; [exact Ht | exact Hs].
    + exists [(k, a)]. split; [exact Ht | exact Hs].
Qed.

Lemma k_step_missing (k : Z) (st : Locals) :
  exists t,
    trace (fst (k_step args gap w k st)) = (trace st ++ t)%list /\
    stops_at_missing w t (snd (k_step args gap w k st)).
Proof.
  unfold k_step.
  destruct (a_loop_missing k (abundance_threshold args) st) as [t [Heq Hstop]].
  exists t.
  destruct (a_loop args gap w k (abundance_threshold args) st) as [st1 c].
  cbn [fst snd] in Heq, Hstop.
  destruct c; cbn [fst snd]; try rewrite after_a_loop_trace; split; try exact Heq;
    try exact Hstop; eapply stops_at_missing_not_raised; try exact Hstop; discriminate.
Qed.

Lemma k_loop_missing (l : list Z) :
  forall st, exists t,
    trace (fst (k_loop args gap w l st)) = (trace st ++ t)%list /\
    stops_at_missing w t (snd (k_loop args gap w l st)).
Proof.
  induction l as [|k l IH]; intros st.
  - exists []. split; [cbn; rewrite app_nil_r; reflexivity |]. intros k' a' [].
  - cbn [k_loop]. destruct (k_step_missing k st) as [t1 [Heq1 Hs1]].
    destruct (k_step args gap w k st) as [st1 c]. cbn [fst snd] in Heq1, Hs1.
    destruct c.
    + destruct (IH st1) as [t2 [Heq2 Hs2]]. exists (t1 ++ t2)%list. split.
      * rewrite Heq2, Heq1, <- app_assoc. reflexivity.
      * eapply stops_at_missing_app; [exact Hs1 | discriminate | exact Hs2].
    + exists t1. split; [exact Heq1 | exact Hs1].
    + exists t1. split; [exact Heq1 | exact Hs1].
Qed.

Lemma gapfilling_missing (k a : Z) :
  In (k, a) (fst (gapfilling args gap w)) ->
  insertions w k a = None ->
  snd (gapfilling args gap w) = inl FileNotFoundError /\
  last (fst (gapfilling args gap w)) = Some (k, a).
Proof.
  unfold gapfilling, sweep.
  destruct (union_summary args gap w) as [summary |]; [| intros []].
  destruct (k_loop_missing (kmer args) initial_locals) as [t [Heq Hstop]].
  destruct (k_loop args gap w (kmer args) initial_locals) as [st c].
  cbn [fst snd trace initial_locals app] in Heq, Hstop.
  intros Hin Hnone.
  assert (Hin' : In (k, a) t).
  { rewrite <- Heq. destruct c; [destruct (output_for_gfa st) | destruct (output_for_gfa st) |];
      exact Hin. }
  destruct (Hstop k a Hin' Hnone) as [-> Hlast]. cbn [fst snd].
  rewrite Heq. split; [reflexivity | exact Hlast].
Qed.

End Missing.

Lemma first_raised_In (results : list (exn + (UnionSummary * list (list string)))) (e : exn) :
  In (inl e) results -> exists e', first_raised results = Some e'.
Proof.
  induction results as [|r results IH]; intros Hin; [destruct Hin |].
  destruct r as [e0 | v].
  - exists e0. reflexivity.
  - destruct Hin as [Hin | Hin]; [discriminate Hin |].
    destruct (IH Hin) as [e' He']. exists e'. exact He'.
Qed.

(** C5, as the code has it. When the insertions file of a pair tried for a
    gap is missing, [os.path.getsize] raises at line 293 and nothing in
    [gapfilling] catches it: that pair is the last one tried for the gap,
    the task ends with FileNotFoundError instead of a value, and the run
    ends in the handler of line 606 with [sys.exit(1)]. *)
Theorem missing_insertions_abort (args : Args) (gfa : list string)
    (gap_info : string -> GapInfo) (world : string -> World)
    (update_gfa_with_solution : list string -> option (list string) -> option (list string))
    (out_gfa_before : option (list string)) (g : string) (k a : Z) :
  In g (gaps args gfa) ->
  In (k, a) (fst (gapfilling args (gap_info g) (world g))) ->
  insertions (world g) k a = None ->
  snd (gapfilling args (gap_info g) (world g)) = inl FileNotFoundError /\
  last (fst (gapfilling args (gap_info g) (world g))) = Some (k, a) /\
  exists e, run_result (main args gfa gap_info world update_gfa_with_solution
                             out_gfa_before) = Exit1 e.
Proof.
  intros Hg Hin Hnone.
  destruct (gapfilling_missing args (gap_info g) (world g) k a Hin Hnone) as [Hraise Hlast].
  split; [exact Hraise |]. split; [exact Hlast |].
  unfold main. cbn [run_result].
  destruct (first_raised_In
              (map (fun g0 => snd (gapfilling args (gap_info g0) (world g0))) (gaps args gfa))
              FileNotFoundError) as [e' He'].
  - apply in_map_iff. exists g. split; [exact Hraise | exact Hg].
  - rewrite He'. exists e'. reflexivity.
Qed.

Lemma missing_insertions_abort_witness :
  snd (gapfilling Sample.args Sample.gap Sample.missing_51_3) = inl FileNotFoundError /\
  last (fst (gapfilling Sample.args Sample.gap Sample.missing_51_3)) = Some (51, 3) /\
  exists e, run_result (main Sample.args Sample.graph_with_gap (fun _ => Sample.gap)
                             (fun _ => Sample.missing_51_3) Sample.update_gfa None)
            = Exit1 e.
Proof.
  apply (missing_insertions_abort Sample.args Sample.graph_with_gap (fun _ => Sample.gap)
           (fun _ => Sample.missing_51_3) Sample.update_gfa None Sample.gap_line 51 3).
  - vm_compute. left. reflexivity.
  - vm_compute. left. reflexivity.
  - reflexivity.
Defined.

(** Counterexample to C5 as stated: on the sample gap, with the insertions file
    of (51, 3) missing, no other pair is tried and the run exits with code
    1; with that file present and empty, the eight pairs are tried and the
    gap line is returned. *)
Lemma missing_insertions_is_not_zero_candidates :
  let missing := gapfilling Sample.args Sample.gap Sample.missing_51_3 in
  let empty := gapfilling Sample.args Sample.gap Sample.nothing in
  insertions Sample.missing_51_3 51 3 = None /\
  insertions Sample.nothing 51 3 = Some EmptyFile /\
  fst missing = [(51, 3)] /\
  snd missing = inl FileNotFoundError /\
  run_result (main Sample.args Sample.graph_with_gap (fun _ => Sample.gap)
                   (fun _ => Sample.missing_51_3) Sample.update_gfa None)
  = Exit1 FileNotFoundError /\
  fst empty = [(51, 3); (51, 2); (41, 3); (41, 2); (31, 3); (31, 2); (21, 3); (21, 2)] /\
  exists summary, snd empty = inr (summary, [[Sample.gap_line]]).
Proof.
  vm_compute. repeat split. eexists. reflexivity.
Qed.

(** ** What the scoring of one pair leaves *)

Section ScoringFacts.

Variable args : Args.
Variable gap : GapInfo.
Variable w : World.
Variable k : Z.
Variable rr : list RefRow.
Variable qq : list QryRow.

Local Abbreviation score_one := (score_record args gap w k rr qq).
Local Abbreviation score_all := (score_records args gap w k rr qq).

(** The entries of [solutions] are those it had, then the checks of the
    records, in order. *)
Lemma score_records_checks (records : list SeqRecord) :
  forall s0 o0 sols outs,
    score_all records s0 o0 = inr (sols, outs) ->
    forall check,
      In check sols <->
      In check s0 \/
      exists record output, In record records /\ score_one record = inr (check, output).
Proof.
  induction records as [|r records IH]; intros s0 o0 sols outs Hrun check.
  - cbn in Hrun. injection Hrun as <- <-. split; [intros H; left; exact H |].
    intros [H | [r [o [[] _]]]]. exact H.
  - cbn [score_records] in Hrun.
    destruct (score_one r) as [e | [c [o |]]] eqn:Hr; [discriminate Hrun | |];
      rewrite (IH _ _ _ _ Hrun check), in_app_iff; cbn [In]; split.
    + intros [[H | [<- | []]] | [r' [o' [Hin Hr']]]].
      * left. exact H.
      * right. exists r, (Some o). split; [left; reflexivity | exact Hr].
      * right. exists r', o'. split; [right; exact Hin | exact Hr'].
    + intros [H | [r' [o' [[<- | Hin] Hr']]]].
      * left. left. exact H.
      * rewrite Hr in Hr'. injection Hr' as <- _. left. right. left. reflexivity.
      * right. exists r', o'. split; [exact Hin | exact Hr'].
    + intros [[H | [<- | []]] | [r' [o' [Hin Hr']]]].
      * left. exact H.
      * right. exists r, None. split; [left; reflexivity | exact Hr].
      * right. exists r', o'. split; [right; exact Hin | exact Hr'].
    + intros [H | [r' [o' [[<- | Hin] Hr']]]].
      * left. left. exact H.
      * rewrite Hr in Hr'. injection Hr' as <- _. left. right. left. reflexivity.
      * right. exists r', o'. split; [exact Hin | exact Hr'].
Qed.

(** Every entry added to [output_for_gfa] comes from [get_output_for_gfa]. *)
Lemma score_records_entries (P : list string -> Prop) (records : list SeqRecord) :
  (forall record ext k', P (get_output_for_gfa w record ext k')) ->
  forall s0 o0 sols outs,
    score_all records s0 o0 = inr (sols, outs) ->
    List.Forall P o0 -> List.Forall P outs.
Proof.
  intros HP. induction records as [|r records IH]; intros s0 o0 sols outs Hrun Ho0.
  - cbn in Hrun. injection Hrun as <- <-. exact Ho0.
  - cbn [score_records] in Hrun. unfold score_record in Hrun.
    destruct (strand_of (record_id r)); [| discriminate Hrun].
    destruct (good_solution _ _ _).
    + apply (IH _ _ _ _ Hrun). apply List.Forall_app. split; [exact Ho0 |].
      constructor; [apply HP | constructor].
    + apply (IH _ _ _ _ Hrun). exact Ho0.
Qed.

(** A good solution in [solutions] has its entry in [output_for_gfa]. *)
Lemma score_records_good (records : list SeqRecord) :
  forall s0 o0 sols outs,
    score_all records s0 o0 = inr (sols, outs) ->
    (str_in "True_2" s0 = true -> o0 <> []) ->
    str_in "True_2" sols = true -> outs <> [].
Proof.
  induction records as [|r records IH]; intros s0 o0 sols outs Hrun Hinv.
  - cbn in Hrun. injection Hrun as <- <-. exact Hinv.
  - cbn [score_records] in Hrun. unfold score_record in Hrun.
    destruct (strand_of (record_id r)); [| discriminate Hrun].
    destruct (good_solution _ _ _).
    + apply (IH _ _ _ _ Hrun). intros _. destruct o0; discriminate.
    + apply (IH _ _ _ _ Hrun). intros Hin. apply Hinv.
      unfold str_in in *. rewrite existsb_app in Hin. cbn in Hin.
      rewrite orb_false_r in Hin. exact Hin.
Qed.

(** Scoring ends without an exception when every id starts with a tag. *)
Lemma score_records_total (records : list SeqRecord) :
  List.Forall (fun record => strand_of (record_id record) <> None) records ->
  forall s0 o0, exists sols outs, score_all records s0 o0 = inr (sols, outs).
Proof.
  induction 1 as [|r records Hr Hall IH]; intros s0 o0.
  - exists s0, o0. reflexivity.
  - cbn [score_records]. unfold score_record.
    destruct (strand_of (record_id r)); [| destruct (Hr eq_refl)].
    destruct (good_solution _ _ _); apply IH.
Qed.

End ScoringFacts.

(** ** One scored pair *)

Lemma pair_step_scored (args : Args) (gap : GapInfo) (w : World) (k a : Z) (st : Locals)
    (records : list SeqRecord) (p : RefPath) (rr : list RefRow) (qq : list QryRow)
    (sols : list string) (outs : list (list string)) :
  insertions w k a = Some (Fasta records) ->
  locate_ref_file args gap w st = Some p ->
  isfile w p = true ->
  ref_qry_stats w k a = Some rr ->
  qry_qry_stats w k a = Some qq ->
  score_records args gap w k rr qq (map correct_record records) [] [] = inr (sols, outs) ->
  pair_step args gap w k a st =
  if str_in "True_2" sols
  then (set_solution (Some true) (scored_state k a p sols outs st), Break)
  else (set_solution (Some false) (scored_state k a p sols outs st), Normal).
Proof.
  intros Hins Hloc Hfile Hrr Hqq Hscore.
  unfold pair_step. rewrite Hins.
  change (locate_ref_file args gap w (call_mtg_fill k a st))
    with (locate_ref_file args gap w st).
  rewrite Hloc, Hfile. cbn [prefix set_prefix]. rewrite Hrr, Hqq, Hscore.
  rewrite stop_test_is_reverse_only. reflexivity.
Qed.

(** C2, as the code has it. [solutions] is started empty again at every
    pair whose sequences are scored (line 381): after such a pair it holds
    the checks of the sequences of that pair and nothing else, whatever it
    held before, so a flag set at an earlier pair is gone unless the pair
    sets it again. *)
Theorem solutions_are_per_pair (args : Args) (gap : GapInfo) (w : World) (k a : Z)
    (st : Locals) (records : list SeqRecord) (p : RefPath) (rr : list RefRow)
    (qq : list QryRow) (sols : list string) (outs : list (list string)) :
  insertions w k a = Some (Fasta records) ->
  records <> [] ->
  locate_ref_file args gap w st = Some p ->
  isfile w p = true ->
  ref_qry_stats w k a = Some rr ->
  qry_qry_stats w k a = Some qq ->
  score_records args gap w k rr qq (map correct_record records) [] [] = inr (sols, outs) ->
  solutions (fst (pair_step args gap w k a st)) = sols /\
  forall check,
    In check (solutions (fst (pair_step args gap w k a st))) <->
    exists record output,
      In record (map correct_record records) /\
      score_record args gap w k rr qq record = inr (check, output).
Proof.
  intros Hins Hne Hloc Hfile Hrr Hqq Hscore.
  assert (Hsols : solutions (fst (pair_step args gap w k a st)) = sols).
  { rewrite (pair_step_scored args gap w k a st records p rr qq sols outs) by assumption.
    destruct (str_in "True_2" sols); reflexivity. }
  split; [exact Hsols |]. intros check. rewrite Hsols.
  rewrite (score_records_checks args gap w k rr qq _ _ _ _ _ Hscore check).
  cbn [In]. tauto.
Qed.

Lemma solutions_are_per_pair_witness :
  let st1 := fst (pair_step Sample.args Sample.gap Sample.fwd_then_poor 51 3 initial_locals) in
  solutions st1 = ["True_1"] /\
  solutions (fst (pair_step Sample.args Sample.gap Sample.fwd_then_poor 51 2 st1))
  = ["False_1"].
Proof.
  intros st1.
  assert (H1 : insertions Sample.fwd_then_poor 51 2 = Some (Fasta [Sample.fwd_record]))
    by (vm_compute; reflexivity).
  assert (H2 : [Sample.fwd_record] <> []) by discriminate.
  assert (H3 : locate_ref_file Sample.args Sample.gap Sample.fwd_then_poor st1
               = Some ContigsFasta) by reflexivity.
  assert (H5 : ref_qry_stats Sample.fwd_then_poor 51 2 = Some Sample.poor_ref_rows)
    by (vm_compute; reflexivity).
  assert (H7 : score_records Sample.args Sample.gap Sample.fwd_then_poor 51
                 Sample.poor_ref_rows Sample.qry_rows
                 (map correct_record [Sample.fwd_record]) [] []
               = inr (["False_1"], [])) by (vm_compute; reflexivity).
  split; [vm_compute; reflexivity |].
  exact (proj1 (solutions_are_per_pair Sample.args Sample.gap Sample.fwd_then_poor 51 2 st1
                  [Sample.fwd_record] ContigsFasta Sample.poor_ref_rows Sample.qry_rows
                  ["False_1"] [] H1 H2 H3 eq_refl H5 eq_refl H7)).
Defined.

(** Counterexample to C2 as stated: on the sample gap the forward sequence is a
    good solution at (51, 3) and a poor one at (51, 2); the forward flag,
    set after (51, 3), is no longer set after (51, 2), the next pair of the
    same loop. *)
Lemma forward_flag_is_reset :
  let st1 := fst (pair_step Sample.args Sample.gap Sample.fwd_then_poor 51 3 initial_locals) in
  let st2 := fst (pair_step Sample.args Sample.gap Sample.fwd_then_poor 51 2 st1) in
  str_in "True_1" (solutions st1) = true /\
  str_in "True_1" (solutions st2) = false /\
  fst (a_loop Sample.args Sample.gap Sample.fwd_then_poor 51 [3; 2] initial_locals) = st2.
Proof.
  vm_compute. repeat split.
Qed.

(** ** One outcome per gap *)

Lemma locate_ref_file_any (args : Args) (gap : GapInfo) (w : World) (p : RefPath) :
  locate_ref_file args gap w initial_locals = Some p ->
  forall st, locate_ref_file args gap w st = Some p.
Proof.
  unfold locate_ref_file. destruct (refDir args) as [dir |]; [| intros H st; exact H].
  cbn [ref_file initial_locals]. intros H st. revert H. generalize (ref_file st).
  induction (listdir w) as [|f l IH]; cbn [fold_left]; intros x H.
  - discriminate H.
  - destruct (PyStr.contains (gap_label gap) f); [exact H | apply IH; exact H].
Qed.

Lemma list_min_nonempty (l : list Z) : l <> [] -> exists m, list_min l = Some m.
Proof. destruct l as [|x l]; [intros H; destruct (H eq_refl) | intros _; eexists; reflexivity]. Qed.

Section OneOutcome.

Variable args : Args.
Variable gap : GapInfo.
Variable w : World.

Hypothesis kmer_nonempty : kmer args <> [].
Hypothesis abundance_nonempty : abundance_threshold args <> [].
Hypothesis kmer_ends_low : last (kmer args) = list_min (kmer args).
Hypothesis abundance_ends_low :
  last (abundance_threshold args) = list_min (abundance_threshold args).
Hypothesis entries_have_fields :
  forall record ext k, solution_entry (get_output_for_gfa w record ext k).
Hypothesis all_delivered : delivered args gap w.

Lemma pair_step_outcome (k a : Z) (st : Locals) :
  In k (kmer args) -> In a (abundance_threshold args) ->
  after_pair a (fst (pair_step args gap w k a st)) (snd (pair_step args gap w k a st)).
Proof.
  intros Hk Ha. destruct all_delivered as [[p [Hp Hfile]] Hpairs].
  destruct (Hpairs k a Hk Ha) as [Hins | [records [Hins [Htag [Hrr Hqq]]]]].
  - rewrite (pair_step_empty args gap w k a st Hins). cbn [fst snd].
    split; [reflexivity |]. exists []. split; [reflexivity |]. split; [constructor |].
    left. split; reflexivity.
  - destruct (ref_qry_stats w k a) as [rr |] eqn:Err; [| destruct (Hrr eq_refl)].
    destruct (qry_qry_stats w k a) as [qq |] eqn:Eqq; [| destruct (Hqq eq_refl)].
    destruct (score_records_total args gap w k rr qq _ Htag [] []) as [sols [outs Hscore]].
    rewrite (pair_step_scored args gap w k a st records p rr qq sols outs
               Hins (locate_ref_file_any args gap w p Hp st)
               Hfile Err Eqq Hscore).
    assert (Hall : List.Forall solution_entry outs).
    { eapply score_records_entries; [| exact Hscore | constructor].
      intros record ext k'. apply entries_have_fields. }
    destruct (str_in "True_2" sols) eqn:Hrev; cbn [fst snd];
      (split; [reflexivity |]); exists outs; (split; [reflexivity |]);
      (split; [exact Hall |]).
    + right. split; [reflexivity |]. split; [reflexivity |].
      eapply score_records_good; [exact Hscore | discriminate | exact Hrev].
    + left. split; reflexivity.
Qed.

Lemma a_loop_outcome (k : Z) (l : list Z) :
  In k (kmer args) -> l <> [] ->
  (forall a, In a l -> In a (abundance_threshold args)) ->
  forall st,
    after_pairs l (fst (a_loop args gap w k l st)) (snd (a_loop args gap w k l st)).
Proof.
  intros Hk. induction l as [|a l IH]; intros Hne Hin st; [destruct (Hne eq_refl) |].
  cbn [a_loop].
  pose proof (pair_step_outcome k a st Hk (Hin a (or_introl eq_refl))) as Hpair.
  destruct (pair_step args gap w k a st) as [st1 c]. cbn [fst snd] in Hpair.
  destruct Hpair as [Ha [out [Hout [Hall Hcase]]]].
  destruct Hcase as [[-> Hsol] | [-> [Hsol Hne']]].
  - destruct l as [|a2 l].
    + cbn [a_loop fst snd]. exists a, out. repeat (split; [assumption |]).
      left. repeat split; assumption.
    + destruct (IH ltac:(discriminate) (fun x Hx => Hin x (or_intror Hx)) st1)
        as [a' [out' [Ha' [Hout' [Hall' Hcase']]]]].
      exists a', out'. repeat (split; [assumption |]).
      destruct Hcase' as [[Hc [Hs Hl]] | Hb]; [left | right; exact Hb].
      repeat (split; [assumption |]). rewrite last_cons, Hl. reflexivity.
  - cbn [fst snd]. exists a, out. repeat (split; [assumption |]).
    right. repeat split; assumption.
Qed.

Lemma k_step_outcome (k : Z) (st : Locals) :
  In k (kmer args) ->
  after_k args gap k (fst (k_step args gap w k st)) (snd (k_step args gap w k st)).
Proof.
  intros Hk. unfold k_step.
  pose proof (a_loop_outcome k (abundance_threshold args) Hk abundance_nonempty
                (fun a H => H) st) as Hloop.
  destruct (a_loop args gap w k (abundance_threshold args) st) as [st1 c].
  cbn [fst snd] in Hloop. destruct Hloop as [a [out [Ha [Hout [Hall Hcase]]]]].
  destruct (list_min_nonempty _ kmer_nonempty) as [mk Hmk].
  destruct (list_min_nonempty _ abundance_nonempty) as [ma Hma].
  destruct Hcase as [[-> [Hsol Hlast]] | [-> [Hsol Hne]]]; cbv beta iota;
    unfold after_a_loop, last_pair_test; rewrite Hsol, Hmk; cbn [andb].
  - destruct (k =? mk)%Z eqn:Ekm; cbn [negb fst snd].
    + rewrite Ha, Hma.
      assert (Eam : (a =? ma)%Z = true).
      { apply Z.eqb_eq. rewrite abundance_ends_low, Hma in Hlast. congruence. }
      rewrite Eam, Hout. destruct out as [|o out]; cbn [fst snd].
      * exists [[current_gap gap]]. split; [reflexivity |]. right.
        split; [reflexivity |]. split; [right; reflexivity | discriminate].
      * exists (o :: out). split; [exact Hout |]. right.
        split; [reflexivity |]. split; [left; exact Hall | discriminate].
    + exists out. split; [exact Hout |]. right. split; [reflexivity |].
      split; [left; exact Hall |]. intros Hk'. rewrite Hmk in Hk'. injection Hk' as ->.
      rewrite Z.eqb_refl in Ekm. discriminate Ekm.
  - destruct (force args); cbn [negb fst snd].
    + destruct (k =? mk)%Z; cbn [negb fst snd].
      * rewrite Ha, Hma. destruct (a =? ma)%Z.
        -- rewrite Hout. destruct out as [|o out]; [destruct (Hne eq_refl) |].
           cbn [fst snd]. exists (o :: out). split; [exact Hout |]. right.
           split; [reflexivity |]. split; [left; exact Hall | discriminate].
        -- cbn [fst snd]. exists out. split; [exact Hout |]. right.
           split; [reflexivity |]. split; [left; exact Hall | intros _; exact Hne].
      * exists out. split; [exact Hout |]. right. split; [reflexivity |].
        split; [left; exact Hall |]. intros _. exact Hne.
    + exists out. split; [exact Hout |]. left. repeat split; assumption.
Qed.

Lemma k_loop_outcome (l : list Z) :
  l <> [] ->
  (forall k, In k l -> In k (kmer args)) ->
  last l = list_min (kmer args) ->
  forall st, exists out,
    output_for_gfa (fst (k_loop args gap w l st)) = Some out /\
    (forall e, snd (k_loop args gap w l st) <> Raise e) /\
    out <> [] /\
    (List.Forall solution_entry out \/ out = [[current_gap gap]]).
Proof.
  induction l as [|k l IH]; intros Hne Hin Hlast st; [destruct (Hne eq_refl) |].
  cbn [k_loop]. pose proof (k_step_outcome k st (Hin k (or_introl eq_refl))) as Hstep.
  destruct (k_step args gap w k st) as [st1 c]. cbn [fst snd] in Hstep.
  destruct Hstep as [out [Hout [[-> [Hne' Hall]] | [-> [Hkind Hlow]]]]].
  - cbn [fst snd]. exists out. split; [exact Hout |]. split; [discriminate |].
    split; [exact Hne' | left; exact Hall].
  - destruct l as [|k2 l].
    + cbn [k_loop fst snd]. exists out. split; [exact Hout |]. split; [discriminate |].
      split; [apply Hlow; rewrite <- Hlast; reflexivity | exact Hkind].
    + apply IH; [discriminate | intros k' Hk'; apply Hin; right; exact Hk' |].
      rewrite <- Hlast. rewrite (last_cons k). destruct (last (k2 :: l)) eqn:E; [reflexivity |].
      apply last_None in E. discriminate E.
Qed.

Lemma sweep_outcome :
  exists out,
    snd (sweep args gap w) = Returned out /\
    out <> [] /\
    (List.Forall solution_entry out \/ out = [[current_gap gap]]).
Proof.
  unfold sweep.
  destruct (k_loop_outcome (kmer args) kmer_nonempty (fun k H => H) kmer_ends_low
              initial_locals) as [out [Hout [Hc [Hne Hkind]]]].
  destruct (k_loop args gap w (kmer args) initial_locals) as [st c].
  cbn [fst snd] in Hout, Hc.
  exists out. destruct c; [| | destruct (Hc e eq_refl)]; rewrite Hout; cbn [snd];
    repeat split; assumption.
Qed.

End OneOutcome.

(** C7, as the code has it. When the reads file can be opened at line 230
    (the one given with [-rbxu], if any, is there), each of the two lists is
    not empty and ends with its smallest value (as the descending defaults
    do), the external steps leave their files, and the helper lays a
    solution out as an entry of more than one field, [gapfilling] returns
    one value: the summary of the union and either the gap line alone, or a
    list, not empty, of entries of good solutions; never an empty list,
    never a mix. *)
Theorem one_outcome_per_gap (args : Args) (gap : GapInfo) (w : World) :
  union_reads args gap w <> None ->
  kmer args <> [] ->
  abundance_threshold args <> [] ->
  last (kmer args) = list_min (kmer args) ->
  last (abundance_threshold args) = list_min (abundance_threshold args) ->
  (forall record ext k, solution_entry (get_output_for_gfa w record ext k)) ->
  delivered args gap w ->
  exists summary out,
    union_summary args gap w = Some summary /\
    snd (gapfilling args gap w) = inr (summary, out) /\
    (out = [[current_gap gap]] \/ (out <> [] /\ List.Forall solution_entry out)).
Proof.
  intros Hreads Hk Ha Hklow Halow Hfields Hdel.
  destruct (sweep_outcome args gap w Hk Ha Hklow Halow Hfields Hdel)
    as [out [Hret [Hne Hkind]]].
  unfold gapfilling, union_summary.
  destruct (union_reads args gap w) as [reads |]; [| destruct (Hreads eq_refl)].
  cbn [fmap option_fmap option_map].
  eexists. exists out. split; [reflexivity |].
  destruct (sweep args gap w) as [st o]. cbn [snd] in Hret. subst o. cbn [snd].
  split; [reflexivity |].
  destruct Hkind as [Hall | Hgap]; [right; split; assumption | left; exact Hgap].
Qed.

Lemma sample_delivered : delivered Sample.args Sample.gap Sample.rev_only.
Proof.
  split.
  - exists ContigsFasta. split; reflexivity.
  - intros k a _ _. unfold Sample.rev_only, Sample.world, Sample.at_pair.
    cbn [insertions ref_qry_stats qry_qry_stats].
    destruct ((k =? 51)%Z && (a =? 3)%Z).
    + right. exists [Sample.rev_record]. split; [reflexivity |].
      split; [| split; discriminate].
      constructor; [| constructor]. unfold tagged. vm_compute. discriminate.
    + left. reflexivity.
Qed.

Lemma one_outcome_per_gap_witness :
  exists summary out,
    union_summary Sample.args Sample.gap Sample.rev_only = Some summary /\
    snd (gapfilling Sample.args Sample.gap Sample.rev_only) = inr (summary, out) /\
    (out = [[current_gap Sample.gap]] \/ (out <> [] /\ List.Forall solution_entry out)).
Proof.
  refine (one_outcome_per_gap Sample.args Sample.gap Sample.rev_only _ _ _ _ _ _
            sample_delivered).
  - vm_compute. discriminate.
  - discriminate.
  - discriminate.
  - vm_compute. reflexivity.
  - vm_compute. reflexivity.
  - intros record ext k. unfold solution_entry. cbn. lia.
Defined.

(** Counterexample to C7 as stated, three times. With [-k 21 51] and nothing
    found at any pair, the gap line is put in [output_for_gfa] after k = 21,
    the smallest k, and the list is emptied again at k = 51: the task
    returns an empty list, and the scheduler, reading its first entry, ends
    the run. With the default lists and the insertions file of (51, 3)
    missing, the task returns nothing at all. With [-rbxu] naming a file
    that is not found from the union directory, the task ends at line 230,
    before any call of MindTheGap. *)
Lemma sweep_without_outcome :
  let args := Sample.with_lists [21; 51] [3; 2] Sample.args in
  snd (sweep args Sample.gap Sample.nothing) = Returned [] /\
  run_result (main args Sample.graph_with_gap (fun _ => Sample.gap)
                   (fun _ => Sample.nothing) Sample.update_gfa None)
  = Exit1 IndexError /\
  snd (sweep Sample.args Sample.gap Sample.missing_51_3) = Raised FileNotFoundError /\
  gapfilling (Sample.with_rbxu "union.fastq" Sample.args) Sample.gap Sample.rev_only
  = ([], inl FileNotFoundError).
Proof.
  vm_compute. repeat split.
Qed.

(** * Further properties *)

(** ** The verdict in reference mode *)

Lemma match_quality_AB2 (r s : ascii) :
  Re.match_dollar Re.quality_AB2
    ("Quality " +:+ String r (String s EmptyString)) = is_AB r && is_AB s.
Proof.
  unfold Re.match_dollar, Re.quality_AB2, Re.AB, is_AB.
  cbv [String.append]. cbn. ascii_cases; reflexivity || congruence.
Qed.

(** X1. With a reference directory, a gap-filled sequence is a good
    solution if and only if it is longer than twice the extension and its
    two grades (reference, reverse complement) are each A or B. *)
Theorem reference_mode_acceptance (args : Args) (dir seq : string) (r s : ascii) :
  refDir args = Some dir ->
  (good_solution args seq ("Quality " +:+ String r (String s EmptyString)) = true <->
   2 * extension args < len seq /\
   (r = "A"%char \/ r = "B"%char) /\ (s = "A"%char \/ s = "B"%char)).
Proof.
  intros Hmode. unfold good_solution, accepted_ref. rewrite Hmode, match_quality_AB2.
  rewrite !andb_true_iff, Z.ltb_lt, !is_AB_true. tauto.
Qed.

Lemma reference_mode_acceptance_witness :
  good_solution (Sample.with_refDir "refs" Sample.args) (Sample.dna 1200) "Quality BA" = true.
Proof.
  apply (proj2 (reference_mode_acceptance (Sample.with_refDir "refs" Sample.args) "refs"
                  (Sample.dna 1200) "B" "A" eq_refl)).
  split; [vm_compute; reflexivity |]. split; [right | left]; reflexivity.
Defined.

(** ** The cap on the length, the chunks *)

(** X2. The cap handed to MindTheGap is never below the one asked for, and
    with the default cap of 10000 it is always above the length of the gap. *)
Theorem max_length_above_gap (max_length gap_length : Z) :
  max_length <= effective_max_length max_length gap_length /\
  (max_length = 10000 -> gap_length < effective_max_length max_length gap_length).
Proof.
  unfold effective_max_length.
  destruct (Z.eqb_spec max_length 10000); destruct (Z.leb_spec 10000 gap_length);
    cbn [andb]; lia.
Qed.

(** X3. The chunk used on each flank is the smaller of the chunk size asked
    for and the length of the scaffold. *)
Theorem chunks_are_clamped (args : Args) (gap : GapInfo) :
  chunk_L args gap = Z.min (chunk args) (left_slen gap) /\
  chunk_R args gap = Z.min (chunk args) (right_slen gap).
Proof.
  unfold chunk_L, chunk_R.
  destruct (Z.ltb_spec (left_slen gap) (chunk args));
    destruct (Z.ltb_spec (right_slen gap) (chunk args)); lia.
Qed.

(** ** The file of the union *)

Lemma NoDup_map_filter {A B : Type} (f : A -> B) (p : A -> bool) (l : list A) :
  List.NoDup (map f l) -> List.NoDup (map f (List.filter p l)).
Proof.
  induction l as [|x l IH]; cbn; intros Hnd; [constructor |].
  apply List.NoDup_cons_iff in Hnd. destruct Hnd as [Hnin Hnd].
  destruct (p x); cbn; [| apply IH; exact Hnd].
  constructor; [| apply IH; exact Hnd].
  intros Hin. apply Hnin. apply in_map_iff in Hin. destruct Hin as [y [Hy Hin]].
  apply in_map_iff. exists y. split; [exact Hy |]. apply filter_In in Hin. apply Hin.
Qed.

Lemma fmap_is_map {A B : Type} (f : A -> B) (l : list A) : f <$> l = map f l.
Proof. induction l as [|x l IH]; cbn; [reflexivity | rewrite IH; reflexivity]. Qed.

(** X4. Whatever the counts, the union file names no barcode twice, it
    holds no more barcodes than were counted, and a higher frequency
    threshold keeps only barcodes that a lower one keeps. *)
Theorem union_file_content (occ : gmap string Z) (freq1 freq2 : Z) :
  List.NoDup (filter_by_freq freq1 occ) /\
  (length (filter_by_freq freq1 occ) <= size occ)%nat /\
  (freq1 <= freq2 ->
   forall b, In b (filter_by_freq freq2 occ) -> In b (filter_by_freq freq1 occ)).
Proof.
  split; [| split].
  - unfold filter_by_freq. apply NoDup_map_filter. rewrite <- fmap_is_map.
    apply NoDup_ListNoDup. apply NoDup_fst_map_to_list.
  - unfold filter_by_freq. rewrite length_map.
    etransitivity; [apply List.filter_length_le |].
    rewrite length_map_to_list. reflexivity.
  - intros Hle b. rewrite !filter_by_freq_In. intros [n [Hn Hf]]. exists n. split; [exact Hn | lia].
Qed.

(** ** The sweep, pair by pair *)

Section PairByPair.

Variable args : Args.
Variable gap : GapInfo.
Variable w : World.
Variable p : RefPath.
Hypothesis ready : reference_ready args gap w p.

(** The body of the loop over a, read off the kind of the pair. *)
Lemma pair_step_classified (k a : Z) (st : Locals) :
  pair_step args gap w k a st =
  match classify args gap w k a with
  | NoFile => (call_mtg_fill k a st, Raise FileNotFoundError)
  | NothingFound =>
      (set_solution (Some false) (set_output_for_gfa (Some []) (call_mtg_fill k a st)), Normal)
  | NotRead => (call_mtg_fill k a st, Raise ValueError)
  | Unscored =>
      (set_solution (Some false)
         (set_prefix (Some (k, a)) (set_ref_file (Some p) (call_mtg_fill k a st))), Normal)
  | ScoreError e =>
      (set_prefix (Some (k, a)) (set_ref_file (Some p) (call_mtg_fill k a st)), Raise e)
  | Scored sols outs =>
      if str_in "True_2" sols
      then (set_solution (Some true) (scored_state k a p sols outs st), Break)
      else (set_solution (Some false) (scored_state k a p sols outs st), Normal)
  end.
Proof.
  destruct ready as [Hloc Hfile].
  unfold pair_step, classify.
  destruct (insertions w k a) as [[| records |] |];
    [reflexivity | | reflexivity | reflexivity].
  change (locate_ref_file args gap w (call_mtg_fill k a st))
    with (locate_ref_file args gap w st).
  rewrite (locate_ref_file_any args gap w p Hloc st), Hfile. cbn [prefix set_prefix].
  destruct (ref_qry_stats w k a) as [rr |]; [| reflexivity].
  destruct (qry_qry_stats w k a) as [qq |]; [| reflexivity].
  destruct (score_records args gap w k rr qq (map correct_record records) [] [])
    as [e | [sols outs]]; [reflexivity |].
  rewrite stop_test_is_reverse_only. reflexivity.
Qed.

Lemma stops_at_good_app (t1 t2 : list (Z * Z)) (c : ctl) (st1 st : Locals) :
  stops_at_good args gap w t1 Normal st1 ->
  stops_at_good args gap w t2 c st ->
  stops_at_good args gap w (t1 ++ t2) c st.
Proof.
  intros H1 H2 k a sols outs Hin Hk Hrev. apply in_app_or in Hin. destruct Hin as [Hin | Hin].
  - destruct (H1 k a sols outs Hin Hk Hrev) as [Hc _]. discriminate Hc.
  - destruct (H2 k a sols outs Hin Hk Hrev) as [Hc [Hlast Hrest]].
    split; [exact Hc |]. split; [| exact Hrest]. rewrite last_app, Hlast. reflexivity.
Qed.

Lemma stops_at_good_none (t : list (Z * Z)) (c c' : ctl) (st st' : Locals) :
  stops_at_good args gap w t c st -> c <> Break -> stops_at_good args gap w t c' st'.
Proof.
  intros H Hc k a sols outs Hin Hk Hrev.
  destruct (H k a sols outs Hin Hk Hrev) as [Heq _]. destruct (Hc Heq).
Qed.

Lemma pair_step_good (k a : Z) (st : Locals) :
  stops_at_good args gap w [(k, a)]
    (snd (pair_step args gap w k a st)) (fst (pair_step args gap w k a st)).
Proof.
  intros k' a' sols outs [Hp | []] Hk Hrev. injection Hp as <- <-.
  rewrite pair_step_classified, Hk, Hrev. cbn [fst snd]. repeat split.
Qed.

Lemma a_loop_good (k : Z) (l : list Z) :
  forall st, exists t,
    trace (fst (a_loop args gap w k l st)) = (trace st ++ t)%list /\
    stops_at_good args gap w t (snd (a_loop args gap w k l st))
                  (fst (a_loop args gap w k l st)).
Proof.
  induction l as [|a l IH]; intros st.
  - exists []. split; [cbn; rewrite app_nil_r; reflexivity |]. intros k' a' s o [].
  - cbn [a_loop]. pose proof (pair_step_trace args gap w k a st) as Ht.
    pose proof (pair_step_good k a st) as Hs.
    destruct (pair_step args gap w k a st) as [st1 c]. cbn [fst snd] in Ht, Hs.
    destruct c.
    + destruct (IH st1) as [t [Heq Hstop]]. exists ([(k, a)] ++ t)%list. split.
      * rewrite Heq, Ht, <- app_assoc. reflexivity.
      * eapply stops_at_good_app; [exact Hs | exact Hstop].
    + exists [(k, a)]. split; [exact Ht | exact Hs].
    + exists [(k, a)]. split; [exact Ht | exact Hs].
Qed.

Hypothesis not_forced : force args = false.

Lemma k_step_good (k : Z) (st : Locals) :
  exists t,
    trace (fst (k_step args gap w k st)) = (trace st ++ t)%list /\
    stops_at_good args gap w t (snd (k_step args gap w k st))
                  (fst (k_step args gap w k st)).
Proof.
  unfold k_step.
  destruct (a_loop_good k (abundance_threshold args) st) as [t [Heq Hstop]].
  exists t.
  destruct (a_loop args gap w k (abundance_threshold args) st) as [st1 c].
  cbn [fst snd] in Heq, Hstop. destruct c.
  - rewrite after_a_loop_trace. split; [exact Heq |].
    eapply stops_at_good_none; [exact Hstop | discriminate].
  - rewrite after_a_loop_trace. split; [exact Heq |].
    intros k' a' sols outs Hin Hk Hrev.
    destruct (Hstop k' a' sols outs Hin Hk Hrev) as [_ [Hlast [Hout Hsol]]].
    unfold after_a_loop. rewrite Hsol, not_forced. cbn [andb negb fst snd].
    repeat split; assumption.
  - cbn [fst snd]. split; [exact Heq | exact Hstop].
Qed.

Lemma k_loop_good (l : list Z) :
  forall st, exists t,
    trace (fst (k_loop args gap w l st)) = (trace st ++ t)%list /\
    stops_at_good args gap w t (snd (k_loop args gap w l st))
                  (fst (k_loop args gap w l st)).
Proof.
  induction l as [|k l IH]; intros st.
  - exists []. split; [cbn; rewrite app_nil_r; reflexivity |]. intros k' a' s o [].
  - cbn [k_loop]. destruct (k_step_good k st) as [t1 [Heq1 Hs1]].
    destruct (k_step args gap w k st) as [st1 c]. cbn [fst snd] in Heq1, Hs1.
    destruct c.
    + destruct (IH st1) as [t2 [Heq2 Hs2]]. exists (t1 ++ t2)%list. split.
      * rewrite Heq2, Heq1, <- app_assoc. reflexivity.
      * eapply stops_at_good_app; [exact Hs1 | exact Hs2].
    + exists t1. split; [exact Heq1 | exact Hs1].
    + exists t1. split; [exact Heq1 | exact Hs1].
Qed.

Lemma sweep_good (k a : Z) (sols : list string) (outs : list (list string)) :
  In (k, a) (trace (fst (sweep args gap w))) ->
  classify args gap w k a = Scored sols outs ->
  str_in "True_2" sols = true ->
  last (trace (fst (sweep args gap w))) = Some (k, a) /\
  snd (sweep args gap w) = Returned outs.
Proof.
  unfold sweep.
  destruct (k_loop_good (kmer args) initial_locals) as [t [Heq Hstop]].
  destruct (k_loop args gap w (kmer args) initial_locals) as [st c].
  cbn [fst snd trace initial_locals app] in Heq, Hstop.
  intros Hin Hk Hrev.
  assert (Hin' : In (k, a) t).
  { rewrite <- Heq. destruct c; [destruct (output_for_gfa st) | destruct (output_for_gfa st) |];
      exact Hin. }
  destruct (Hstop k a sols outs Hin' Hk Hrev) as [-> [Hlast [Hout _]]].
  rewrite Hout. cbn [fst snd]. rewrite Heq. split; [exact Hlast | reflexivity].
Qed.

End PairByPair.

(** X5. Without [--force] and with the reference of the gap at hand: a
    pair that is tried and whose scoring accepts a reverse sequence is the
    last pair tried for the gap, and the value returned is the list of the
    good sequences of that very pair. *)
Theorem sweep_stops_at_good_reverse (args : Args) (gap : GapInfo) (w : World)
    (p : RefPath) (k a : Z) (sols : list string) (outs : list (list string)) :
  reference_ready args gap w p ->
  force args = false ->
  In (k, a) (trace (fst (sweep args gap w))) ->
  classify args gap w k a = Scored sols outs ->
  str_in "True_2" sols = true ->
  last (trace (fst (sweep args gap w))) = Some (k, a) /\
  snd (sweep args gap w) = Returned outs.
Proof.
  intros Hready Hforce. apply (sweep_good args gap w p Hready Hforce).
Qed.

Lemma sweep_stops_at_good_reverse_witness :
  last (trace (fst (sweep Sample.args Sample.gap Sample.rev_only))) = Some (51, 3) /\
  snd (sweep Sample.args Sample.gap Sample.rev_only) = Returned [Sample.rev_entry].
Proof.
  assert (Hready : reference_ready Sample.args Sample.gap Sample.rev_only ContigsFasta)
    by (split; reflexivity).
  assert (Hin : In (51, 3) (trace (fst (sweep Sample.args Sample.gap Sample.rev_only))))
    by (vm_compute; left; reflexivity).
  assert (Hk : classify Sample.args Sample.gap Sample.rev_only 51 3
               = Scored ["True_2"] [Sample.rev_entry]) by (vm_compute; reflexivity).
  exact (sweep_stops_at_good_reverse Sample.args Sample.gap Sample.rev_only ContigsFasta
           51 3 ["True_2"] [Sample.rev_entry] Hready eq_refl Hin Hk eq_refl).
Defined.


(** ** The sweep under [--force] *)

Section Forced.

Variable args : Args.
Variable gap : GapInfo.
Variable w : World.
Hypothesis forced : force args = true.

Lemma after_a_loop_forced (k : Z) (st : Locals) :
  snd (after_a_loop args gap k st) <> Break.
Proof.
  unfold after_a_loop. rewrite forced. cbn [negb].
  destruct (solution st) as [sol |]; [rewrite andb_false_r |];
    repeat break_match; cbn [snd]; discriminate.
Qed.

Lemma k_step_forced (k : Z) (st : Locals) :
  snd (k_step args gap w k st) <> Break.
Proof.
  unfold k_step. destruct (a_loop args gap w k (abundance_threshold args) st) as [st1 c].
  destruct c; try apply after_a_loop_forced. cbn [snd]. discriminate.
Qed.

Lemma k_step_first_pair (k a0 : Z) (rest : list Z) (st : Locals) :
  abundance_threshold args = a0 :: rest ->
  In (k, a0) (trace (fst (k_step args gap w k st))).
Proof.
  intros Hab.
  assert (Hloop : In (k, a0) (trace (fst (a_loop args gap w k (a0 :: rest) st)))).
  { cbn [a_loop]. pose proof (pair_step_trace args gap w k a0 st) as Ht.
    destruct (pair_step args gap w k a0 st) as [st1 c]. cbn [fst] in Ht.
    assert (Hin : In (k, a0) (trace st1))
      by (rewrite Ht; apply in_or_app; right; left; reflexivity).
    destruct c; cbn [fst]; try exact Hin.
    destruct (a_loop_visits args gap w k rest st1) as [t [Heq _]].
    rewrite Heq. apply in_or_app. left. exact Hin. }
  unfold k_step. rewrite Hab.
  destruct (a_loop args gap w k (a0 :: rest) st) as [st1 c]. cbn [fst] in Hloop.
  destruct c; cbn [fst]; try rewrite after_a_loop_trace; exact Hloop.
Qed.

Lemma k_loop_forced (a0 : Z) (rest : list Z) (l : list Z) :
  abundance_threshold args = a0 :: rest ->
  forall st,
    snd (k_loop args gap w l st) <> Break /\
    ((forall e, snd (k_loop args gap w l st) <> Raise e) ->
     forall k, In k l -> In (k, a0) (trace (fst (k_loop args gap w l st)))).
Proof.
  intros Hab. induction l as [|k l IH]; intros st.
  - cbn. split; [discriminate | intros _ k []].
  - cbn [k_loop]. pose proof (k_step_forced k st) as Hc.
    pose proof (k_step_first_pair k a0 rest st Hab) as Hin.
    destruct (k_step args gap w k st) as [st1 c]. cbn [fst snd] in Hc, Hin.
    destruct c; [| destruct (Hc eq_refl) |].
    + destruct (IH st1) as [Hnb Hall]. split; [exact Hnb |].
      intros Hnr k' [<- | Hk'].
      * destruct (k_loop_visits args gap w l st1) as [t [Heq _]].
        rewrite Heq. apply in_or_app. left. exact Hin.
      * apply Hall; assumption.
    + cbn [fst snd]. split; [discriminate |]. intros Hnr. destruct (Hnr e eq_refl).
Qed.

End Forced.

(** X6. With [--force], a sweep that returns a value has called MindTheGap
    for every k of the list, with the first abundance threshold at least:
    no good solution makes it leave the loop over k. *)
Theorem forced_sweep_tries_every_k (args : Args) (gap : GapInfo) (w : World)
    (a0 : Z) (rest : list Z) (out : list (list string)) :
  force args = true ->
  abundance_threshold args = a0 :: rest ->
  snd (sweep args gap w) = Returned out ->
  forall k, In k (kmer args) -> In (k, a0) (trace (fst (sweep args gap w))).
Proof.
  intros Hforce Hab Hret k Hk. rewrite sweep_trace.
  destruct (k_loop_forced args gap w Hforce a0 rest (kmer args) Hab initial_locals)
    as [_ Hall].
  apply Hall; [| exact Hk].
  intros e He. unfold sweep in Hret.
  destruct (k_loop args gap w (kmer args) initial_locals) as [st c].
  cbn [snd] in He. subst c. discriminate Hret.
Qed.

Lemma forced_sweep_tries_every_k_witness :
  In (21, 3) (trace (fst (sweep (Sample.with_force Sample.args) Sample.gap Sample.rev_only))).
Proof.
  assert (Hret : snd (sweep (Sample.with_force Sample.args) Sample.gap Sample.rev_only)
                 = Returned [[Sample.gap_line]]) by (vm_compute; reflexivity).
  assert (Hk : In 21 (kmer (Sample.with_force Sample.args)))
    by (right; right; right; left; reflexivity).
  exact (forced_sweep_tries_every_k (Sample.with_force Sample.args) Sample.gap Sample.rev_only
           3 [2] [[Sample.gap_line]] eq_refl eq_refl Hret 21 Hk).
Defined.

(** ** A gap for which nothing is found *)

Section NothingFound.

Variable args : Args.
Variable gap : GapInfo.
Variable w : World.
Hypothesis kmer_nonempty : kmer args <> [].
Hypothesis abundance_nonempty : abundance_threshold args <> [].
Hypothesis kmer_ends_low : last (kmer args) = list_min (kmer args).
Hypothesis abundance_ends_low :
  last (abundance_threshold args) = list_min (abundance_threshold args).
Hypothesis nothing_found :
  forall k a, In k (kmer args) -> In a (abundance_threshold args) ->
    insertions w k a = Some EmptyFile.

Lemma a_loop_nothing (k : Z) (l : list Z) :
  In k (kmer args) -> l <> [] ->
  (forall a, In a l -> In a (abundance_threshold args)) ->
  forall st, exists st',
    a_loop args gap w k l st = (st', Normal) /\
    trace st' = (trace st ++ map (pair k) l)%list /\
    output_for_gfa st' = Some [] /\ solution st' = Some false /\ a_var st' = last l.
Proof.
  intros Hk. induction l as [|a l IH]; intros Hne Hin st; [destruct (Hne eq_refl) |].
  cbn [a_loop].
  rewrite (pair_step_empty args gap w k a st (nothing_found k a Hk (Hin a (or_introl eq_refl)))).
  destruct l as [|a2 l].
  - eexists. split; [reflexivity |]. cbn. repeat split.
  - destruct (IH ltac:(discriminate) (fun x Hx => Hin x (or_intror Hx))
                (set_solution (Some false)
                   (set_output_for_gfa (Some []) (call_mtg_fill k a st))))
      as [st' [Hrun [Ht [Ho [Hs Ha]]]]].
    exists st'. split; [exact Hrun |]. split.
    + rewrite Ht. cbn [trace set_solution set_output_for_gfa call_mtg_fill map].
      rewrite <- app_assoc. reflexivity.
    + split; [exact Ho |]. split; [exact Hs |]. rewrite Ha. reflexivity.
Qed.

Lemma k_step_nothing (k : Z) (st : Locals) :
  In k (kmer args) ->
  exists st',
    k_step args gap w k st = (st', Normal) /\
    trace st' = (trace st ++ map (pair k) (abundance_threshold args))%list /\
    (list_min (kmer args) = Some k -> output_for_gfa st' = Some [[current_gap gap]]).
Proof.
  intros Hk. unfold k_step.
  destruct (a_loop_nothing k (abundance_threshold args) Hk abundance_nonempty
              (fun a H => H) st) as [st1 [Hrun [Ht [Ho [Hs Ha]]]]].
  rewrite Hrun. unfold after_a_loop, last_pair_test. rewrite Hs. cbn [andb].
  destruct (list_min_nonempty _ kmer_nonempty) as [mk Hmk].
  destruct (list_min_nonempty _ abundance_nonempty) as [ma Hma].
  rewrite Hmk. destruct (Z.eqb_spec k mk) as [-> | Hne]; cbn [negb].
  - rewrite Ha, abundance_ends_low, Hma, Z.eqb_refl, Ho.
    eexists. split; [reflexivity |]. split; [exact Ht |]. intros _. reflexivity.
  - exists st1. split; [reflexivity |]. split; [exact Ht |].
    intros [= Heq]. destruct (Hne (eq_sym Heq)).
Qed.

Lemma k_loop_nothing (l : list Z) :
  l <> [] -> (forall k, In k l -> In k (kmer args)) ->
  last l = list_min (kmer args) ->
  forall st, exists st',
    k_loop args gap w l st = (st', Normal) /\
    trace st' = (trace st ++ list_prod l (abundance_threshold args))%list /\
    output_for_gfa st' = Some [[current_gap gap]].
Proof.
  induction l as [|k l IH]; intros Hne Hin Hlast st; [destruct (Hne eq_refl) |].
  cbn [k_loop list_prod].
  destruct (k_step_nothing k st (Hin k (or_introl eq_refl))) as [st1 [Hrun [Ht Hout]]].
  rewrite Hrun. destruct l as [|k2 l].
  - exists st1. split; [reflexivity |]. split.
    + rewrite Ht. cbn [list_prod]. rewrite app_nil_r. reflexivity.
    + apply Hout. rewrite <- Hlast. reflexivity.
  - destruct (IH ltac:(discriminate) (fun x Hx => Hin x (or_intror Hx))) with (st := st1)
      as [st' [Hrun' [Ht' Hout']]].
    { rewrite <- Hlast. rewrite (last_cons k).
      destruct (last (k2 :: l)) eqn:E; [reflexivity |].
      apply last_None in E. discriminate E. }
    exists st'. split; [exact Hrun' |]. split; [| exact Hout'].
    rewrite Ht', Ht, <- app_assoc. reflexivity.
Qed.

End NothingFound.




(** ** The value returned is that of the last pair *)

Lemma delivered_classify (args : Args) (gap : GapInfo) (w : World) (k a : Z) :
  delivered args gap w ->
  In k (kmer args) -> In a (abundance_threshold args) ->
  classify args gap w k a = NothingFound \/
  exists sols outs,
    classify args gap w k a = Scored sols outs /\
    (str_in "True_2" sols = true -> outs <> []).
Proof.
  intros [_ Hpairs] Hk Ha.
  destruct (Hpairs k a Hk Ha) as [Hins | [records [Hins [Htag [Hrr Hqq]]]]];
    unfold classify; rewrite Hins; [left; reflexivity |].
  right.
  destruct (ref_qry_stats w k a) as [rr |]; [| destruct (Hrr eq_refl)].
  destruct (qry_qry_stats w k a) as [qq |]; [| destruct (Hqq eq_refl)].
  destruct (score_records_total args gap w k rr qq _ Htag [] []) as [sols [outs Hscore]].
  rewrite Hscore. exists sols, outs. split; [reflexivity |].
  eapply score_records_good; [exact Hscore | discriminate].
Qed.

Section LastPair.

Variable args : Args.
Variable gap : GapInfo.
Variable w : World.
Variable p : RefPath.
Hypothesis ready : reference_ready args gap w p.
Hypothesis all_delivered : delivered args gap w.
Hypothesis kmer_nonempty : kmer args <> [].
Hypothesis abundance_nonempty : abundance_threshold args <> [].

Lemma pair_step_last (k a : Z) (st : Locals) :
  In k (kmer args) -> In a (abundance_threshold args) ->
  after_pair_last args gap w k a (fst (pair_step args gap w k a st))
                  (snd (pair_step args gap w k a st)).
Proof.
  intros Hk Ha. unfold after_pair_last, pair_entries.
  pose proof (pair_step_trace args gap w k a st) as Ht.
  rewrite Ht, last_snoc. split; [reflexivity |]. clear Ht.
  rewrite (pair_step_classified args gap w p ready k a st).
  destruct (delivered_classify args gap w k a all_delivered Hk Ha)
    as [-> | [sols [outs [-> Hgood]]]].
  - cbn. repeat split. left. split; reflexivity.
  - destruct (str_in "True_2" sols); cbn; repeat split.
    + right. repeat split. apply Hgood. reflexivity.
    + left. split; reflexivity.
Qed.

Lemma a_loop_last (k : Z) (l : list Z) :
  In k (kmer args) -> l <> [] ->
  (forall a, In a l -> In a (abundance_threshold args)) ->
  forall st, exists a,
    after_pair_last args gap w k a (fst (a_loop args gap w k l st))
                    (snd (a_loop args gap w k l st)) /\
    (snd (a_loop args gap w k l st) = Normal -> last l = Some a).
Proof.
  intros Hk. induction l as [|a l IH]; intros Hne Hin st; [destruct (Hne eq_refl) |].
  cbn [a_loop]. pose proof (pair_step_last k a st Hk (Hin a (or_introl eq_refl))) as Hpair.
  destruct (pair_step args gap w k a st) as [st1 c]. cbn [fst snd] in Hpair.
  assert (Hc : c = Normal \/ c = Break).
  { destruct Hpair as [_ [_ [_ [[Hc _] | [Hc _]]]]]; [left | right]; exact Hc. }
  destruct Hc as [-> | ->].
  - destruct l as [|a2 l].
    + cbn [a_loop fst snd]. exists a. split; [exact Hpair | reflexivity].
    + destruct (IH ltac:(discriminate) (fun x Hx => Hin x (or_intror Hx)) st1)
        as [a' [Hlast Hnorm]].
      exists a'. split; [exact Hlast |]. intros Hn. rewrite last_cons, (Hnorm Hn). reflexivity.
  - cbn [fst snd]. exists a. split; [exact Hpair | discriminate].
Qed.

Lemma k_step_last (k : Z) (st : Locals) :
  In k (kmer args) ->
  exists a out,
    last (trace (fst (k_step args gap w k st))) = Some (k, a) /\
    output_for_gfa (fst (k_step args gap w k st)) = Some out /\
    value_of_pair args gap w k a out /\
    (snd (k_step args gap w k st) = Normal \/ snd (k_step args gap w k st) = Break).
Proof.
  intros Hk. unfold k_step.
  destruct (a_loop_last k (abundance_threshold args) Hk abundance_nonempty
              (fun a H => H) st) as [a [Hlast Hnorm]].
  destruct (a_loop args gap w k (abundance_threshold args) st) as [st1 c].
  cbn [fst snd] in Hlast, Hnorm.
  destruct Hlast as [Ht [Ha [Hout Hcase]]].
  destruct (list_min_nonempty _ kmer_nonempty) as [mk Hmk].
  destruct (list_min_nonempty _ abundance_nonempty) as [ma Hma].
  exists a.
  assert (Hkeep : exists out,
             last (trace st1) = Some (k, a) /\ output_for_gfa st1 = Some out /\
             value_of_pair args gap w k a out).
  { eexists. split; [exact Ht |]. split; [exact Hout | left; reflexivity]. }
  destruct Hcase as [[-> Hsol] | [-> [Hsol Hne]]]; cbv beta iota;
    unfold after_a_loop, last_pair_test; rewrite Hsol, Hmk, Ha, Hma, Hout; cbn [andb].
  - destruct (negb (k =? mk)%Z); [| destruct (a =? ma)%Z];
      try (destruct Hkeep as [out Hkeep]; exists out; cbn [fst snd];
           repeat split; try apply Hkeep; left; reflexivity).
    destruct (pair_entries args gap w k a) as [|o outs] eqn:Hent; cbn [fst snd].
    + exists [[current_gap gap]]. split; [exact Ht |]. split; [reflexivity |].
      split; [right; split; [exact Hent | reflexivity] | left; reflexivity].
    + exists (o :: outs). rewrite <- Hent in *. split; [exact Ht |]. split; [exact Hout |].
      split; [left; reflexivity | left; reflexivity].
  - destruct (force args); cbn [negb].
    + destruct (negb (k =? mk)%Z); [| destruct (a =? ma)%Z];
        try (destruct Hkeep as [out Hkeep]; exists out; cbn [fst snd];
             repeat split; try apply Hkeep; left; reflexivity).
      destruct (pair_entries args gap w k a) as [|o outs] eqn:Hent;
        [destruct (Hne eq_refl) |].
      cbn [fst snd]. exists (o :: outs). rewrite <- Hent in *.
      split; [exact Ht |]. split; [exact Hout |]. split; left; reflexivity.
    + destruct Hkeep as [out Hkeep]. exists out. cbn [fst snd].
      repeat split; try apply Hkeep. right. reflexivity.
Qed.

Lemma k_loop_last (l : list Z) :
  l <> [] -> (forall k, In k l -> In k (kmer args)) ->
  forall st, exists k a out,
    last (trace (fst (k_loop args gap w l st))) = Some (k, a) /\
    output_for_gfa (fst (k_loop args gap w l st)) = Some out /\
    value_of_pair args gap w k a out /\
    (forall e, snd (k_loop args gap w l st) <> Raise e).
Proof.
  induction l as [|k l IH]; intros Hne Hin st; [destruct (Hne eq_refl) |].
  cbn [k_loop]. destruct (k_step_last k st (Hin k (or_introl eq_refl)))
    as [a [out [Ht [Hout [Hval Hc]]]]].
  destruct (k_step args gap w k st) as [st1 c]. cbn [fst snd] in Ht, Hout, Hc.
  destruct Hc as [-> | ->].
  - destruct l as [|k2 l].
    + cbn [k_loop fst snd]. exists k, a, out. repeat split; try assumption. discriminate.
    + apply IH; [discriminate | intros k' Hk'; apply Hin; right; exact Hk'].
  - cbn [fst snd]. exists k, a, out. repeat split; try assumption. discriminate.
Qed.

End LastPair.

(** X8. When the lists are not empty and the external steps leave their
    files, the value returned is decided by the last pair tried alone: it is
    the list of the good sequences of that pair or, when that pair has none
    and the fallback ran, the gap line. Good sequences of an earlier pair
    are not returned. *)
Theorem returned_value_is_of_last_pair (args : Args) (gap : GapInfo) (w : World) :
  kmer args <> [] ->
  abundance_threshold args <> [] ->
  delivered args gap w ->
  exists k a out,
    last (trace (fst (sweep args gap w))) = Some (k, a) /\
    snd (sweep args gap w) = Returned out /\
    value_of_pair args gap w k a out.
Proof.
  intros Hk Ha Hdel. pose proof Hdel as [[p Hready] _].
  destruct (k_loop_last args gap w p Hready Hdel Hk Ha (kmer args) Hk (fun k H => H)
              initial_locals) as [k [a [out [Ht [Hout [Hval Hc]]]]]].
  exists k, a, out. unfold sweep.
  destruct (k_loop args gap w (kmer args) initial_locals) as [st c].
  cbn [fst snd] in Ht, Hout, Hc.
  destruct c; [| | destruct (Hc e eq_refl)]; rewrite Hout; cbn [fst snd];
    repeat split; assumption.
Qed.

Lemma fwd_only_delivered : delivered Sample.args Sample.gap Sample.fwd_only.
Proof.
  split.
  - exists ContigsFasta. split; reflexivity.
  - intros k a _ _. unfold Sample.fwd_only, Sample.world, Sample.at_pair.
    cbn [insertions ref_qry_stats qry_qry_stats].
    destruct ((k =? 51)%Z && (a =? 3)%Z).
    + right. exists [Sample.fwd_record]. split; [reflexivity |].
      split; [| split; discriminate].
      constructor; [| constructor]. unfold tagged. vm_compute. discriminate.
    + left. reflexivity.
Qed.

Lemma returned_value_is_of_last_pair_witness :
  exists k a out,
    last (trace (fst (sweep Sample.args Sample.gap Sample.fwd_only))) = Some (k, a) /\
    snd (sweep Sample.args Sample.gap Sample.fwd_only) = Returned out /\
    value_of_pair Sample.args Sample.gap Sample.fwd_only k a out.
Proof.
  refine (returned_value_is_of_last_pair Sample.args Sample.gap Sample.fwd_only _ _
            fwd_only_delivered); discriminate.
Defined.


(** ** Sequences found, statistics missing *)

Section NeverScored.

Variable args : Args.
Variable gap : GapInfo.
Variable w : World.
Hypothesis stats_missing : never_scored args w.

Lemma stats_missing_at (pk pa : Z) :
  In pk (kmer args) -> In pa (abundance_threshold args) ->
  forall B (x : list RefRow -> list QryRow -> B) (y : B),
    match ref_qry_stats w pk pa, qry_qry_stats w pk pa with
    | Some rr, Some qq => x rr qq
    | _, _ => y
    end = y.
Proof.
  intros Hk Ha B x y. destruct (stats_missing pk pa Hk Ha) as [_ [_ [_ [H | H]]]];
    rewrite H; [reflexivity |]. destruct (ref_qry_stats w pk pa); reflexivity.
Qed.

Lemma nothing_bound_step (k a : Z) (st st' : Locals) :
  In k (kmer args) -> In a (abundance_threshold args) ->
  nothing_bound args st ->
  output_for_gfa st' = None ->
  solution st' <> Some true ->
  (prefix st' = prefix st \/ prefix st' = Some (k, a)) ->
  a_var st' = Some a ->
  nothing_bound args st'.
Proof.
  intros Hk Ha [Hout [Hsol [Hpre Hav]]] Hout' Hsol' Hpre' Hav'.
  split; [exact Hout' |]. split; [exact Hsol' |]. split.
  - intros pk pa Hp. destruct Hpre' as [Heq | Heq]; rewrite Heq in Hp.
    + exact (Hpre pk pa Hp).
    + injection Hp as <- <-. split; assumption.
  - intros a' Ha'. rewrite Hav' in Ha'. injection Ha' as <-. exact Ha.
Qed.

Lemma pair_step_unscored (k a : Z) (st : Locals) :
  In k (kmer args) -> In a (abundance_threshold args) ->
  nothing_bound args st ->
  nothing_bound args (fst (pair_step args gap w k a st)) /\
  quiet (snd (pair_step args gap w k a st)).
Proof.
  intros Hk Ha Hst. pose proof Hst as [Hout [Hsol [Hpre Hav]]].
  destruct (stats_missing k a Hk Ha) as [records [Hne [Hins _]]].
  unfold pair_step. rewrite Hins. destruct records as [|r records]; [destruct (Hne eq_refl) |].
  destruct (locate_ref_file args gap w (call_mtg_fill k a st)) as [p |].
  - destruct (isfile w p).
    + cbn [prefix set_prefix]. rewrite (stats_missing_at k a Hk Ha). cbn [fst snd].
      split; [| left; reflexivity].
      apply (nothing_bound_step k a st); try assumption; try reflexivity;
        [cbn; discriminate | right; reflexivity].
    + cbn [prefix set_ref_file call_mtg_fill]. destruct (prefix st) as [[pk pa] |] eqn:Hp.
      * destruct (Hpre pk pa eq_refl) as [Hpk Hpa].
        rewrite (stats_missing_at pk pa Hpk Hpa). cbn [fst snd]. split; [| left; reflexivity].
        apply (nothing_bound_step k a st); try assumption; try reflexivity;
          [cbn; discriminate | left; reflexivity].
      * cbn [fst snd]. split; [| right; reflexivity].
        apply (nothing_bound_step k a st); try assumption; try reflexivity.
        left. reflexivity.
  - cbn [fst snd]. split; [| right; reflexivity].
    apply (nothing_bound_step k a st); try assumption; try reflexivity.
    left. reflexivity.
Qed.

Lemma a_loop_unscored (k : Z) (l : list Z) :
  In k (kmer args) -> (forall a, In a l -> In a (abundance_threshold args)) ->
  forall st, nothing_bound args st ->
    nothing_bound args (fst (a_loop args gap w k l st)) /\
    quiet (snd (a_loop args gap w k l st)).
Proof.
  intros Hk. induction l as [|a l IH]; intros Hin st Hst.
  - cbn. split; [exact Hst | left; reflexivity].
  - cbn [a_loop].
    destruct (pair_step_unscored k a st Hk (Hin a (or_introl eq_refl)) Hst) as [Hst1 Hq].
    destruct (pair_step args gap w k a st) as [st1 c]. cbn [fst snd] in Hst1, Hq.
    destruct c; [apply IH; [intros x Hx; apply Hin; right; exact Hx | exact Hst1] | |];
      cbn [fst snd]; split; assumption.
Qed.

Lemma after_a_loop_unscored (k : Z) (st : Locals) :
  In k (kmer args) -> nothing_bound args st ->
  nothing_bound args (fst (after_a_loop args gap k st)) /\
  quiet (snd (after_a_loop args gap k st)).
Proof.
  intros Hk Hst. pose proof Hst as [Hout [Hsol [Hpre Hav]]].
  unfold after_a_loop, last_pair_test.
  destruct (solution st) as [[|] |]; [destruct (Hsol eq_refl) | |];
    [| cbn [fst snd]; split; [exact Hst | right; reflexivity]].
  cbn [andb].
  destruct (list_min (kmer args)) as [mk |] eqn:Hmk;
    [| destruct (kmer args); [destruct Hk | discriminate Hmk]].
  destruct (negb (k =? mk)%Z); [cbn [fst snd]; split; [exact Hst | left; reflexivity] |].
  destruct (a_var st) as [a |] eqn:Ha;
    [| cbn [fst snd]; split; [exact Hst | right; reflexivity]].
  destruct (list_min (abundance_threshold args)) as [ma |] eqn:Hma;
    [| pose proof (Hav a eq_refl) as Hin;
       destruct (abundance_threshold args); [destruct Hin | discriminate Hma]].
  destruct (a =? ma)%Z; [| cbn [fst snd]; split; [exact Hst | left; reflexivity]].
  rewrite Hout. cbn [fst snd]. split; [exact Hst | right; reflexivity].
Qed.

Lemma k_loop_unscored (l : list Z) :
  (forall k, In k l -> In k (kmer args)) ->
  forall st, nothing_bound args st ->
    nothing_bound args (fst (k_loop args gap w l st)) /\
    quiet (snd (k_loop args gap w l st)).
Proof.
  induction l as [|k l IH]; intros Hin st Hst.
  - cbn. split; [exact Hst | left; reflexivity].
  - cbn [k_loop]. unfold k_step.
    destruct (a_loop_unscored k (abundance_threshold args) (Hin k (or_introl eq_refl))
                (fun a H => H) st Hst) as [Hst1 Hq1].
    destruct (a_loop args gap w k (abundance_threshold args) st) as [st1 c1].
    cbn [fst snd] in Hst1, Hq1.
    destruct Hq1 as [-> | ->]; [| cbn [fst snd]; split; [exact Hst1 | right; reflexivity]].
    destruct (after_a_loop_unscored k st1 (Hin k (or_introl eq_refl)) Hst1) as [Hst2 Hq2].
    destruct (after_a_loop args gap k st1) as [st2 c2]. cbn [fst snd] in Hst2, Hq2.
    destruct Hq2 as [-> | ->]; [| cbn [fst snd]; split; [exact Hst2 | right; reflexivity]].
    apply IH; [intros x Hx; apply Hin; right; exact Hx | exact Hst2].
Qed.

End NeverScored.



(** ** No minimum of an empty list *)

Lemma score_records_raises (args : Args) (gap : GapInfo) (w : World) (k : Z)
    (rr : list RefRow) (qq : list QryRow) (records : list SeqRecord) :
  forall s0 o0 e, score_records args gap w k rr qq records s0 o0 = inl e -> e = IndexError.
Proof.
  induction records as [|r records IH]; intros s0 o0 e Hrun; [discriminate Hrun |].
  cbn [score_records] in Hrun. unfold score_record in Hrun.
  destruct (strand_of (record_id r)); [| injection Hrun as <-; reflexivity].
  destruct (good_solution _ _ _); exact (IH _ _ _ Hrun).
Qed.

Section NoValueError.

Variable args : Args.
Variable gap : GapInfo.
Variable w : World.

Lemma pair_step_ValueError (k a : Z) (st : Locals) :
  In k (kmer args) -> In a (abundance_threshold args) ->
  a_from_list args (fst (pair_step args gap w k a st)) /\
  ValueError_from_parse args w (snd (pair_step args gap w k a st)).
Proof.
  intros Hk Ha. split.
  - assert (Hav : a_var (fst (pair_step args gap w k a st)) = Some a)
      by (unfold pair_step; repeat break_match; reflexivity).
    intros a' Ha'. rewrite Hav in Ha'. injection Ha' as <-. exact Ha.
  - unfold ValueError_from_parse, pair_step.
    destruct (insertions w k a) as [[| records |] |] eqn:Hins; try discriminate;
      [| intros _; exists k, a; repeat split; assumption].
    destruct (locate_ref_file _ _ _ _); [| discriminate].
    destruct (prefix _) as [[pk pa] |]; [| discriminate].
    destruct (ref_qry_stats w pk pa); [| discriminate].
    destruct (qry_qry_stats w pk pa); [| discriminate].
    destruct (score_records _ _ _ _ _ _ _ _ _) as [e | [sols outs]] eqn:Hs.
    + rewrite (score_records_raises _ _ _ _ _ _ _ _ _ _ Hs). discriminate.
    + destruct (str_and _ _); discriminate.
Qed.

Lemma a_loop_ValueError (k : Z) (l : list Z) :
  In k (kmer args) ->
  (forall a, In a l -> In a (abundance_threshold args)) ->
  forall st, a_from_list args st ->
    a_from_list args (fst (a_loop args gap w k l st)) /\
    ValueError_from_parse args w (snd (a_loop args gap w k l st)).
Proof.
  intros Hk. induction l as [|a l IH]; intros Hin st Hst.
  - cbn. split; [exact Hst | discriminate].
  - cbn [a_loop].
    destruct (pair_step_ValueError k a st Hk (Hin a (or_introl eq_refl))) as [Hst1 Hc].
    destruct (pair_step args gap w k a st) as [st1 c]. cbn [fst snd] in Hst1, Hc.
    destruct c; [apply IH; [intros x Hx; apply Hin; right; exact Hx | exact Hst1] | |];
      cbn [fst snd]; split; assumption.
Qed.

(** Lines 507-517 never end on ValueError: [min] is reached only with [k]
    taken from the list of k and [a] bound to a value of the list of a. *)
Lemma after_a_loop_no_ValueError (k : Z) (st : Locals) :
  In k (kmer args) -> a_from_list args st ->
  a_from_list args (fst (after_a_loop args gap k st)) /\
  snd (after_a_loop args gap k st) <> Raise ValueError.
Proof.
  intros Hk Hst. unfold after_a_loop, last_pair_test.
  destruct (solution st) as [sol |]; [| cbn; split; [exact Hst | discriminate]].
  destruct (sol && negb (force args)); [cbn; split; [exact Hst | discriminate] |].
  destruct (list_min (kmer args)) as [mk |] eqn:Hmk;
    [| destruct (kmer args); [destruct Hk | discriminate Hmk]].
  destruct (negb (k =? mk)%Z); [cbn; split; [exact Hst | discriminate] |].
  destruct (a_var st) as [a |] eqn:Ha; [| cbn; split; [exact Hst | discriminate]].
  destruct (list_min (abundance_threshold args)) as [ma |] eqn:Hma;
    [| pose proof (Hst a Ha) as Hin;
       destruct (abundance_threshold args); [destruct Hin | discriminate Hma]].
  destruct (a =? ma)%Z; [| cbn; split; [exact Hst | discriminate]].
  destruct (output_for_gfa st) as [[|o out] |]; cbn; split;
    try exact Hst; try discriminate.
Qed.

Lemma k_loop_ValueError (l : list Z) :
  (forall k, In k l -> In k (kmer args)) ->
  forall st, a_from_list args st ->
    ValueError_from_parse args w (snd (k_loop args gap w l st)).
Proof.
  induction l as [|k l IH]; intros Hin st Hst; [cbn; discriminate |].
  cbn [k_loop]. unfold k_step.
  destruct (a_loop_ValueError k (abundance_threshold args) (Hin k (or_introl eq_refl))
              (fun a H => H) st Hst) as [Hst1 Hc1].
  destruct (a_loop args gap w k (abundance_threshold args) st) as [st1 c1].
  cbn [fst snd] in Hst1, Hc1.
  assert (Hafter : forall c2 st2, after_a_loop args gap k st1 = (st2, c2) ->
            ValueError_from_parse args w
              (snd (match (st2, c2) with
                    | (st', Normal) => k_loop args gap w l st'
                    | r => r
                    end))).
  { intros c2 st2 Heq.
    destruct (after_a_loop_no_ValueError k st1 (Hin k (or_introl eq_refl)) Hst1) as [Hst2 Hc2].
    rewrite Heq in Hst2, Hc2. cbn [fst snd] in Hst2, Hc2.
    destruct c2; [apply IH; [intros x Hx; apply Hin; right; exact Hx | exact Hst2] | |];
      cbn [snd]; intros Hc; [discriminate Hc | destruct (Hc2 Hc)]. }
  destruct c1.
  - destruct (after_a_loop args gap k st1) as [st2 c2] eqn:Heq. exact (Hafter c2 st2 eq_refl).
  - destruct (after_a_loop args gap k st1) as [st2 c2] eqn:Heq. exact (Hafter c2 st2 eq_refl).
  - cbn [snd]. exact Hc1.
Qed.

End NoValueError.

(** X10. [gapfilling] never takes the minimum of an empty list, whatever
    the two lists: a sweep that ends with ValueError got it from
    [SeqIO.parse] at lines 298-299, on the insertions file, not empty and
    not FASTA, of a pair of the two lists. *)
Theorem ValueError_is_from_parse (args : Args) (gap : GapInfo) (w : World) :
  snd (sweep args gap w) = Raised ValueError ->
  exists k a,
    In k (kmer args) /\ In a (abundance_threshold args) /\
    insertions w k a = Some NotFasta.
Proof.
  intros Hraise.
  assert (Hinit : a_from_list args initial_locals) by (intros a Ha; discriminate Ha).
  pose proof (k_loop_ValueError args gap w (kmer args) (fun k H => H) initial_locals Hinit)
    as H.
  unfold sweep in Hraise.
  destruct (k_loop args gap w (kmer args) initial_locals) as [st c]. cbn [snd] in H.
  destruct c; try (destruct (output_for_gfa st); discriminate Hraise).
  injection Hraise as ->. apply H. reflexivity.
Qed.

Lemma ValueError_is_from_parse_witness :
  exists k a,
    In k [51; 41; 31; 21] /\ In a [3; 2] /\
    insertions Sample.not_fasta_41_3 k a = Some NotFasta.
Proof.
  assert (Hraise : snd (sweep Sample.args Sample.gap Sample.not_fasta_41_3)
                   = Raised ValueError) by (vm_compute; reflexivity).
  exact (ValueError_is_from_parse Sample.args Sample.gap Sample.not_fasta_41_3 Hraise).
Defined.

(** With an empty list of abundance thresholds or of k, [min] is not
    reached: the sweep ends on an unbound name. *)
Example empty_lists_end_unbound :
  snd (sweep (Sample.with_lists [51; 21] [] Sample.args) Sample.gap Sample.both_at_41_3)
  = Raised UnboundLocalError /\
  snd (sweep (Sample.with_lists [] [3; 2] Sample.args) Sample.gap Sample.both_at_41_3)
  = Raised UnboundLocalError.
Proof. vm_compute. split; reflexivity. Qed.

(** ** Witnesses of the cap and of the union file *)

Lemma max_length_above_gap_witness : 20000 < effective_max_length 10000 20000.
Proof. apply (proj2 (max_length_above_gap 10000 20000)). reflexivity. Defined.

Lemma union_file_content_witness :
  In "BX1" (filter_by_freq 2 (barcodes_occ Sample.args Sample.gap Sample.barcoded)).
Proof.
  assert (H3 : In "BX1" (filter_by_freq 3
                           (barcodes_occ Sample.args Sample.gap Sample.barcoded)))
    by (vm_compute; left; reflexivity).
  assert (Hle : 2 <= 3) by lia.
  exact (proj2 (proj2 (union_file_content
                         (barcodes_occ Sample.args Sample.gap Sample.barcoded) 2 3))
               Hle "BX1" H3).
Defined.


(** ** The scheduler *)

Section SchedulerFacts.

Variable args : Args.
Variable gfa : list string.
Variable gap_info : string -> GapInfo.
Variable world : string -> World.
Variable update_gfa_with_solution :
  list string -> option (list string) -> option (list string).
Variable out_gfa_before : option (list string).

Lemma gapfilling_summary (gap : GapInfo) (w : World) (v : UnionSummary * list (list string)) :
  snd (gapfilling args gap w) = inr v -> union_summary args gap w = Some (fst v).
Proof.
  unfold gapfilling. destruct (union_summary args gap w) as [summary |]; [| discriminate].
  destruct (sweep args gap w) as [st [out | e]]; cbn [snd].
  - intros [= <-]. reflexivity.
  - discriminate.
Qed.

Lemma collect_summaries (l : list string) :
  forall out acc out' sums,
    collect update_gfa_with_solution
      (map (fun g => snd (gapfilling args (gap_info g) (world g))) l) out acc
    = Done out' sums ->
    map Some sums
    = (map Some acc ++ map (fun g => union_summary args (gap_info g) (world g)) l)%list.
Proof.
  induction l as [|g l IH]; intros out acc out' sums Hrun.
  - cbn in Hrun. injection Hrun as _ <-. cbn [map]. rewrite app_nil_r. reflexivity.
  - cbn [map collect] in Hrun.
    pose proof (gapfilling_summary (gap_info g) (world g)) as Hsum.
    destruct (snd (gapfilling args (gap_info g) (world g))) as [e | [summary o]];
      [discriminate Hrun |].
    specialize (Hsum _ eq_refl). cbn [fst] in Hsum.
    destruct (write_gap update_gfa_with_solution o out) as [e | out1]; [discriminate Hrun |].
    rewrite (IH _ _ _ _ Hrun), map_app, <- app_assoc. cbn [map app].
    rewrite Hsum. reflexivity.
Qed.

Lemma first_raised_none (l : list string) :
  (forall g, In g l -> exists v, snd (gapfilling args (gap_info g) (world g)) = inr v) ->
  first_raised (map (fun g => snd (gapfilling args (gap_info g) (world g))) l) = None.
Proof.
  induction l as [|g l IH]; intros Hall; [reflexivity |].
  cbn [map]. destruct (Hall g (or_introl eq_refl)) as [v Hv]. rewrite Hv.
  unfold first_raised in *. cbn [find]. apply IH. intros g' Hg'. apply Hall. right. exact Hg'.
Qed.

Lemma collect_gap_lines (l : list string) :
  (forall g, In g l ->
     exists summary, snd (gapfilling args (gap_info g) (world g)) = inr (summary, [[g]])) ->
  forall f acc, exists sums,
    collect update_gfa_with_solution
      (map (fun g => snd (gapfilling args (gap_info g) (world g))) l) (Some f) acc
    = Done (Some (f ++ l)%list) sums.
Proof.
  induction l as [|g l IH]; intros Hall f acc.
  - exists acc. cbn. rewrite app_nil_r. reflexivity.
  - cbn [map collect]. destruct (Hall g (or_introl eq_refl)) as [summary Hg]. rewrite Hg.
    cbn [write_gap length Nat.ltb Nat.leb].
    destruct (IH (fun g' Hg' => Hall g' (or_intror Hg')) (f ++ [g])%list
                 (acc ++ [summary])%list) as [sums Hrun].
    exists sums. rewrite Hrun, <- app_assoc. reflexivity.
Qed.

End SchedulerFacts.

(** X11. When the run reaches the end of its [try] block, the summary
    table has one row per gap handed to the pool, in the order of the gaps
    in the graph: the row of a gap is the summary its own task computed. *)
Theorem summary_rows_follow_gaps (args : Args) (gfa : list string)
    (gap_info : string -> GapInfo) (world : string -> World)
    (update_gfa_with_solution : list string -> option (list string) -> option (list string))
    (out_gfa_before out : option (list string)) (union_sum : list UnionSummary) :
  run_result (main args gfa gap_info world update_gfa_with_solution out_gfa_before)
  = Done out union_sum ->
  map Some union_sum
  = map (fun g => union_summary args (gap_info g) (world g)) (gaps args gfa) /\
  length union_sum = length (dispatched (main args gfa gap_info world
                                              update_gfa_with_solution out_gfa_before)).
Proof.
  unfold main. cbn [run_result dispatched]. intros Hrun.
  destruct (first_raised _); [discriminate Hrun |].
  apply collect_summaries in Hrun. cbn [map app] in Hrun.
  split; [exact Hrun |].
  apply (f_equal (@length _)) in Hrun. rewrite !length_map in Hrun. exact Hrun.
Qed.

Lemma summary_rows_follow_gaps_witness :
  exists summary,
    union_summary Sample.args Sample.gap Sample.nothing = Some summary /\
    map Some [summary]
    = map (fun g => union_summary Sample.args Sample.gap Sample.nothing)
          (gaps Sample.args Sample.graph_with_gap).
Proof.
  destruct (union_summary Sample.args Sample.gap Sample.nothing) as [summary |] eqn:Hsum;
    [| vm_compute in Hsum; discriminate Hsum].
  exists summary. split; [reflexivity |].
  assert (Hrun : run_result (main Sample.args Sample.graph_with_gap (fun _ => Sample.gap)
                                  (fun _ => Sample.nothing) Sample.update_gfa None)
                 = Done (Some (Sample.graph_with_gap)) [summary]).
  { vm_compute in Hsum. injection Hsum as <-. vm_compute. reflexivity. }
  rewrite <- Hsum.
  exact (proj1 (summary_rows_follow_gaps Sample.args Sample.graph_with_gap (fun _ => Sample.gap)
                  (fun _ => Sample.nothing) Sample.update_gfa None _ _ Hrun)).
Defined.

(** X12. Without [-line], when the task of every gap returns the line of
    its gap and nothing else, the output graph is the header line, then the
    segments of the input, then its gap lines, each group in the order of
    the input; lines of other kinds are not written. The summary table has
    the row of each gap. *)
Theorem unfilled_graph (args : Args) (gfa : list string)
    (gap_info : string -> GapInfo) (world : string -> World)
    (update_gfa_with_solution : list string -> option (list string) -> option (list string))
    (out_gfa_before : option (list string)) :
  line args = None ->
  (forall g, In g (gaps_of gfa) ->
     exists summary, snd (gapfilling args (gap_info g) (world g)) = inr (summary, [[g]])) ->
  exists union_sum,
    run_result (main args gfa gap_info world update_gfa_with_solution out_gfa_before)
    = Done (Some (header_line :: segments gfa ++ gaps_of gfa)%list) union_sum /\
    map Some union_sum
    = map (fun g => union_summary args (gap_info g) (world g)) (gaps_of gfa).
Proof.
  intros Hline Hall. unfold main, gaps, initial_out_gfa. rewrite Hline. cbn [run_result].
  rewrite first_raised_none
    by (intros g Hg; destruct (Hall g Hg) as [summary Hs]; eexists; exact Hs).
  destruct (collect_gap_lines args gap_info world update_gfa_with_solution (gaps_of gfa) Hall
              (header_line :: segments gfa) []) as [sums Hrun].
  exists sums. split; [exact Hrun |].
  apply collect_summaries in Hrun. exact Hrun.
Qed.

Lemma unfilled_graph_witness :
  exists union_sum,
    run_result (main Sample.args Sample.graph_with_gap (fun _ => Sample.gap)
                     (fun _ => Sample.nothing) Sample.update_gfa None)
    = Done (Some (header_line :: segments Sample.graph_with_gap
                    ++ gaps_of Sample.graph_with_gap)%list) union_sum /\
    map Some union_sum
    = map (fun g => union_summary Sample.args Sample.gap Sample.nothing)
          (gaps_of Sample.graph_with_gap).
Proof.
  apply (unfilled_graph Sample.args Sample.graph_with_gap (fun _ => Sample.gap)
           (fun _ => Sample.nothing) Sample.update_gfa None eq_refl).
  intros g Hg.
  assert (Hg' : g = Sample.gap_line).
  { vm_compute in Hg. destruct Hg as [Hg | []]. symmetry. exact Hg. }
  subst g. eexists. vm_compute. reflexivity.
Defined.

(** X13. With [-line n], the gaps handed to the pool are the last gaps of
    the graph, in its order. Counting from n minus the number of segments
    minus 2: a count from 0 up skips that many gaps, and a negative count
    does not start from the first gap but keeps only that many gaps from
    the end. *)
Theorem resumed_gaps (args : Args) (gfa : list string) (n : Z) :
  line args = Some n ->
  let G := Z.of_nat (length (gaps_of gfa)) in
  let i := n - (Z.of_nat (length (segments gfa)) + 2) in
  (exists skipped, gaps_of gfa = (skipped ++ gaps args gfa)%list) /\
  (0 <= i -> gaps args gfa = drop (Z.to_nat i) (gaps_of gfa)) /\
  (i < 0 -> Z.of_nat (length (gaps args gfa)) = Z.min (- i) G).
Proof.
  intros Hline G i. unfold gaps. rewrite Hline. unfold slice_from. fold G i.
  split; [| split].
  - eexists. symmetry. apply take_drop.
  - intros Hi. destruct (Z.ltb_spec i 0); [lia | reflexivity].
  - intros Hi. destruct (Z.ltb_spec i 0); [| lia]. rewrite length_drop. subst G. lia.
Qed.

(** On the sample graph of four segments and three gaps (lines 6, 7 and 8
    of the file): [-line 7] skips the first gap; [-line 4], the line of a
    segment, keeps the last two gaps and not all three. *)
Lemma resumed_gaps_witness :
  gaps (Sample.with_line 7 Sample.args) Sample.graph_with_three_gaps
  = drop 1 (gaps_of Sample.graph_with_three_gaps) /\
  Z.of_nat (length (gaps (Sample.with_line 4 Sample.args) Sample.graph_with_three_gaps))
  = Z.min 2 3.
Proof.
  assert (H7 : 0 <= 7 - (Z.of_nat (length (segments Sample.graph_with_three_gaps)) + 2))
    by (vm_compute; discriminate).
  assert (H4 : 4 - (Z.of_nat (length (segments Sample.graph_with_three_gaps)) + 2) < 0)
    by (vm_compute; reflexivity).
  split.
  - exact (proj1 (proj2 (resumed_gaps (Sample.with_line 7 Sample.args)
                           Sample.graph_with_three_gaps 7 eq_refl)) H7).
  - exact (proj2 (proj2 (resumed_gaps (Sample.with_line 4 Sample.args)
                           Sample.graph_with_three_gaps 4 eq_refl)) H4).
Defined.

Example resumed_gaps_sample :
  gaps (Sample.with_line 7 Sample.args) Sample.graph_with_three_gaps
  = [Sample.gap_line2; Sample.gap_line3] /\
  gaps (Sample.with_line 4 Sample.args) Sample.graph_with_three_gaps
  = [Sample.gap_line2; Sample.gap_line3] /\
  gaps (Sample.with_line 6 Sample.args) Sample.graph_with_three_gaps
  = [Sample.gap_line; Sample.gap_line2; Sample.gap_line3].
Proof. vm_compute. repeat split. Qed.


(** ** The corrected id *)

Lemma append_cons (c : ascii) (s t : string) : String c s +:+ t = String c (s +:+ t).
Proof. reflexivity. Qed.

Lemma append_assoc (s t u : string) : (s +:+ t) +:+ u = s +:+ (t +:+ u).
Proof.
  induction s as [|c s IH]; [reflexivity |]. rewrite !append_cons, IH. reflexivity.
Qed.

Lemma append_nil_r (s : string) : s +:+ EmptyString = s.
Proof. induction s as [|c s IH]; [reflexivity |]. rewrite append_cons, IH. reflexivity. Qed.

Lemma contains_char_cons (sep c : ascii) (t : string) :
  PyStr.contains (String sep EmptyString) (String c t) = false ->
  Ascii.eqb c sep = false /\ PyStr.contains (String sep EmptyString) t = false.
Proof.
  cbn [PyStr.contains String.prefix]. intros H. apply orb_false_iff in H. destruct H as [Hp Hc].
  split; [| exact Hc].
  destruct (Ascii.eqb_spec c sep) as [-> |]; [| reflexivity].
  destruct (ascii_dec sep sep) as [_ | Hne]; [| destruct (Hne eq_refl)].
  destruct t; discriminate Hp.
Qed.

Lemma split_aux_nonempty (sep : ascii) (s : string) :
  forall cur, PyStr.split_aux sep cur s <> [].
Proof.
  induction s as [|c s IH]; intros cur; cbn [PyStr.split_aux]; [discriminate |].
  destruct (Ascii.eqb c sep); [discriminate | apply IH].
Qed.

Lemma split_aux_no_sep (sep : ascii) (t : string) :
  forall cur,
    PyStr.contains (String sep EmptyString) t = false ->
    PyStr.split_aux sep cur t = [cur +:+ t].
Proof.
  induction t as [|c t IH]; intros cur Hno; cbn [PyStr.split_aux].
  - rewrite append_nil_r. reflexivity.
  - apply contains_char_cons in Hno. destruct Hno as [Hc Hno]. rewrite Hc.
    rewrite (IH _ Hno), append_assoc. reflexivity.
Qed.

Lemma split_aux_hd (sep : ascii) (s t : string) :
  forall cur,
    hd EmptyString (PyStr.split_aux sep cur (s +:+ String sep t)) =
    hd EmptyString (PyStr.split_aux sep cur s).
Proof.
  induction s as [|c s IH]; intros cur.
  - change (EmptyString +:+ String sep t) with (String sep t).
    cbn [PyStr.split_aux]. rewrite Ascii.eqb_refl. reflexivity.
  - rewrite append_cons. cbn [PyStr.split_aux].
    destruct (Ascii.eqb c sep); [reflexivity | apply IH].
Qed.

Lemma last_cons_nonempty {A : Type} (x d : A) (l : list A) :
  l <> [] -> List.last (x :: l) d = List.last l d.
Proof. destruct l; [intros H; destruct (H eq_refl) | reflexivity]. Qed.

Lemma split_aux_last (sep : ascii) (s t : string) :
  PyStr.contains (String sep EmptyString) t = false ->
  forall cur,
    List.last (PyStr.split_aux sep cur (s +:+ String sep t)) EmptyString = t.
Proof.
  intros Hno. induction s as [|c s IH]; intros cur.
  - change (EmptyString +:+ String sep t) with (String sep t).
    cbn [PyStr.split_aux]. rewrite Ascii.eqb_refl.
    rewrite (split_aux_no_sep sep t EmptyString Hno). reflexivity.
  - rewrite append_cons. cbn [PyStr.split_aux]. destruct (Ascii.eqb c sep).
    + rewrite last_cons_nonempty by apply split_aux_nonempty. apply IH.
    + apply IH.
Qed.

Lemma corrected_id_tag (id tag : string) :
  PyStr.contains "_" tag = false ->
  List.last (PyStr.split "_" (id +:+ "_sol_" +:+ tag)) EmptyString = tag.
Proof.
  intros Hno.
  replace (id +:+ "_sol_" +:+ tag) with ((id +:+ "_sol") +:+ String "_" tag)
    by (rewrite append_assoc; reflexivity).
  apply split_aux_last. exact Hno.
Qed.

(** X14. Moving the solution number into the id (lines 298-305) leaves the
    strand tag of the record as it was, and the number is what the last
    piece of the id, split at underscores, gives back: 1/1 for a record
    without "solution" in its description, otherwise the last word of the
    description when that word holds no underscore. *)
Theorem corrected_id_pieces (record : SeqRecord) :
  strand_of (record_id (correct_record record)) = strand_of (record_id record) /\
  (PyStr.contains "solution" (record_description record) = false ->
   List.last (PyStr.split "_" (record_id (correct_record record))) EmptyString = "1/1") /\
  (PyStr.contains "solution" (record_description record) = true ->
   PyStr.contains "_"
     (List.last (PyStr.split " " (record_description record)) EmptyString) = false ->
   List.last (PyStr.split "_" (record_id (correct_record record))) EmptyString
   = List.last (PyStr.split " " (record_description record)) EmptyString).
Proof.
  unfold correct_record. cbn [record_id]. split; [| split].
  - unfold strand_of, PyStr.split. f_equal.
    exact (split_aux_hd "_" (record_id record) _ EmptyString).
  - intros Hno. rewrite Hno. apply corrected_id_tag. reflexivity.
  - intros Hsol Hno. rewrite Hsol. apply corrected_id_tag. exact Hno.
Qed.

Lemma corrected_id_pieces_witness :
  List.last (PyStr.split "_" (record_id (correct_record Sample.fwd_record))) EmptyString
  = "1/1".
Proof.
  apply (proj1 (proj2 (corrected_id_pieces Sample.fwd_record))).
  vm_compute. reflexivity.
Defined.

(** ** The grade of an axis *)

Lemma min_str_cases (a b : string) :
  (PyStr.min_str a b = a /\ String.leb a b = true) \/
  (PyStr.min_str a b = b /\ String.leb b a = true).
Proof.
  unfold PyStr.min_str. destruct (String.leb a b) eqn:E; [left; split; reflexivity |].
  right. split; [reflexivity |].
  destruct (String.leb_total a b) as [H | H]; [congruence | exact H].
Qed.

Lemma leb_trans (a b c : string) :
  String.leb a b = true -> String.leb b c = true -> String.leb a c = true.
Proof.
  intros H1 H2. apply Is_true_true. apply Is_true_true in H1, H2.
  exact (transitivity (R := String.le) H1 H2).
Qed.

Lemma leb_refl (a : string) : String.leb a a = true.
Proof. apply Is_true_true. exact (reflexivity (R := String.le) a). Qed.

Lemma fold_min_str (l : list string) :
  forall x,
    In (fold_left PyStr.min_str l x) (x :: l) /\
    forall y, In y (x :: l) -> String.leb (fold_left PyStr.min_str l x) y = true.
Proof.
  induction l as [|z l IH]; intros x; cbn [fold_left].
  - split; [left; reflexivity |]. intros y [<- | []]. apply leb_refl.
  - destruct (IH (PyStr.min_str x z)) as [Hin Hle]. split.
    + destruct Hin as [Heq | Hin]; [| right; right; exact Hin].
      rewrite <- Heq. destruct (min_str_cases x z) as [[-> _] | [-> _]];
        [left | right; left]; reflexivity.
    + intros y [<- | [<- | Hy]].
      * eapply leb_trans; [apply Hle; left; reflexivity |].
        destruct (min_str_cases x z) as [[-> _] | [-> H]]; [apply leb_refl | exact H].
      * eapply leb_trans; [apply Hle; left; reflexivity |].
        destruct (min_str_cases x z) as [[-> H] | [-> _]]; [exact H | apply leb_refl].
      * apply Hle. right. exact Hy.
Qed.

(** X15. The grade of an axis is D when no row is selected for it;
    otherwise it is the grade of one of the selected rows, and no selected
    row has a grade that comes before it in the order of strings. *)
Theorem best_grade_is_least (q : list string) :
  (q = [] -> best_grade q = "D") /\
  (q <> [] ->
   In (best_grade q) q /\ forall x, In x q -> String.leb (best_grade q) x = true).
Proof.
  split.
  - intros ->. reflexivity.
  - intros Hne. destruct q as [|x q]; [destruct (Hne eq_refl) |].
    cbn [best_grade PyStr.py_min]. apply fold_min_str.
Qed.

Lemma best_grade_is_least_witness :
  In (best_grade ["C"; "A"; "B"]) ["C"; "A"; "B"] /\
  forall x, In x ["C"; "A"; "B"] -> String.leb (best_grade ["C"; "A"; "B"]) x = true.
Proof.
  apply (proj2 (best_grade_is_least ["C"; "A"; "B"])). discriminate.
Defined.

(** ** A sequence without a row on an axis *)

Lemma best_grade_one_letter (q : list string) :
  (forall x, In x q -> one_letter x) ->
  exists c, best_grade q = String c EmptyString /\ (q = [] -> c = "D"%char).
Proof.
  intros Hall. destruct q as [|x q].
  - exists "D"%char. split; reflexivity.
  - destruct (proj2 (best_grade_is_least (x :: q)) ltac:(discriminate)) as [Hin _].
    destruct (Hall _ Hin) as [c Hc]. exists c. split; [exact Hc | discriminate].
Qed.

Lemma grades_of_rows {A : Type} (f : A -> string) (p : A -> bool) (rows : list A) :
  (forall row, In row rows -> one_letter (f row)) ->
  forall x, In x (map f (List.filter p rows)) -> one_letter x.
Proof.
  intros Hall x Hx. apply in_map_iff in Hx. destruct Hx as [row [<- Hrow]].
  apply filter_In in Hrow. apply Hall. apply Hrow.
Qed.

(** X16. With one-letter grades in the statistics files, a sequence for
    which no row is selected on one of the axes of its mode is graded D on
    that axis and is never a good solution, whatever its length and its
    other grades. *)
Theorem no_row_no_solution (args : Args) (gap : GapInfo) (id seq : string)
    (rr : list RefRow) (qq : list QryRow) :
  one_letter_grades rr qq ->
  axis_without_row args gap id rr qq ->
  good_solution args seq ("Quality " +:+ quality_gapfilled_seq args gap id rr qq) = false.
Proof.
  intros [Hrr Hqq]. unfold axis_without_row, good_solution, quality_gapfilled_seq.
  destruct (refDir args) as [dir |].
  - destruct (best_grade_one_letter (quality_ref id rr)
                (grades_of_rows _ _ _ Hrr)) as [r [-> Hr]].
    destruct (best_grade_one_letter (quality_revcomp id qq)
                (grades_of_rows _ _ _ Hqq)) as [s [-> Hs]].
    intros Hno. unfold accepted_ref.
    change (String r EmptyString +:+ String s EmptyString)
      with (String r (String s EmptyString)).
    rewrite match_quality_AB2.
    destruct Hno as [H | H]; [rewrite (Hr H) | rewrite (Hs H)]; cbn;
      rewrite ?andb_false_r; reflexivity.
  - destruct (best_grade_one_letter (quality_ext_left gap id rr)
                (grades_of_rows _ _ _ Hrr)) as [l [-> Hl]].
    destruct (best_grade_one_letter (quality_ext_right gap id rr)
                (grades_of_rows _ _ _ Hrr)) as [r [-> Hr]].
    destruct (best_grade_one_letter (quality_revcomp id qq)
                (grades_of_rows _ _ _ Hqq)) as [s [-> Hs]].
    intros Hno. unfold accepted_flank.
    change (String l EmptyString +:+ String r EmptyString +:+ String s EmptyString)
      with (composite l r s).
    rewrite match_quality_A_AB2, match_quality_BA_AB.
    destruct Hno as [H | [H | H]]; [rewrite (Hl H) | rewrite (Hr H) | rewrite (Hs H)];
      cbn; rewrite ?andb_false_r; reflexivity.
Qed.

Lemma no_row_no_solution_witness :
  good_solution Sample.args (Sample.dna 1200)
    ("Quality " +:+ quality_gapfilled_seq Sample.args Sample.gap
                      "bkpt1_GapID.s1+_s2+_Gaplen.1000_sol_1/1"
                      Sample.ref_rows []) = false.
Proof.
  apply (no_row_no_solution Sample.args Sample.gap
           "bkpt1_GapID.s1+_s2+_Gaplen.1000_sol_1/1" (Sample.dna 1200) Sample.ref_rows []).
  - split.
    + intros row Hrow. vm_compute in Hrow.
      destruct Hrow as [<- | [<- | [<- | [<- | []]]]]; eexists; reflexivity.
    + intros row [].
  - right. right. reflexivity.
Defined.


(** ** The matcher and the strings of a regular expression *)

Lemma append_nil_inv (s1 s2 : string) :
  s1 +:+ s2 = EmptyString -> s1 = EmptyString /\ s2 = EmptyString.
Proof. destruct s1; [intros H; split; [reflexivity | exact H] | discriminate]. Qed.

Lemma append_cons_inv (s1 s2 s : string) (c : ascii) :
  s1 +:+ s2 = String c s ->
  (s1 = EmptyString /\ s2 = String c s) \/
  (exists s1', s1 = String c s1' /\ s = s1' +:+ s2).
Proof.
  destruct s1 as [|c1 s1]; intros H.
  - left. split; [reflexivity | exact H].
  - right. rewrite append_cons in H. injection H as -> <-. exists s1. split; reflexivity.
Qed.

Lemma nullable_matches (r : Re.regex) :
  Re.nullable r = true <-> matches r EmptyString.
Proof.
  induction r as [| | c | | cs | r1 IH1 r2 IH2 | r1 IH1 r2 IH2 | r IH]; cbn [Re.nullable].
  - split; [discriminate | intros H; inversion H].
  - split; [intros _; constructor | reflexivity].
  - split; [discriminate | intros H; inversion H].
  - split; [discriminate | intros H; inversion H].
  - split; [discriminate | intros H; inversion H].
  - rewrite andb_true_iff, IH1, IH2. split.
    + intros [H1 H2]. exact (MCat r1 r2 EmptyString EmptyString H1 H2).
    + intros H. inversion H as [| | | | r1' r2' s1 s2 H1 H2 Heq Hs | | | |]; subst.
      apply append_nil_inv in Hs. destruct Hs as [-> ->]. split; assumption.
  - rewrite orb_true_iff, IH1, IH2. split.
    + intros [H | H]; [apply MAltL | apply MAltR]; exact H.
    + intros H. inversion H; subst; [left | right]; assumption.
  - split; [intros _; constructor | reflexivity].
Qed.

Lemma matches_star_cons (r : Re.regex) (c : ascii) (s : string) :
  matches (Re.Star r) (String c s) ->
  exists s1 s2, s = s1 +:+ s2 /\ matches r (String c s1) /\ matches (Re.Star r) s2.
Proof.
  intros H. remember (Re.Star r) as r' eqn:Hr. remember (String c s) as s' eqn:Hs.
  revert s Hs.
  induction H as [| | | | | | | r0 | r0 s1 s2 H1 IH1 H2 IH2]; intros t Ht;
    try discriminate Hr; [discriminate Ht |].
  injection Hr as ->.
  apply append_cons_inv in Ht. destruct Ht as [[-> ->] | [s1' [-> ->]]].
  - apply IH2; reflexivity.
  - exists s1', s2. repeat split; assumption.
Qed.

Lemma deriv_matches (r : Re.regex) :
  forall c s, matches (Re.deriv c r) s <-> matches r (String c s).
Proof.
  induction r as [| | a | | cs | r1 IH1 r2 IH2 | r1 IH1 r2 IH2 | r IH]; intros c s;
    cbn [Re.deriv].
  - split; intros H; inversion H.
  - split; intros H; inversion H.
  - destruct (Ascii.eqb_spec c a) as [-> | Hne].
    + split; intros H; inversion H; subst; constructor.
    + split; intros H; inversion H; subst. destruct (Hne eq_refl).
  - destruct (Ascii.eqb_spec c Re.newline) as [-> | Hne].
    + split; intros H; inversion H; subst. congruence.
    + split; intros H; inversion H; subst; constructor. exact Hne.
  - destruct (existsb (Ascii.eqb c) cs) eqn:E.
    + apply existsb_exists in E. destruct E as [x [Hx Hc]]. apply Ascii.eqb_eq in Hc. subst x.
      split; intros H; inversion H; subst; constructor. exact Hx.
    + split; intros H; inversion H; subst.
      assert (Hex : existsb (Ascii.eqb c) cs = true)
        by (apply existsb_exists; exists c; split; [assumption | apply Ascii.eqb_refl]).
      congruence.
  - assert (Hcat : matches (Re.Cat (Re.deriv c r1) r2) s ->
                   matches (Re.Cat r1 r2) (String c s)).
    { intros H. inversion H as [| | | | r1' r2' s1 s2 H1 H2 Heq Hs | | | |]; subst.
      apply IH1 in H1. exact (MCat r1 r2 (String c s1) s2 H1 H2). }
    assert (Hinv : matches (Re.Cat r1 r2) (String c s) ->
                   matches (Re.Cat (Re.deriv c r1) r2) s \/
                   (matches r1 EmptyString /\ matches (Re.deriv c r2) s)).
    { intros H. inversion H as [| | | | r1' r2' s1 s2 H1 H2 Heq Hs | | | |]; subst.
      apply append_cons_inv in Hs. destruct Hs as [[-> ->] | [s1' [-> ->]]].
      - right. split; [exact H1 | apply IH2; exact H2].
      - left. apply MCat; [apply IH1; exact H1 | exact H2]. }
    destruct (Re.nullable r1) eqn:En.
    + split.
      * intros H.
        inversion H as [| | | | | ra rb s' Ha | ra rb s' Ha | |]; subst;
          [apply Hcat; exact Ha |].
        apply nullable_matches in En.
        exact (MCat r1 r2 EmptyString (String c s) En (proj1 (IH2 c s) Ha)).
      * intros H. destruct (Hinv H) as [H' | [_ H']]; [apply MAltL | apply MAltR]; exact H'.
    + split; [exact Hcat |].
      intros H. destruct (Hinv H) as [H' | [H' _]]; [exact H' |].
      apply nullable_matches in H'. congruence.
  - split.
    + intros H. inversion H; subst; [apply MAltL; apply IH1 | apply MAltR; apply IH2];
        assumption.
    + intros H. inversion H; subst; [apply MAltL; apply IH1 | apply MAltR; apply IH2];
        assumption.
  - split.
    + intros H. inversion H as [| | | | r1' r2' s1 s2 H1 H2 Heq Hs | | | |]; subst.
      apply IH in H1. exact (MStarS r (String c s1) s2 H1 H2).
    + intros H. apply matches_star_cons in H. destruct H as [s1 [s2 [-> [H1 H2]]]].
      apply MCat; [apply IH; exact H1 | exact H2].
Qed.

(** The matcher decides membership. *)
Lemma fullmatch_matches (s : string) :
  forall r, Re.fullmatch r s = true <-> matches r s.
Proof.
  induction s as [|c s IH]; intros r; cbn [Re.fullmatch].
  - apply nullable_matches.
  - rewrite IH. apply deriv_matches.
Qed.

Lemma matches_lit (w s : string) : matches (Re.lit w) s <-> s = w.
Proof.
  revert s. induction w as [|c w IH]; intros s; cbn [Re.lit].
  - split; [intros H; inversion H; reflexivity | intros ->; constructor].
  - split.
    + intros H. inversion H as [| | | | r1' r2' s1 s2 H1 H2 Heq Hs | | | |]; subst.
      inversion H1; subst. apply IH in H2. subst. reflexivity.
    + intros ->. exact (MCat _ _ (String c EmptyString) w (MChr c) (proj2 (IH w) eq_refl)).
Qed.

Lemma matches_star_dot (s : string) : matches (Re.Star Re.Dot) s <-> one_line s.
Proof.
  unfold one_line. induction s as [|c s IH].
  - split; [intros _ [] | intros _; constructor].
  - split.
    + intros H. apply matches_star_cons in H. destruct H as [s1 [s2 [-> [H1 H2]]]].
      inversion H1; subst. cbn [String.append] in *.
      change (EmptyString +:+ s2) with s2 in IH.
      intros [Hc | Hin]; [congruence | apply (proj1 IH H2); exact Hin].
    + intros Hno. cbn [list_ascii_of_string In] in Hno.
      apply (MStarS Re.Dot (String c EmptyString) s).
      * constructor. intros ->. apply Hno. left. reflexivity.
      * apply IH. intros Hin. apply Hno. right. exact Hin.
Qed.

Lemma matches_dollar (body : Re.regex) (s : string) :
  Re.match_dollar body s = true <->
  exists s1, matches body s1 /\ (s = s1 \/ s = s1 +:+ String Re.newline EmptyString).
Proof.
  unfold Re.match_dollar. rewrite fullmatch_matches. split.
  - intros H. inversion H as [| | | | r1' r2' s1 s2 H1 H2 Heq Hs | | | |]; subst.
    exists s1. split; [exact H1 |].
    inversion H2 as [| | | | | r1' r2' s' Ha | r1' r2' s' Ha | |]; subst;
      inversion Ha; subst; [left; apply append_nil_r | right; reflexivity].
  - intros [s1 [H1 [-> | ->]]].
    + rewrite <- (append_nil_r s1). apply MCat; [exact H1 | apply MAltL; constructor].
    + apply MCat; [exact H1 | apply MAltR; constructor].
Qed.

(** ** The suffix tests *)

Lemma matches_suffix_pattern (w s : string) :
  matches (suffix_pattern w) s <->
  exists p c, one_line p /\ c <> Re.newline /\ s = p +:+ String c w.
Proof.
  unfold suffix_pattern. split.
  - intros H. inversion H as [| | | | r1' r2' p s2 H1 H2 Heq Hs | | | |]; subst.
    inversion H2 as [| | | | r1' r2' s3 s4 H3 H4 Heq Hs | | | |]; subst.
    inversion H3; subst. apply matches_lit in H4. subst.
    exists p, c. split; [apply matches_star_dot; exact H1 |]. split; [assumption | reflexivity].
  - intros [p [c [Hp [Hc ->]]]].
    apply MCat; [apply matches_star_dot; exact Hp |].
    exact (MCat _ _ (String c EmptyString) w (MDot c Hc) (proj2 (matches_lit w w) eq_refl)).
Qed.

(** X17. The test on the name of the graph accepts exactly the names made
    of a part without newline, then any one character that is not a
    newline, then [gfa], with or without a newline at the very end: the
    character before [gfa] need not be a dot. The same holds of the test on
    the BAM file with [bam]. *)
Theorem suffix_tests (name : string) :
  (gfa_suffix_ok name = true <->
   exists p c, one_line p /\ c <> Re.newline /\
     (name = p +:+ String c "gfa" \/
      name = (p +:+ String c "gfa") +:+ String Re.newline EmptyString)) /\
  (bam_suffix_ok name = true <->
   exists p c, one_line p /\ c <> Re.newline /\
     (name = p +:+ String c "bam" \/
      name = (p +:+ String c "bam") +:+ String Re.newline EmptyString)).
Proof.
  unfold gfa_suffix_ok, bam_suffix_ok. rewrite !matches_dollar. split; split.
  - intros [s1 [H Hs]]. apply matches_suffix_pattern in H.
    destruct H as [p [c [Hp [Hc ->]]]]. exists p, c. repeat split; assumption.
  - intros [p [c [Hp [Hc Hs]]]]. exists (p +:+ String c "gfa").
    split; [apply matches_suffix_pattern; exists p, c; repeat split; assumption | exact Hs].
  - intros [s1 [H Hs]]. apply matches_suffix_pattern in H.
    destruct H as [p [c [Hp [Hc ->]]]]. exists p, c. repeat split; assumption.
  - intros [p [c [Hp [Hc Hs]]]]. exists (p +:+ String c "bam").
    split; [apply matches_suffix_pattern; exists p, c; repeat split; assumption | exact Hs].
Qed.

Example suffix_without_dot :
  gfa_suffix_ok "assembly_gfa" = true /\ gfa_suffix_ok "assembly.gfa.gz" = false /\
  bam_suffix_ok "reads.bam" = true.
Proof. repeat split; vm_compute; reflexivity. Qed.


(** ** The names of the graph files *)

Lemma prefix_append (p s : string) :
  String.prefix p s = true -> exists rest, s = p +:+ rest.
Proof.
  revert s. induction p as [|a p IH]; intros s H.
  - exists s. reflexivity.
  - destruct s as [|b s]; [discriminate H |]. cbn [String.prefix] in H.
    destruct (ascii_dec a b) as [-> | _]; [| discriminate H].
    destruct (IH s H) as [rest ->]. exists rest. reflexivity.
Qed.

Lemma append_inj_l (p a b : string) : p +:+ a = p +:+ b -> a = b.
Proof.
  induction p as [|c p IH]; intros H; [exact H |].
  rewrite !append_cons in H. injection H as H. apply IH. exact H.
Qed.

Lemma before_first_cases (sep s : string) :
  before_first sep s = s \/ exists rest, s = before_first sep s +:+ sep +:+ rest.
Proof.
  induction s as [|c s IH]; cbn [before_first].
  - destruct (String.prefix sep EmptyString) eqn:E; left; reflexivity.
  - destruct (String.prefix sep (String c s)) eqn:E.
    + right. apply prefix_append in E. destruct E as [rest E]. exists rest. exact E.
    + destruct IH as [IH | [rest IH]].
      * left. rewrite IH. reflexivity.
      * right. exists rest. rewrite append_cons, <- IH. reflexivity.
Qed.

Lemma before_first_no_sep (sep s : string) :
  PyStr.contains sep s = false -> before_first sep s = s.
Proof.
  induction s as [|c s IH]; cbn [before_first PyStr.contains]; intros H.
  - destruct (String.prefix sep EmptyString); reflexivity.
  - apply orb_false_iff in H. destruct H as [Hp Hc]. rewrite Hp, (IH Hc). reflexivity.
Qed.

Lemma prefix_self_append (p rest : string) : String.prefix p (p +:+ rest) = true.
Proof.
  induction p as [|c p IH]; [destruct rest; reflexivity |].
  rewrite append_cons. cbn [String.prefix].
  destruct (ascii_dec c c) as [_ | Hne]; [exact IH | destruct (Hne eq_refl)].
Qed.

Lemma before_first_at_sep (sep rest : string) :
  before_first sep (sep +:+ rest) = EmptyString.
Proof.
  pose proof (prefix_self_append sep rest) as H.
  destruct (sep +:+ rest); cbn [before_first]; rewrite H; reflexivity.
Qed.

(** No occurrence of [.gfa] begins in a part that holds none and ends in
    the [.gfa] that follows it. *)
Lemma gfa_not_astride (c : ascii) (t rest : string) :
  PyStr.contains ".gfa" (String c t) = false ->
  String.prefix ".gfa" (String c t +:+ ".gfa" +:+ rest) = false.
Proof.
  cbn [PyStr.contains]. intros H. apply orb_false_iff in H. destruct H as [H _].
  revert H. cbv [String.append]. cbn [String.prefix].
  destruct (ascii_dec "." c) as [_ |]; [| reflexivity].
  destruct t as [|c1 t]; [reflexivity |]. cbn [String.prefix].
  destruct (ascii_dec "g" c1) as [_ |]; [| reflexivity].
  destruct t as [|c2 t]; [reflexivity |]. cbn [String.prefix].
  destruct (ascii_dec "f" c2) as [_ |]; [| reflexivity].
  destruct t as [|c3 t]; [reflexivity |]. cbn [String.prefix].
  destruct (ascii_dec "a" c3) as [_ |]; [| reflexivity].
  intros H. destruct t; discriminate H.
Qed.

Lemma before_first_gfa (stem rest : string) :
  PyStr.contains ".gfa" stem = false ->
  before_first ".gfa" (stem +:+ ".gfa" +:+ rest) = stem.
Proof.
  induction stem as [|c t IH]; intros H.
  - change (EmptyString +:+ ".gfa" +:+ rest) with (".gfa" +:+ rest).
    apply before_first_at_sep.
  - pose proof (gfa_not_astride c t rest H) as Hp.
    rewrite append_cons in Hp |- *. cbn [before_first]. rewrite Hp.
    cbn [PyStr.contains] in H. apply orb_false_iff in H. destruct H as [_ H].
    rewrite (IH H). reflexivity.
Qed.

Lemma gfa_name_of_path (dir name : string) :
  PyStr.contains "/" name = false ->
  gfa_name (dir +:+ String "/" name) = name.
Proof. intros H. apply split_aux_last. exact H. Qed.

Lemma append_longer (p s : string) : s <> EmptyString -> p +:+ s <> p.
Proof.
  intros Hs H. induction p as [|c p IH].
  - apply Hs. exact H.
  - rewrite append_cons in H. injection H as H. apply IH. exact H.
Qed.

(** X18. For a graph at [dir/name], the output graph is named after what
    stands before the first [.gfa] of [name]: it never has the name of the
    input graph; a name [stem.gfa...] whose stem holds no [.gfa] gives
    [stem_mtglink.gfa] whatever follows the first [.gfa]; a name without
    [.gfa] is kept whole. *)
Theorem output_graph_name (dir name : string)
    (Hname : PyStr.contains "/" name = false) :
  let gfa_file := dir +:+ String "/" name in
  gfa_name gfa_file = name /\
  out_gfa_file gfa_file <> name /\
  (forall stem rest,
     name = stem +:+ ".gfa" +:+ rest -> PyStr.contains ".gfa" stem = false ->
     out_gfa_file gfa_file = stem +:+ "_mtglink.gfa") /\
  (PyStr.contains ".gfa" name = false ->
   out_gfa_file gfa_file = name +:+ "_mtglink.gfa").
Proof.
  intros gfa_file. pose proof (gfa_name_of_path dir name Hname) as Hn.
  fold gfa_file in Hn. unfold out_gfa_file. rewrite Hn.
  split; [reflexivity |]. split; [| split].
  - destruct (before_first_cases ".gfa" name) as [E | [rest E]].
    + rewrite E. apply append_longer. discriminate.
    + intros H. rewrite E in H at 2. apply append_inj_l in H. discriminate H.
  - intros stem rest -> Hstem. rewrite (before_first_gfa stem rest Hstem). reflexivity.
  - intros H. rewrite (before_first_no_sep _ _ H). reflexivity.
Qed.

Lemma output_graph_name_witness :
  gfa_name "/data/run1/asm.gfa.v2.gfa" = "asm.gfa.v2.gfa" /\
  out_gfa_file "/data/run1/asm.gfa.v2.gfa" <> "asm.gfa.v2.gfa" /\
  out_gfa_file "/data/run1/asm.gfa.v2.gfa" = "asm_mtglink.gfa".
Proof.
  assert (H1 : PyStr.contains "/" "asm.gfa.v2.gfa" = false) by (vm_compute; reflexivity).
  assert (H2 : PyStr.contains ".gfa" "asm" = false) by (vm_compute; reflexivity).
  pose proof (output_graph_name "/data/run1" "asm.gfa.v2.gfa" H1) as [Ha [Hb [Hc _]]].
  split; [exact Ha |]. split; [exact Hb |].
  exact (Hc "asm" ".v2.gfa" eq_refl H2).
Defined.


(** ** The k-mers of the breakpoint file *)

Lemma substring_length (s : string) :
  forall n m, String.length (String.substring n m s) = Nat.min m (String.length s - n).
Proof.
  induction s as [|c s IH]; intros n m.
  - destruct n, m; reflexivity.
  - destruct n as [|n].
    + destruct m as [|m]; [reflexivity |].
      cbn [String.substring String.length]. rewrite IH. lia.
    + cbn [String.substring String.length]. rewrite IH. lia.
Qed.

Lemma length_append (s t : string) :
  String.length (s +:+ t) = (String.length s + String.length t)%nat.
Proof.
  induction s as [|c s IH]; [reflexivity |].
  rewrite append_cons. cbn [String.length]. rewrite IH. reflexivity.
Qed.

Lemma length_zero (s : string) : String.length s = 0%nat -> s = EmptyString.
Proof. destruct s; [reflexivity | discriminate]. Qed.

Lemma substring_between (s : string) :
  forall n m, (n + m <= String.length s)%nat ->
    exists a b, s = a +:+ String.substring n m s +:+ b /\ String.length a = n.
Proof.
  induction s as [|c s IH]; intros n m Hle.
  - cbn [String.length] in Hle. assert (n = 0%nat) by lia. assert (m = 0%nat) by lia.
    subst. exists EmptyString, EmptyString. split; reflexivity.
  - cbn [String.length] in Hle. destruct n as [|n].
    + destruct m as [|m].
      * exists EmptyString, (String c s). split; reflexivity.
      * destruct (IH 0%nat m ltac:(lia)) as [a [b [Hs Ha]]].
        apply length_zero in Ha. subst a.
        exists EmptyString, b. split; [| reflexivity].
        cbn [String.substring].
        change (EmptyString +:+ String c (String.substring 0 m s) +:+ b)
          with (String c (EmptyString +:+ String.substring 0 m s +:+ b)).
        rewrite <- Hs. reflexivity.
    + destruct (IH n m ltac:(lia)) as [a [b [Hs Ha]]].
      exists (String c a), b. split; [| cbn [String.length]; rewrite Ha; reflexivity].
      cbn [String.substring]. rewrite append_cons, <- Hs. reflexivity.
Qed.

(** X19. On a scaffold whose recorded length is the length of its sequence,
    with an extension between 0 and that length and k > 0: when the scaffold
    is at least ext + k long, the left k-mer is the k characters that end
    ext before the end of the sequence and the right k-mer the k characters
    that begin ext after its start; when it is shorter, both k-mers are
    shorter than k, and the left one is empty as soon as k is no more than
    the length of the scaffold. *)
Theorem breakpoint_kmers (seq : string) (slen ext k : Z)
    (Hslen : slen = Z.of_nat (String.length seq))
    (Hext : 0 <= ext <= slen) (Hk : 0 < k) :
  (ext + k <= slen ->
   (exists a b, seq = a +:+ line2 seq slen ext k +:+ b /\
                Z.of_nat (String.length (line2 seq slen ext k)) = k /\
                Z.of_nat (String.length b) = ext) /\
   (exists a b, seq = a +:+ line4 seq ext k +:+ b /\
                Z.of_nat (String.length a) = ext /\
                Z.of_nat (String.length (line4 seq ext k)) = k)) /\
  (slen < ext + k ->
   Z.of_nat (String.length (line2 seq slen ext k)) < k /\
   Z.of_nat (String.length (line4 seq ext k)) < k /\
   (k <= slen -> line2 seq slen ext k = EmptyString)).
Proof.
  unfold line2, line4, py_slice. rewrite <- Hslen. split.
  - intros Hlong. split.
    + assert (Hlo : slice_index slen (slen - ext - k) = slen - ext - k).
      { unfold slice_index. destruct (Z.ltb_spec (slen - ext - k) 0); lia. }
      assert (Hhi : slice_index slen (slen - ext) = slen - ext).
      { unfold slice_index. destruct (Z.ltb_spec (slen - ext) 0); lia. }
      rewrite Hlo, Hhi.
      destruct (substring_between seq (Z.to_nat (slen - ext - k))
                  (Z.to_nat (slen - ext - (slen - ext - k))) ltac:(lia))
        as [a [b [Hs Ha]]].
      exists a, b. split; [exact Hs |].
      assert (Hlen : Z.of_nat (String.length
                (String.substring (Z.to_nat (slen - ext - k))
                   (Z.to_nat (slen - ext - (slen - ext - k))) seq)) = k)
        by (rewrite substring_length; lia).
      split; [exact Hlen |].
      apply (f_equal String.length) in Hs. rewrite !length_append in Hs. lia.
    + assert (Hlo : slice_index slen ext = ext).
      { unfold slice_index. destruct (Z.ltb_spec ext 0); lia. }
      assert (Hhi : slice_index slen (ext + k) = ext + k).
      { unfold slice_index. destruct (Z.ltb_spec (ext + k) 0); lia. }
      rewrite Hlo, Hhi.
      destruct (substring_between seq (Z.to_nat ext) (Z.to_nat (ext + k - ext)) ltac:(lia))
        as [a [b [Hs Ha]]].
      exists a, b. split; [exact Hs |]. split; [lia |].
      rewrite substring_length. lia.
  - intros Hshort.
    assert (Hlo : slice_index slen (slen - ext - k) = Z.max (slen + (slen - ext - k)) 0).
    { unfold slice_index. destruct (Z.ltb_spec (slen - ext - k) 0); lia. }
    assert (Hhi : slice_index slen (slen - ext) = slen - ext).
    { unfold slice_index. destruct (Z.ltb_spec (slen - ext) 0); lia. }
    assert (Hlo4 : slice_index slen ext = ext).
    { unfold slice_index. destruct (Z.ltb_spec ext 0); lia. }
    assert (Hhi4 : slice_index slen (ext + k) = slen).
    { unfold slice_index. destruct (Z.ltb_spec (ext + k) 0); lia. }
    rewrite Hlo, Hhi, Hlo4, Hhi4. split; [| split].
    + rewrite substring_length. lia.
    + rewrite substring_length. lia.
    + intros Hk'. apply length_zero. rewrite substring_length. lia.
Qed.

Lemma breakpoint_kmers_witness :
  line2 "ACGTACGTAC" 10 8 4 = EmptyString /\
  Z.of_nat (String.length (line4 "ACGTACGTAC" 8 4)) < 4.
Proof.
  assert (H1 : 10 = Z.of_nat (String.length "ACGTACGTAC")) by reflexivity.
  assert (H2 : 0 <= 8 <= 10) by lia.
  assert (H3 : 0 < 4) by lia.
  assert (H4 : 10 < 8 + 4) by lia.
  assert (H5 : 4 <= 10) by lia.
  pose proof (proj2 (breakpoint_kmers "ACGTACGTAC" 10 8 4 H1 H2 H3) H4) as [_ [Hb Hc]].
  split; [exact (Hc H5) | exact Hb].
Defined.


(** ** After the [try] block *)

Section EpilogueFacts.

Variable args : Args.
Variable gfa : list string.
Variable gap_info : string -> GapInfo.
Variable world : string -> World.
Variable update_gfa_with_solution :
  list string -> option (list string) -> option (list string).
Variable out_gfa_before : option (list string).
Variable outDir : string.
Variable gapfill_file_of : list string -> string.

Local Abbreviation value_of g := (snd (gapfilling args (gap_info g) (world g))).
Local Abbreviation output_of g :=
  (match value_of g with
   | inr (_, output_for_gfa) => Some output_for_gfa
   | inl _ => None
   end).

Lemma solutions_bind_both (l : list (list string)) :
  l <> [] -> forall fl,
    exists file_,
      fold_left (fun (fl' : Flags) output => mkFlags (Some true) (Some (gapfill_file_of output)))
                l fl
      = mkFlags (Some true) (Some file_).
Proof.
  induction l as [|o l IH]; intros Hne fl; [destruct (Hne eq_refl) |].
  cbn [fold_left]. destruct l as [|o' l].
  - exists (gapfill_file_of o). reflexivity.
  - apply IH. discriminate.
Qed.

Lemma flag_step_filled (fl : Flags) (o : list (list string)) :
  filled o = true ->
  exists file_, flag_step gapfill_file_of fl o = mkFlags (Some true) (Some file_).
Proof.
  unfold filled, flag_step. destruct o as [|first rest]; [discriminate |].
  intros ->. apply solutions_bind_both. discriminate.
Qed.

Lemma flag_step_unfilled (fl : Flags) (o : list (list string)) :
  filled o = false -> o <> [] ->
  flag_step gapfill_file_of fl o = mkFlags (Some false) (gapfill_file fl).
Proof.
  unfold filled, flag_step. destruct o as [|first rest]; [intros _ H; destruct (H eq_refl) |].
  intros -> _. reflexivity.
Qed.

Lemma flags_after (outputs : list (list (list string))) :
  Forall (fun o => o <> []) outputs ->
  forall fl, file_with_success fl ->
    let fl' := fold_left (flag_step gapfill_file_of) outputs fl in
    file_with_success fl' /\
    (gapfill_file fl' = None <->
     gapfill_file fl = None /\ existsb filled outputs = false) /\
    (outputs <> [] -> success fl' <> None).
Proof.
  induction 1 as [|o outputs Ho Hall IH]; intros fl Hfl; cbn [fold_left existsb].
  - split; [exact Hfl |]. split; [| intros H; destruct (H eq_refl)].
    split; [intros H; split; [exact H | reflexivity] | intros [H _]; exact H].
  - destruct (filled o) eqn:Ef.
    + destruct (flag_step_filled fl o Ef) as [file_ Hstep]. rewrite Hstep.
      destruct (IH (mkFlags (Some true) (Some file_)) ltac:(intros _; discriminate))
        as [I1 [I2 I3]].
      split; [exact I1 |]. split.
      * split; [| intros [_ H]; discriminate H].
        intros H. apply I2 in H. destruct H as [H _]. discriminate H.
      * intros _. destruct outputs as [|o' outputs']; [discriminate | apply I3; discriminate].
    + rewrite (flag_step_unfilled fl o Ef Ho).
      destruct (IH (mkFlags (Some false) (gapfill_file fl)) ltac:(intros _; discriminate))
        as [I1 [I2 I3]].
      split; [exact I1 |]. split; [exact I2 |].
      intros _. destruct outputs as [|o' outputs']; [discriminate | apply I3; discriminate].
Qed.

Lemma collect_done_outputs (l : list string) :
  forall out acc out' sums,
    collect update_gfa_with_solution (map (fun g => value_of g) l) out acc = Done out' sums ->
    Forall (fun o => o <> []) (omap (fun g => output_of g) l) /\
    (l <> [] -> omap (fun g => output_of g) l <> []).
Proof.
  induction l as [|g l IH]; intros out acc out' sums Hrun.
  - split; [constructor | intros H; destruct (H eq_refl)].
  - cbn [map collect] in Hrun. cbn [omap list_omap].
    destruct (value_of g) as [e | [summary o]]; [discriminate Hrun |].
    destruct (write_gap update_gfa_with_solution o out) as [e | out1] eqn:Ew;
      [discriminate Hrun |].
    destruct (IH _ _ _ _ Hrun) as [I1 _].
    split; [| intros _; discriminate].
    constructor; [| exact I1].
    intros ->. cbn [write_gap] in Ew. discriminate Ew.
Qed.

Lemma epilogue_opens (fl : Flags) :
  file_with_success fl ->
  ((exists f, epilogue outDir fl = OpensFasta f) <-> gapfill_file fl <> None) /\
  (success fl <> None -> gapfill_file fl = None ->
   epilogue outDir fl = NameError "gapfill_file").
Proof.
  unfold file_with_success, epilogue. intros Hfl.
  destruct (gapfill_file fl) as [file_|].
  - destruct (success fl); [| destruct (Hfl ltac:(discriminate) eq_refl)].
    split; [| intros _ H; discriminate H].
    split; [intros _; discriminate | intros _; eexists; reflexivity].
  - destruct (success fl).
    + split; [| reflexivity].
      split; [intros [f H]; discriminate H | intros H; destruct (H eq_refl)].
    + split; [| intros H; destruct (H eq_refl)].
      split; [intros [f H]; discriminate H | intros H; destruct (H eq_refl)].
Qed.

Local Abbreviation the_run :=
  (run_result (main args gfa gap_info world update_gfa_with_solution out_gfa_before)).
Local Abbreviation the_script :=
  (script args gfa gap_info world update_gfa_with_solution out_gfa_before outDir
          gapfill_file_of).
Local Abbreviation the_outputs := (task_outputs args gfa gap_info world).

(** X20. [success] and [gapfill_file] are bound only while the values of the
    tasks are written. When no gap is handed to the pool, the script stops
    at line 620 with NameError on [success]. It gets to open the file of the
    gap-filled sequences exactly when the [try] block ends without exception
    and the value of at least one task holds a solution; when the block ends
    without exception, gaps were handed out and none was filled, it stops at
    line 649 with NameError on [gapfill_file]. *)
Theorem script_needs_a_filled_gap :
  (gaps args gfa = [] -> the_script = NameError "success") /\
  ((exists f, the_script = OpensFasta f) <->
   (exists out sums, the_run = Done out sums) /\ existsb filled the_outputs = true) /\
  (forall out sums,
     the_run = Done out sums -> gaps args gfa <> [] -> existsb filled the_outputs = false ->
     the_script = NameError "gapfill_file").
Proof.
  assert (Hdone : forall out sums, the_run = Done out sums ->
            Forall (fun o => o <> []) the_outputs /\
            (gaps args gfa <> [] -> the_outputs <> [])).
  { intros out sums Hrun. unfold main in Hrun. cbn [run_result] in Hrun.
    destruct (first_raised _); [discriminate Hrun |].
    exact (collect_done_outputs _ _ _ _ _ Hrun). }
  assert (Hinit : file_with_success (mkFlags None None)) by (intros H; destruct (H eq_refl)).
  split; [| split].
  - intros Hnone. unfold script, main, task_outputs. rewrite Hnone. reflexivity.
  - unfold script. split.
    + intros [f Hf]. destruct the_run as [e | out sums] eqn:Hrun; [discriminate Hf |].
      split; [exists out, sums; reflexivity |].
      destruct (Hdone out sums eq_refl) as [Hall _].
      destruct (flags_after the_outputs Hall _ Hinit) as [I1 [I2 _]].
      destruct (epilogue_opens _ I1) as [E1 _].
      destruct (existsb filled the_outputs); [reflexivity |].
      exfalso. apply (proj1 E1 (ex_intro _ f Hf)). apply I2. split; reflexivity.
    + intros [[out [sums Hrun]] Hex]. rewrite Hrun.
      destruct (Hdone out sums Hrun) as [Hall _].
      destruct (flags_after the_outputs Hall _ Hinit) as [I1 [I2 _]].
      apply (epilogue_opens _ I1). intros H. apply I2 in H. destruct H as [_ H]. congruence.
  - intros out sums Hrun Hgaps Hex. unfold script. rewrite Hrun.
    destruct (Hdone out sums Hrun) as [Hall Hne].
    destruct (flags_after the_outputs Hall _ Hinit) as [I1 [I2 I3]].
    apply (epilogue_opens _ I1); [apply I3, Hne, Hgaps |].
    apply I2. split; [reflexivity | exact Hex].
Qed.

End EpilogueFacts.

Lemma unfilled_run_done :
  exists out sums,
    run_result (main Sample.args Sample.graph_with_gap (fun _ => Sample.gap)
                     (fun _ => Sample.nothing) Sample.update_gfa None)
    = Done out sums.
Proof. eexists. eexists. vm_compute. reflexivity. Defined.

Lemma script_needs_a_filled_gap_witness :
  script Sample.args Sample.graph_without_gap (fun _ => Sample.gap) (fun _ => Sample.nothing)
         Sample.update_gfa None "/out" (fun _ => "gapfill.fasta")
  = NameError "success" /\
  script Sample.args Sample.graph_with_gap (fun _ => Sample.gap) (fun _ => Sample.nothing)
         Sample.update_gfa None "/out" (fun _ => "gapfill.fasta")
  = NameError "gapfill_file".
Proof.
  split.
  - assert (H : gaps Sample.args Sample.graph_without_gap = []) by (vm_compute; reflexivity).
    exact (proj1 (script_needs_a_filled_gap Sample.args Sample.graph_without_gap
                    (fun _ => Sample.gap) (fun _ => Sample.nothing) Sample.update_gfa None
                    "/out" (fun _ => "gapfill.fasta")) H).
  - pose proof (unfilled_run_done) as [out [sums Hrun]].
    assert (H2 : gaps Sample.args Sample.graph_with_gap <> []) by (vm_compute; discriminate).
    assert (H3 : existsb filled (task_outputs Sample.args Sample.graph_with_gap
                                   (fun _ => Sample.gap) (fun _ => Sample.nothing)) = false)
      by (vm_compute; reflexivity).
    exact (proj2 (proj2 (script_needs_a_filled_gap Sample.args Sample.graph_with_gap
                    (fun _ => Sample.gap) (fun _ => Sample.nothing) Sample.update_gfa None
                    "/out" (fun _ => "gapfill.fasta"))) out sums Hrun H2 H3).
Defined.


(** ** The directories of the results *)

Lemma mkdir_Some (path : string) (fs fs' : gset string) :
  mkdir path fs = Some fs' <-> (path ∉ fs) /\ fs' = {[path]} ∪ fs.
Proof.
  unfold mkdir. destruct (decide (path ∈ fs)) as [Hin | Hout].
  - split; [discriminate | intros [H _]; destruct (H Hin)].
  - split; [intros [= <-]; split; [exact Hout | reflexivity] | intros [_ ->]; reflexivity].
Qed.

(** X21. The three directories are made without a test: a run passes
    lines 129-139 only in an output directory that holds none of them, it
    adds these three paths and no other, and from then on no run passes
    these lines in the same output directory, whatever else has been
    added in between. *)
Theorem directories_made_once (outDir : string) (fs fs' : gset string)
    (Hmade : make_dirs outDir fs = Some fs') :
  (unionDir outDir ∉ fs) /\ (mtgDir outDir ∉ fs) /\ (contigDir outDir ∉ fs) /\
  fs' = {[unionDir outDir; mtgDir outDir; contigDir outDir]} ∪ fs /\
  (forall later, fs' ⊆ later -> make_dirs outDir later = None).
Proof.
  unfold make_dirs in Hmade.
  destruct (mkdir (unionDir outDir) fs) as [fs1|] eqn:E1; [| discriminate Hmade].
  destruct (mkdir (mtgDir outDir) fs1) as [fs2|] eqn:E2; [| discriminate Hmade].
  apply mkdir_Some in E1, E2, Hmade.
  destruct E1 as [H1 ->], E2 as [H2 ->], Hmade as [H3 ->].
  split; [exact H1 |].
  split; [intros Hin; apply H2; apply elem_of_union_r; exact Hin |].
  split; [intros Hin; apply H3; do 2 apply elem_of_union_r; exact Hin |].
  split; [apply set_eq; intros x; set_unfold; tauto |].
  intros later Hsub. unfold make_dirs, mkdir at 1.
  destruct (decide (unionDir outDir ∈ later)) as [_ | Hout]; [reflexivity |].
  exfalso. apply Hout. set_solver.
Qed.

Lemma directories_made_once_witness :
  exists fs', make_dirs "/out" {["/out"]} = Some fs' /\ make_dirs "/out" fs' = None.
Proof.
  assert (H : make_dirs "/out" {["/out"]}
              = Some ({[contigDir "/out"]} ∪ ({[mtgDir "/out"]} ∪ ({[unionDir "/out"]} ∪ {["/out"]}))))
    by (vm_compute; reflexivity).
  eexists. split; [exact H |].
  refine (proj2 (proj2 (proj2 (proj2 (directories_made_once "/out" _ _ H)))) _ _).
  reflexivity.
Defined.
